(** * rNews: the per-category dispatch pipeline

    A shallow embedding of the TypeScript sources of rNews
    (dispatcher.ts, translator.ts, formatter.ts, sources/rss-source.ts)
    and the properties of the pipeline proved about it.

    The history of the repository holds earlier revisions of
    dispatcher.ts and formatter.ts.  The embedding follows the current
    revision of each: the dispatcher with the keyword filter and the title
    deduplicator, and the [formatNewsMessages] with the two limits
    [maxSourcesPerMsg] and [maxChars], which is the one the README
    describes.

    Conventions of the embedding.
    - A JavaScript string is the list of its UTF-16 code units, so that
      [length] is the [.length] of the source and a regular expression
      without the [u] flag sees one list element per character.
    - A [Set<string>] is a [gset jsstring]; the [Map] of the webhook
      adapters and the record of the categories are [gmap]s.  The record
      of the categories is a plain object, so a read by name also finds
      what every object inherits: these properties are those of
      [inheritedName].
    - The numbers the code divides are set sizes and string lengths.  The
      quotient is kept as an exact rational of [Q]; the code only
      compares it with [0.5] and [0.3], and for operands below [2^50]
      the correctly rounded double quotient compares with these constants
      as the exact quotient does.
    - A time value is an integer number of milliseconds or [NaN].
    - Network calls, the clock and the console are effects of a small
      state-and-exception monad.  Its state is the history of the events
      performed; the outside world is a function from the history to the
      reply, so that each reply may depend on everything that happened
      before. *)

From Stdlib Require Import QArith.
From stdpp Require Import base numbers list gmap strings pretty sorting.

Local Open Scope N_scope.

(** ** JavaScript strings *)

Module JsString.

Abbreviation jsstring := (list N).

Definition inRange (lo hi c : N) : bool := (lo <=? c) && (c <=? hi).

(** A regular-expression character class made of ranges, such as
    [a-z]: the list of its (first, last) pairs of codes. *)
Definition charClass := list (N * N).

Definition matchesClass (cls : charClass) (c : N) : bool :=
  existsb (fun r => inRange (fst r) (snd r) c) cls.

Definition isHighSurrogate (c : N) : bool := inRange 0xD800 0xDBFF c.
Definition isLowSurrogate (c : N) : bool := inRange 0xDC00 0xDFFF c.

(** The code points a regular expression with the [u] flag iterates
    over: a high surrogate followed by a low one is one code point, any
    other code unit stands for itself. *)
Fixpoint codePoints (s : jsstring) : list N :=
  match s with
  | [] => []
  | h :: t =>
      match t with
      | l :: t' =>
          if isHighSurrogate h && isLowSurrogate l
          then (0x10000 + (h - 0xD800) * 0x400 + (l - 0xDC00)) :: codePoints t'
          else h :: codePoints t
      | [] => [h]
      end
  end.

(** [String.prototype.isWellFormed]: no surrogate stands alone.
    [encodeURIComponent] throws a URIError on every other string. *)
Definition isWellFormed (s : jsstring) : bool :=
  forallb (fun cp => negb (inRange 0xD800 0xDFFF cp)) (codePoints s).

Definition encodeCodePoint (cp : N) : jsstring :=
  if cp <? 0x10000 then [cp]
  else [0xD800 + (cp - 0x10000) / 0x400; 0xDC00 + (cp - 0x10000) mod 0x400].

Definition fromCodePoints (cps : list N) : jsstring :=
  flat_map encodeCodePoint cps.

(** Literals.  The source file is UTF-8, and so is this one: a Rocq
    string literal is the list of the UTF-8 bytes of the text, which
    [js] decodes and re-encodes as UTF-16. *)
Fixpoint bytes (s : string) : list N :=
  match s with
  | EmptyString => []
  | String a rest => Ascii.N_of_ascii a :: bytes rest
  end.

Fixpoint utf8Decode (bs : list N) (need : nat) (acc : N) : list N :=
  match bs with
  | [] => []
  | b :: bs' =>
      match need with
      | O =>
          if b <? 0x80 then b :: utf8Decode bs' 0 0
          else if b <? 0xE0 then utf8Decode bs' 1 (N.land b 0x1F)
          else if b <? 0xF0 then utf8Decode bs' 2 (N.land b 0x0F)
          else utf8Decode bs' 3 (N.land b 0x07)
      | S n =>
          let acc' := acc * 64 + N.land b 0x3F in
          match n with
          | O => acc' :: utf8Decode bs' 0 0
          | S _ => utf8Decode bs' n acc'
          end
      end
  end.

Definition js (s : string) : jsstring :=
  fromCodePoints (utf8Decode (bytes s) 0 0).

(** [Array.prototype.join] on strings. *)
Fixpoint join (sep : jsstring) (parts : list jsstring) : jsstring :=
  match parts with
  | [] => []
  | [p] => p
  | p :: rest => p ++ sep ++ join sep rest
  end.

(** [x < y] on numbers *)
Definition Qlt_bool (x y : Q) : bool := negb (Qle_bool y x).

Definition nl : jsstring := [0x0A].
Definition space : jsstring := [0x20].

(** A string that may be [undefined] or [null], used as a condition:
    only a non-empty string is truthy. *)
Definition isTruthy (s : option jsstring) : bool :=
  match s with
  | Some (_ :: _) => true
  | _ => false
  end.

(** [s || null] *)
Definition orNull (s : option jsstring) : option jsstring :=
  if isTruthy s then s else None.

End JsString.
Export JsString.

(** ** Character classes *)

Module Cjk.

(** translator.ts, [needsTranslation]: the class of [cjkPattern],
    U+4E00..U+9FFF, U+3400..U+4DBF and U+F900..U+FAFF. *)
Definition cjkPattern : charClass :=
  [(0x4e00, 0x9fff); (0x3400, 0x4dbf); (0xf900, 0xfaff)].

(** dispatcher.ts, [TitleDeduplicator.extractTokens]: the class of the
    first [match], U+4E00..U+9FFF. *)
Definition dedupCjkPattern : charClass := [(0x4e00, 0x9fff)].

Definition translatorIsCjk (c : N) : bool := matchesClass cjkPattern c.
Definition dedupIsCjk (c : N) : bool := matchesClass dedupCjkPattern c.

End Cjk.
Export Cjk.

Module CharClasses.

(** [\s]: WhiteSpace and LineTerminator of ECMAScript. *)
Definition whiteSpace : charClass :=
  [(0x09, 0x0D); (0x20, 0x20); (0xA0, 0xA0); (0x1680, 0x1680);
   (0x2000, 0x200A); (0x2028, 0x2029); (0x202F, 0x202F);
   (0x205F, 0x205F); (0x3000, 0x3000); (0xFEFF, 0xFEFF)].

(** [\d] *)
Definition digit : charClass := [(0x30, 0x39)].

(** [[a-z]] *)
Definition lowerAscii : charClass := [(0x61, 0x7A)].

(** The ASCII characters of General_Category P or S. *)
Definition asciiPunctOrSymbol : charClass :=
  [(0x21, 0x2F); (0x3A, 0x40); (0x5B, 0x60); (0x7B, 0x7E)].

Definition isWhiteSpace (c : N) : bool := matchesClass whiteSpace c.
Definition isDigit (c : N) : bool := matchesClass digit c.
Definition isLowerAscii (c : N) : bool := matchesClass lowerAscii c.

(** [String.prototype.trim] *)
Fixpoint trimStart (s : jsstring) : jsstring :=
  match s with
  | [] => []
  | c :: s' => if isWhiteSpace c then trimStart s' else s
  end.
Definition trim (s : jsstring) : jsstring :=
  reverse (trimStart (reverse (trimStart s))).

(** [String.prototype.includes] *)
Fixpoint startsWith (s p : jsstring) : bool :=
  match p, s with
  | [], _ => true
  | _ :: _, [] => false
  | c :: p', d :: s' => bool_decide (c = d) && startsWith s' p'
  end.

Fixpoint includes (s p : jsstring) : bool :=
  startsWith s p ||
  match s with
  | [] => false
  | _ :: s' => includes s' p
  end.

(** Decimal rendering of a number in a template string. *)
Definition decimal (n : N) : jsstring := bytes (pretty n).
Definition decimalZ (z : Z) : jsstring :=
  match z with
  | Zneg p => 0x2D :: decimal (Npos p)
  | _ => decimal (Z.to_N z)
  end.

End CharClasses.
Export CharClasses.

(** ** The parts of the JavaScript engine the code relies on

    Built-ins whose tables are not in the repository.  Every definition
    and theorem below is generic in them. *)

(** The time value of a [Date]: [NaN] for an Invalid Date. *)
Inductive timeValue :=
| NaN
| Time (ms : Z).

Class Engine := {
  (** [String.prototype.toLowerCase] *)
  toLowerCase : jsstring -> jsstring;
  (** Whether a code point outside ASCII and outside the three CJK
      ideograph blocks has General_Category P or S *)
  unicodePunctOrSymbol : N -> bool;
  (** [new Date(s).getTime()] *)
  dateParse : jsstring -> timeValue;
  (** [(n / 1000).toFixed(1)] for an integer [n] *)
  thousandsToFixed1 : Z -> jsstring;
  (** The properties every object inherits from [Object.prototype]
      ([constructor], [toString], [__proto__], ...): for the name of
      such a property, the text [`${value.name}`] of its value, which is
      the name of the function or [undefined].  Reading one of these
      names from the record of the categories, which js-yaml builds as a
      plain object, gives that value and not [undefined]. *)
  inheritedName : jsstring -> option jsstring
}.

(** ** Data model (sources/types.ts, config/types.ts, webhooks/) *)

Module Model.

Record GithubExtra := {
  stars : option Z;
  todayStars : option Z;
  description : option jsstring;
  language : option jsstring
}.

Record NewsItem := {
  title : jsstring;
  link : jsstring;
  source : jsstring;
  pubDate : option timeValue;
  extra : option GithubExtra
}.

Inductive SourceConfig :=
| RssSourceConfig (name url : jsstring)
| GithubTrendingSourceConfig (name lang since : option jsstring)
| BaiduHotSourceConfig (name : option jsstring)
| ToutiaoHotSourceConfig (name : option jsstring)
| BilibiliHotSourceConfig (name : option jsstring).

Record WebhookConfig := {
  webhookType : jsstring;
  webhookUrl : jsstring
}.

(** [count] is a number of entries; [loadConfig] rejects a
    configuration whose count is below 1. *)
Record CategoryConfig := {
  categoryName : jsstring;
  count : nat;
  categoryWebhooks : list jsstring;
  sources : list SourceConfig
}.

Record SettingsConfig := {
  translate : option bool;
  timezone : option jsstring
}.

(** [webhooks] is read through [Object.entries], in insertion order;
    [categories] is only read by key. *)
Record AppConfig := {
  webhooks : list (jsstring * WebhookConfig);
  categories : gmap jsstring CategoryConfig;
  settings : option SettingsConfig
}.

Record LocalFilter := {
  blockedKeywords : list jsstring
}.

(** The two classes that implement the interface [WebhookAdapter]. *)
Inductive WebhookAdapter :=
| WpsTeamsWebhook (name url : jsstring)
| WecomWebhook (name url : jsstring).

(** formatter.ts *)
Record SourceGroup := {
  groupName : jsstring;
  items : list NewsItem
}.

(** An entry of [feed.items] as rss-parser returns it. *)
Record FeedItem := {
  feedTitle : option jsstring;
  feedLink : option jsstring;
  feedPubDate : option jsstring
}.

End Model.
Export Model.

(** ** Effects *)

Module Effects.

Inductive hotBoard := BaiduHot | ToutiaoHot | BilibiliHot.

(** What the code prints, by the place that prints it. *)
Inductive notice :=
| TranslateFailed (text : jsstring)
| TranslationAborted (consecutiveFailures : nat)
| TranslatedCount (translatedCount : nat)
| RssFetchFailed (name url : jsstring)
| UnknownCategory (categoryId : jsstring)
| Fetching (name : jsstring)
| NothingFetched (name : jsstring)
| Fetched (n : nat)
| SourceFetched (sourceName : jsstring) (n removed : nat)
| SplitInto (n : nat)
| WebhookNotFound (webhookId : jsstring)
| AllDone.

Inductive event :=
| GetPrimary (text : jsstring)
| GetFallback (text : jsstring)
| Sleep (ms : N)
| ConsoleLog (n : notice)
| ConsoleWarn (n : notice)
| ParseURL (url : jsstring)
| FormatToParts
| SendMarkdown (adapter : WebhookAdapter) (text : jsstring)
| FetchHot (board : hotBoard) (n : nat)
| FetchGithubTrending (lang since : option jsstring) (n : nat).

(** The events so far, the latest first. *)
Abbreviation history := (list event).

(** The answer to an HTTP request: [Rejected] when [fetch] or
    [response.json()] rejects (network error, timeout, malformed
    body), else the [ok] flag and the fields the code reads. *)
Inductive httpReply (B : Type) :=
| Rejected
| Response (ok : bool) (body : B).
Arguments Rejected {B}.
Arguments Response {B} ok body.

(** The outside world: each answer may depend on everything that
    happened before the request. *)
Class World := {
  (** api.qvqa.cn: [data?.data?.targetText] *)
  primaryApi : history -> jsstring -> httpReply (option jsstring);
  (** api.52vmy.cn: [data?.code] and [data?.data?.target] *)
  fallbackApi : history -> jsstring -> httpReply (option Z * option jsstring);
  (** [parser.parseURL]: [None] when it rejects, else [feed.items] *)
  rssFeed : history -> jsstring -> option (option (list FeedItem));
  (** [Intl.DateTimeFormat.formatToParts(new Date())]: (type, value) *)
  clockParts : history -> list (jsstring * jsstring);
  (** whether [adapter.sendMarkdown(text)] resolves *)
  webhookAccepts : history -> WebhookAdapter -> jsstring -> bool;
  (** the result of [fetchBaiduHot], [fetchToutiaoHot], [fetchBilibiliHot] *)
  hotItems : history -> hotBoard -> nat -> list NewsItem;
  (** the result of [fetchGithubTrending] *)
  trendingItems : history -> option jsstring -> option jsstring -> nat -> list NewsItem
}.

Inductive exn :=
| NetworkError
| SendFailed
| UnsupportedWebhookType (type : jsstring)
| TypeError
| URIError.

Inductive outcome (A : Type) :=
| Returned (a : A)
| Thrown (e : exn).
Arguments Returned {A} a.
Arguments Thrown {A} e.

(** The value returned, if any. *)
Definition outcomeValue {A} (o : outcome A) : option A :=
  match o with
  | Returned a => Some a
  | Thrown _ => None
  end.

Definition IO (A : Type) : Type := history -> outcome A * history.

Definition ioRet {A} (a : A) : IO A := fun h => (Returned a, h).

Definition ioBind {A B} (f : A -> IO B) (m : IO A) : IO B :=
  fun h =>
    match m h with
    | (Returned a, h') => f a h'
    | (Thrown e, h') => (Thrown e, h')
    end.

#[export] Instance IO_ret : MRet IO := @ioRet.
#[export] Instance IO_bind : MBind IO := @ioBind.

Definition throw {A} (e : exn) : IO A := fun h => (Thrown e, h).

(** [try { body } catch (e) { handler }] *)
Definition tryCatch {A} (body : IO A) (handler : exn -> IO A) : IO A :=
  fun h =>
    match body h with
    | (Returned a, h') => (Returned a, h')
    | (Thrown e, h') => handler e h'
    end.

(** Performing an effect records its event; [ask] does so and reads
    the answer of the world, which sees the history before the event. *)
Definition emit (e : event) : IO unit := fun h => (Returned (), e :: h).

Definition ask {A} (e : event) (answer : history -> A) : IO A :=
  fun h => (Returned (answer h), e :: h).

(** [for (const x of l) { s = body(s, x) }] *)
Fixpoint forEach {S A} (body : S -> A -> IO S) (s : S) (l : list A) : IO S :=
  match l with
  | [] => mret s
  | x :: l' => s' ← body s x; forEach body s' l'
  end.

Definition sleep (ms : N) : IO unit := emit (Sleep ms).
Definition consoleLog (n : notice) : IO unit := emit (ConsoleLog n).
Definition consoleWarn (n : notice) : IO unit := emit (ConsoleWarn n).

End Effects.
Export Effects.

(** ** translator.ts *)

Module Translator.

Section Translator.
Context `{Engine} `{World}.

Definition THROTTLE_MS : N := 300.
Definition MAX_CONSECUTIVE_FAILURES : nat := 2.

(** [\p{P}] or [\p{S}] *)
Definition isPunctOrSymbol (c : N) : bool :=
  if c <? 0x80 then matchesClass asciiPunctOrSymbol c
  else if translatorIsCjk c then false
  else unicodePunctOrSymbol c.

(** The class [[\s\d\p{P}\p{S}]], on code points ([u] flag). *)
Definition isStripped (c : N) : bool :=
  isWhiteSpace c || isDigit c || isPunctOrSymbol c.

(** [text.replace(/[\s\d\p{P}\p{S}]/gu, '')] *)
Definition stripped (text : jsstring) : jsstring :=
  fromCodePoints (List.filter (fun c => negb (isStripped c)) (codePoints text)).

(** [text.match(cjkPattern)?.length ?? 0] *)
Definition cjkCount (text : jsstring) : nat :=
  length (List.filter translatorIsCjk text).

Definition quotient (a b : nat) : Q :=
  (inject_Z (Z.of_nat a) / inject_Z (Z.of_nat b))%Q.

Definition needsTranslation (text : jsstring) : bool :=
  let meaningfulChars := length (stripped text) in
  if (meaningfulChars =? 0)%nat then false
  else Qlt_bool (quotient (cjkCount text) meaningfulChars) (3 # 10).

Definition translatePrimary (text : jsstring) : IO (option jsstring) :=
  response ← ask (GetPrimary text) (fun h => primaryApi h text);
  match response with
  | Rejected => throw NetworkError
  | Response ok targetText =>
      if negb ok then mret None else mret (orNull targetText)
  end.

Definition translateFallback (text : jsstring) : IO (option jsstring) :=
  response ← ask (GetFallback text) (fun h => fallbackApi h text);
  match response with
  | Rejected => throw NetworkError
  | Response ok (code, target) =>
      if negb ok then mret None
      else if negb (bool_decide (code = Some 200%Z)) then mret None
      else mret (orNull target)
  end.

Definition translateText (text : jsstring) : IO (option jsstring) :=
  primary ← tryCatch (translatePrimary text) (fun _ => mret None);
  if isTruthy primary then mret primary
  else
    fallback ← tryCatch (translateFallback text)
                 (fun _ => consoleWarn (TranslateFailed text);; mret None);
    if isTruthy fallback then mret fallback else mret None.

(** The local variables of [translateTitles]. *)
Record TranslationState := {
  results : list NewsItem;
  translatedCount : nat;
  consecutiveFailures : nat;
  aborted : bool
}.

Definition push (st : TranslationState) (item : NewsItem) : TranslationState :=
  {| results := results st ++ [item];
     translatedCount := translatedCount st;
     consecutiveFailures := consecutiveFailures st;
     aborted := aborted st |}.

Definition failed (st : TranslationState) : TranslationState :=
  {| results := results st;
     translatedCount := translatedCount st;
     consecutiveFailures := S (consecutiveFailures st);
     aborted := aborted st |}.

(** [results.push(x); translatedCount++; consecutiveFailures = 0] *)
Definition translated (st : TranslationState) (x : NewsItem) : TranslationState :=
  {| results := results st ++ [x];
     translatedCount := S (translatedCount st);
     consecutiveFailures := 0;
     aborted := aborted st |}.

Definition abort (st : TranslationState) : TranslationState :=
  {| results := results st;
     translatedCount := translatedCount st;
     consecutiveFailures := consecutiveFailures st;
     aborted := true |}.

(** ["{original}（{translated}）"], with the two full-width brackets *)
Definition annotate (original translation : jsstring) : jsstring :=
  original ++ js "（" ++ translation ++ js "）".

(** [{ ...item, title }] *)
Definition withTitle (item : NewsItem) (t : jsstring) : NewsItem :=
  {| title := t; link := link item; source := source item;
     pubDate := pubDate item; extra := extra item |}.

(** [{ ...item, extra: { ...item.extra, description } }] *)
Definition withDescription (item : NewsItem) (d : jsstring) : NewsItem :=
  {| title := title item; link := link item; source := source item;
     pubDate := pubDate item;
     extra := Some {| stars := extra item ≫= stars;
                      todayStars := extra item ≫= todayStars;
                      description := Some d;
                      language := extra item ≫= language |} |}.

Definition throttle (st : TranslationState) : IO unit :=
  if (0 <? translatedCount st)%nat then sleep THROTTLE_MS else mret ().

(** The body of the [try] block for one item: the state it leaves and
    whether it ended in [continue].  Nothing that can throw comes
    after an assignment, so the [catch] block starts from the state
    the iteration began with. *)
Definition tryBlock (isGithub : bool) (st : TranslationState) (item : NewsItem)
  : IO (TranslationState * bool) :=
  if isGithub then
    let desc := extra item ≫= description in
    if isTruthy desc && needsTranslation (default [] desc) then
      throttle st;;
      translation ← translateText (default [] desc);
      if isTruthy translation
         && negb (bool_decide (translation = Some (default [] desc))) then
        mret (translated st
                (withDescription item
                   (annotate (default [] desc) (default [] translation))),
              true)
      else if bool_decide (translation = None) then
        mret (push (failed st) item, false)
      else mret (push st item, false)
    else mret (push st item, false)
  else
    if needsTranslation (title item) then
      throttle st;;
      translation ← translateText (title item);
      if isTruthy translation
         && negb (bool_decide (translation = Some (title item))) then
        mret (translated st
                (withTitle item (annotate (title item) (default [] translation))),
              true)
      else if bool_decide (translation = None) then
        mret (push (failed st) item, false)
      else mret (push st item, false)
    else mret (push st item, false).

(** One iteration of [for (const item of items)]. *)
Definition loopBody (isGithub : bool) (st : TranslationState) (item : NewsItem)
  : IO TranslationState :=
  if aborted st then mret (push st item)
  else
    '(st', continued) ← tryCatch (tryBlock isGithub st item)
                          (fun _ => mret (push (failed st) item, false));
    if continued : bool then mret st'
    else if (MAX_CONSECUTIVE_FAILURES <=? consecutiveFailures st')%nat then
      consoleWarn (TranslationAborted (consecutiveFailures st'));;
      mret (abort st')
    else mret st'.

Definition initialState : TranslationState :=
  {| results := []; translatedCount := 0; consecutiveFailures := 0;
     aborted := false |}.

Definition translateLoop (isGithub : bool) (st : TranslationState)
                         (l : list NewsItem) : IO TranslationState :=
  forEach (loopBody isGithub) st l.

Definition translateTitles (l : list NewsItem) (isGithub : bool)
  : IO (list NewsItem) :=
  st ← translateLoop isGithub initialState l;
  (if (0 <? translatedCount st)%nat
   then consoleLog (TranslatedCount (translatedCount st)) else mret ());;
  mret (results st).

End Translator.

End Translator.
Export Translator.

(** ** dispatcher.ts: [TitleDeduplicator] and [applyKeywordFilter] *)

Module Deduplicator.

Section Deduplicator.
Context `{Engine}.

(** An element of the private field [seen]. *)
Record SeenEntry := {
  chars : gset jsstring;
  seenLink : jsstring
}.

Definition flushRun (run : jsstring) : list jsstring :=
  if (3 <=? length run)%nat then [run] else [].

(** [s.match(/[a-z]{3,}/g)]: the maximal runs of at least three
    letters, from left to right; [run] is the run being read. *)
Fixpoint matchWords (s run : jsstring) : list jsstring :=
  match s with
  | [] => flushRun run
  | c :: s' =>
      if isLowerAscii c then matchWords s' (run ++ [c])
      else flushRun run ++ matchWords s' []
  end.

Definition add (t : jsstring) (tokens : gset jsstring) : gset jsstring :=
  {[ t ]} ∪ tokens.

Definition extractTokens (title : jsstring) : gset jsstring :=
  let cjk := List.filter dedupIsCjk title in
  let tokens := foldl (fun tokens c => add [c] tokens) ∅ cjk in
  let words := matchWords (toLowerCase title) [] in
  foldl (fun tokens w => add w tokens) tokens words.

(** The counter [intersection] after the loop over [a]. *)
Definition intersectionCount (a b : gset jsstring) : nat :=
  length (List.filter (fun t => bool_decide (t ∈ b)) (elements a)).

Definition jaccard (a b : gset jsstring) : Q :=
  if (size a =? 0)%nat || (size b =? 0)%nat then 0%Q
  else
    let intersection := Z.of_nat (intersectionCount a b) in
    (inject_Z intersection
     / inject_Z (Z.of_nat (size a) + Z.of_nat (size b) - intersection))%Q.

Definition entryOf (item : NewsItem) : SeenEntry :=
  {| chars := extractTokens (title item); seenLink := link item |}.

(** One iteration of the loop of [filter], on the pair of the local
    [result] and the field [seen]. *)
Definition filterStep (threshold : Q)
    (st : list NewsItem * list SeenEntry) (item : NewsItem)
  : list NewsItem * list SeenEntry :=
  let '(result, seen) := st in
  if existsb (fun s => bool_decide (seenLink s = link item)) seen then st
  else
    let tokens := extractTokens (title item) in
    let isDup :=
      existsb (fun s => Qle_bool threshold (jaccard (chars s) tokens)) seen in
    if isDup then st
    else (result ++ [item], seen ++ [{| chars := tokens; seenLink := link item |}]).

(** [filter(items, threshold)] on a deduplicator whose field is
    [seen]: the list returned and the field afterwards. *)
Definition filter (seen : list SeenEntry) (l : list NewsItem) (threshold : Q)
  : list NewsItem * list SeenEntry :=
  foldl (filterStep threshold) ([], seen) l.

Definition defaultThreshold : Q := 1 # 2.

End Deduplicator.

Definition applyKeywordFilter (l : list NewsItem) (f : LocalFilter) : list NewsItem :=
  if (length (blockedKeywords f) =? 0)%nat then l
  else
    List.filter
      (fun item =>
         let text := title item ++ space ++ default [] (extra item ≫= description) in
         negb (existsb (fun kw => includes text kw) (blockedKeywords f)))
      l.

End Deduplicator.

(** ** formatter.ts

    [formatNewsMessages] is the revision with the parameters
    [maxSourcesPerMsg] and [maxChars]. *)

Module Formatter.

Section Formatter.
Context `{Engine} `{World}.

Definition formatTime : IO jsstring :=
  parts ← ask FormatToParts clockParts;
  let get := fun type : jsstring =>
    default [] (snd <$> List.find (fun p => bool_decide (fst p = type)) parts) in
  mret (get (js "year") ++ js "-" ++ get (js "month") ++ js "-" ++ get (js "day")
        ++ space ++ get (js "hour") ++ js ":" ++ get (js "minute")).

Definition itemLine (index : nat) (item : NewsItem) : jsstring :=
  decimal (N.of_nat (index + 1)) ++ js ". [" ++ title item ++ js "]("
  ++ link item ++ js ")".

Definition formatSourceSection (group : SourceGroup) : jsstring :=
  join nl ([js "### " ++ groupName group; []] ++ imap itemLine (items group)).

(** The local variables of the loop of [formatNewsMessages]. *)
Record SplitState := {
  messages : list jsstring;
  batchIndex : nat;
  currentSections : list jsstring;
  currentLength : Z
}.

Definition header (categoryName : jsstring) (batchIndex : nat) : jsstring :=
  if (batchIndex =? 0)%nat then js "## " ++ categoryName
  else js "## " ++ categoryName ++ js "（续）".

Definition message (categoryName footer : jsstring) (st : SplitState) : jsstring :=
  header categoryName (batchIndex st) ++ nl
  ++ join (nl ++ nl) (currentSections st) ++ footer.

Definition wouldExceedChars (maxChars : Z) (footer : jsstring)
                            (st : SplitState) (section : jsstring) : bool :=
  (0 <? length (currentSections st))%nat
  && (maxChars - Z.of_nat (length footer) - 30
      <? currentLength st + Z.of_nat (length section) + 2)%Z.

Definition wouldExceedCount (maxSourcesPerMsg : Z) (st : SplitState) : bool :=
  (maxSourcesPerMsg <=? Z.of_nat (length (currentSections st)))%Z.

Definition splits (maxSourcesPerMsg maxChars : Z) (footer : jsstring)
                  (st : SplitState) (section : jsstring) : bool :=
  (0 <? length (currentSections st))%nat
  && (wouldExceedChars maxChars footer st section
      || wouldExceedCount maxSourcesPerMsg st).

(** [messages.push(...); batchIndex++; currentSections = []; currentLength = 0] *)
Definition flush (categoryName footer : jsstring) (st : SplitState) : SplitState :=
  {| messages := messages st ++ [message categoryName footer st];
     batchIndex := S (batchIndex st);
     currentSections := [];
     currentLength := 0 |}.

Definition splitStep (categoryName footer : jsstring) (maxSourcesPerMsg maxChars : Z)
                     (st : SplitState) (group : SourceGroup) : SplitState :=
  let section := formatSourceSection group in
  let st' :=
    if splits maxSourcesPerMsg maxChars footer st section
    then flush categoryName footer st else st in
  {| messages := messages st';
     batchIndex := batchIndex st';
     currentSections := currentSections st' ++ [section];
     currentLength := (currentLength st' + Z.of_nat (length section) + 2)%Z |}.

Definition emptySplit : SplitState :=
  {| messages := []; batchIndex := 0; currentSections := []; currentLength := 0 |}.

Definition finish (categoryName footer : jsstring) (st : SplitState) : list jsstring :=
  if (0 <? length (currentSections st))%nat
  then messages st ++ [message categoryName footer st]
  else messages st.

Definition splitMessages (categoryName footer : jsstring) (maxSourcesPerMsg maxChars : Z)
                         (nonEmpty : list SourceGroup) : list jsstring :=
  finish categoryName footer
    (foldl (splitStep categoryName footer maxSourcesPerMsg maxChars) emptySplit nonEmpty).

Definition noData (categoryName : jsstring) : jsstring :=
  js "## " ++ categoryName ++ nl ++ nl ++ js "暂无新闻数据。".

Definition footerOf (time : jsstring) : jsstring :=
  nl ++ nl ++ js "> 更新时间：" ++ time.

Definition nonEmptyGroups (groups : list SourceGroup) : list SourceGroup :=
  List.filter (fun g => (0 <? length (items g))%nat) groups.

Definition formatNewsMessages (categoryName : jsstring) (groups : list SourceGroup)
                              (maxSourcesPerMsg maxChars : Z) : IO (list jsstring) :=
  let nonEmpty := nonEmptyGroups groups in
  if (length nonEmpty =? 0)%nat then mret [noData categoryName]
  else
    time ← formatTime;
    mret (splitMessages categoryName (footerOf time) maxSourcesPerMsg maxChars nonEmpty).

Definition defaultMaxSourcesPerMsg : Z := 3.
Definition defaultMaxChars : Z := 4500.

(** sources/github-trending.ts *)
Definition formatStars (n : Z) : jsstring :=
  if (1000 <=? n)%Z then thousandsToFixed1 n ++ js "k" else decimalZ n.

(** A number used as a condition. *)
Definition nonZero (n : option Z) : bool :=
  match n with
  | Some z => negb (z =? 0)%Z
  | None => false
  end.

Definition githubLine (index : nat) (item : NewsItem) : jsstring :=
  let d := extra item ≫= description in
  let parts := if isTruthy d then [default [] d] else [] in
  let lang := extra item ≫= language in
  let meta :=
    (if isTruthy lang then [default [] lang] else [])
    ++ (if nonZero (extra item ≫= stars)
        then [formatStars (default 0%Z (extra item ≫= stars)) ++ js " stars"] else [])
    ++ (if nonZero (extra item ≫= todayStars)
        then [js "+" ++ decimalZ (default 0%Z (extra item ≫= todayStars)) ++ js " today"]
        else []) in
  let desc := if (0 <? length parts)%nat then js " - " ++ join space parts else [] in
  let metaStr :=
    if (0 <? length meta)%nat
    then [0x20; 0x28; 0x2A] ++ join (js ", ") meta ++ [0x2A; 0x29] else [] in
  itemLine index item ++ desc ++ metaStr.

Definition formatGithubMarkdown (categoryName : jsstring) (l : list NewsItem)
  : IO jsstring :=
  if (length l =? 0)%nat
  then mret (js "## " ++ categoryName ++ nl ++ nl ++ js "暂无 Trending 数据。")
  else
    time ← formatTime;
    mret (join nl ([js "## " ++ categoryName; []] ++ imap githubLine l
                   ++ [[]; js "> 来源：GitHub Trending"; js "> 更新时间：" ++ time])).

End Formatter.

End Formatter.
Export Formatter.

(** ** sources/rss-source.ts *)

Module RssSource.

Section RssSource.
Context `{Engine} `{World}.

(** The object built from one entry of the feed. *)
Definition toNewsItem (sourceName : jsstring) (item : FeedItem) : NewsItem :=
  {| title := trim (default [] (feedTitle item));
     link := default [] (feedLink item);
     source := sourceName;
     pubDate := if isTruthy (feedPubDate item)
                then Some (dateParse (default [] (feedPubDate item)))
                else None;
     extra := None |}.

Definition hasTitleAndLink (item : NewsItem) : bool :=
  isTruthy (Some (title item)) && isTruthy (Some (link item)).

Definition fetchSingleFeed (name url : jsstring) : IO (list NewsItem) :=
  tryCatch
    (feed ← ask (ParseURL url) (fun h => rssFeed h url);
     match feed with
     | None => throw NetworkError
     | Some feedItems =>
         mret (List.filter hasTitleAndLink
                 (map (toNewsItem name) (default [] feedItems)))
     end)
    (fun _ => consoleWarn (RssFetchFailed name url);; mret []).

(** [items.filter(...)] with the set [seen] of the links met. *)
Fixpoint uniqueByLink (seen : gset jsstring) (l : list NewsItem) : list NewsItem :=
  match l with
  | [] => []
  | item :: rest =>
      if bool_decide (link item ∈ seen) then uniqueByLink seen rest
      else item :: uniqueByLink ({[ link item ]} ∪ seen) rest
  end.

(** [a.pubDate?.getTime() ?? 0] *)
Definition timeOf (item : NewsItem) : timeValue :=
  match pubDate item with
  | Some t => t
  | None => Time 0
  end.

(** Subtraction of two time values. *)
Definition minus (x y : timeValue) : timeValue :=
  match x, y with
  | Time a, Time b => Time (a - b)
  | _, _ => NaN
  end.

(** The comparator given to [sort]. *)
Definition byTimeDescending (a b : NewsItem) : timeValue :=
  minus (timeOf b) (timeOf a).

(** [Array.prototype.sort]: a stable sort that reads a comparator
    result of [NaN] as [+0].  A new element, which came before the
    ones already placed, stays in front of the first one it does not
    compare greater than.  Every stable sort returns this list when
    the comparator is a consistent order; when it is not (a [NaN] time
    value) ECMAScript leaves the order to the engine. *)
Definition sortCompare (comparator : NewsItem -> NewsItem -> timeValue)
                       (x y : NewsItem) : Z :=
  match comparator x y with
  | NaN => 0
  | Time v => v
  end.

Fixpoint insertSorted (comparator : NewsItem -> NewsItem -> timeValue)
                      (x : NewsItem) (l : list NewsItem) : list NewsItem :=
  match l with
  | [] => [x]
  | y :: l' =>
      if (sortCompare comparator x y <=? 0)%Z then x :: l
      else y :: insertSorted comparator x l'
  end.

Definition sort (comparator : NewsItem -> NewsItem -> timeValue)
                (l : list NewsItem) : list NewsItem :=
  foldr (insertSorted comparator) [] l.

Definition fetchSingleRssSource (name url : jsstring) (n : nat)
  : IO (list NewsItem) :=
  l ← fetchSingleFeed name url;
  let unique := uniqueByLink ∅ l in
  mret (take n (sort byTimeDescending unique)).

End RssSource.

End RssSource.
Export RssSource.

(** ** dispatcher.ts

    [loadLocalFilter] belongs to config/loader.ts, which is not embedded:
    [dispatch] takes the filter it returned as an argument. *)

Module Dispatcher.

Section Dispatcher.
Context `{Engine} `{World}.

Definition createWebhookAdapter (name : jsstring) (config : WebhookConfig)
  : IO WebhookAdapter :=
  if bool_decide (webhookType config = js "wps-teams")
  then mret (WpsTeamsWebhook name (webhookUrl config))
  else if bool_decide (webhookType config = js "wecom")
  then mret (WecomWebhook name (webhookUrl config))
  else throw (UnsupportedWebhookType (webhookType config)).

(** [adapter.sendMarkdown(text)], seen from its caller: the promise
    resolves, or rejects after the adapter has printed the error. *)
Definition sendMarkdown (adapter : WebhookAdapter) (text : jsstring) : IO unit :=
  ok ← ask (SendMarkdown adapter text) (fun h => webhookAccepts h adapter text);
  if ok : bool then mret () else throw SendFailed.

Definition isGithubSource (s : SourceConfig) : bool :=
  match s with
  | GithubTrendingSourceConfig _ _ _ => true
  | _ => false
  end.

Definition isGithubCategory (category : CategoryConfig) : bool :=
  existsb isGithubSource (sources category).

(** The fetchers of the hot boards wrap their whole body in
    [try]/[catch] and return [[]] on failure: they are modelled by the
    list they return. *)
Definition fetchHot (board : hotBoard) (n : nat) : IO (list NewsItem) :=
  ask (FetchHot board n) (fun h => hotItems h board n).

(** [buildTrendingUrl(config)], which [fetchGithubTrending] calls
    before its [try]: a language that is set goes through
    [encodeURIComponent], which throws on a lone surrogate; the period
    goes through [URLSearchParams], which does not throw.  The URL
    itself is not modelled: the request is told by the language, the
    period and the count. *)
Definition buildTrendingUrl (lang : option jsstring) : IO unit :=
  if isTruthy lang && negb (isWellFormed (default [] lang))
  then throw URIError else mret ().

(** The rest of [fetchGithubTrending] is inside [try]/[catch] and
    returns [[]] on failure: it is modelled by the list it returns. *)
Definition fetchGithubTrending (ghConfig : option SourceConfig) (n : nat)
  : IO (list NewsItem) :=
  match ghConfig with
  | Some (GithubTrendingSourceConfig _ lang since) =>
      buildTrendingUrl lang;;
      ask (FetchGithubTrending lang since n) (fun h => trendingItems h lang since n)
  | _ => ask (FetchGithubTrending None None n) (fun h => trendingItems h None None n)
  end.

(** The webhook adapters, by name: the [Map] filled at the start. *)
Definition createAdapters (entries : list (jsstring * WebhookConfig))
  : IO (gmap jsstring WebhookAdapter) :=
  forEach
    (fun (webhookAdapters : gmap jsstring WebhookAdapter) entry =>
       adapter ← createWebhookAdapter (fst entry) (snd entry);
       mret (<[fst entry := adapter]> webhookAdapters))
    ∅ entries.

(** The body of [for (const msg of messages)]. *)
Definition sendOne (adapter : WebhookAdapter) (_ : unit) (msg : jsstring) : IO unit :=
  tryCatch (sendMarkdown adapter msg) (fun _ => mret ());;
  sleep 1000.

(** The body of [for (const webhookId of category.webhooks)]. *)
Definition sendToWebhook (webhookAdapters : gmap jsstring WebhookAdapter)
                         (msgs : list jsstring) (_ : unit) (webhookId : jsstring)
  : IO unit :=
  match webhookAdapters !! webhookId with
  | None => consoleWarn (WebhookNotFound webhookId)
  | Some adapter => forEach (sendOne adapter) () msgs
  end.

Definition shouldTranslate (config : AppConfig) : bool :=
  negb (bool_decide ((settings config ≫= translate) = Some false)).

(** The branch of a GitHub Trending category: the messages, or [None]
    where the source says [continue]. *)
Definition githubMessages (config : AppConfig) (localFilter : LocalFilter)
                          (category : CategoryConfig) : IO (option (list jsstring)) :=
  let ghConfig := List.find isGithubSource (sources category) in
  fetched ← fetchGithubTrending ghConfig (count category);
  let l := Deduplicator.applyKeywordFilter fetched localFilter in
  if (length l =? 0)%nat then
    consoleWarn (NothingFetched (categoryName category));; mret None
  else
    consoleLog (Fetched (length l));;
    translatedItems ← (if shouldTranslate config then translateTitles l true else mret l);
    msg ← formatGithubMarkdown (categoryName category) translatedItems;
    mret (Some [msg]).

(** The first part of the body of [for (const source of
    category.sources)]: the name and the items of the source. *)
Definition fetchSource (category : CategoryConfig) (s : SourceConfig)
  : IO (jsstring * list NewsItem) :=
  match s with
  | RssSourceConfig name url =>
      l ← fetchSingleRssSource name url (count category); mret (name, l)
  | BaiduHotSourceConfig name =>
      l ← fetchHot BaiduHot (count category); mret (default (js "百度热搜") name, l)
  | ToutiaoHotSourceConfig name =>
      l ← fetchHot ToutiaoHot (count category); mret (default (js "今日头条") name, l)
  | BilibiliHotSourceConfig name =>
      l ← fetchHot BilibiliHot (count category); mret (default (js "B站热搜") name, l)
  | GithubTrendingSourceConfig _ _ _ => mret ([], [])
  end.

Definition isRss (s : SourceConfig) : bool :=
  match s with
  | RssSourceConfig _ _ => true
  | _ => false
  end.

(** One iteration over the sources, on the local [groups] and the
    field [seen] of the category's deduplicator. *)
Definition sourceStep (config : AppConfig) (localFilter : LocalFilter)
    (category : CategoryConfig)
    (st : list SourceGroup * list Deduplicator.SeenEntry) (s : SourceConfig)
  : IO (list SourceGroup * list Deduplicator.SeenEntry) :=
  '(sourceName, fetched) ← fetchSource category s;
  if (length (fetched : list NewsItem) =? 0)%nat then mret st
  else
    let l := Deduplicator.applyKeywordFilter fetched localFilter in
    if (length l =? 0)%nat then mret st
    else
      let '(unique, seen') :=
        Deduplicator.filter (snd st) l Deduplicator.defaultThreshold in
      consoleLog (SourceFetched sourceName (length l) (length l - length unique));;
      if (length unique =? 0)%nat then mret (fst st, seen')
      else
        translatedItems ←
          (if shouldTranslate config && isRss s
           then translateTitles unique false else mret unique);
        mret (fst st ++ [{| groupName := sourceName; items := translatedItems |}],
              seen').

Definition newsMessages (config : AppConfig) (localFilter : LocalFilter)
                        (category : CategoryConfig) : IO (option (list jsstring)) :=
  '(groups, _) ← forEach (sourceStep config localFilter category) ([], [])
                   (sources category);
  if (length (groups : list SourceGroup) =? 0)%nat then
    consoleWarn (NothingFetched (categoryName category));; mret None
  else
    msgs ← formatNewsMessages (categoryName category) groups
             defaultMaxSourcesPerMsg defaultMaxChars;
    mret (Some msgs).

(** The body of [for (const categoryId of categoryIds)]. *)
Definition categoryStep (config : AppConfig) (localFilter : LocalFilter)
    (webhookAdapters : gmap jsstring WebhookAdapter)
    (_ : unit) (categoryId : jsstring) : IO unit :=
  match categories config !! categoryId with
  | None =>
      match inheritedName categoryId with
      | None => consoleWarn (UnknownCategory categoryId)
      | Some name =>
          (* [config.categories[categoryId]] is a value every object
             inherits: it has a [name] but no [sources], and
             [category.sources.some] throws *)
          consoleLog (Fetching name);; throw TypeError
      end
  | Some category =>
      consoleLog (Fetching (categoryName category));;
      produced ← (if isGithubCategory category
                  then githubMessages config localFilter category
                  else newsMessages config localFilter category);
      match produced with
      | None => mret ()
      | Some msgs =>
          (if (1 <? length msgs)%nat
           then consoleLog (SplitInto (length msgs)) else mret ());;
          forEach (sendToWebhook webhookAdapters msgs) () (categoryWebhooks category)
      end
  end.

(** [dispatch(config, categoryIds)]; [localFilter] is what
    [loadLocalFilter()] returned. *)
Definition dispatch (config : AppConfig) (categoryIds : list jsstring)
                    (localFilter : LocalFilter) : IO unit :=
  webhookAdapters ← createAdapters (webhooks config);
  forEach (categoryStep config localFilter webhookAdapters) () categoryIds;;
  consoleLog AllDone.

End Dispatcher.

End Dispatcher.
Export Dispatcher.


(** * The webhook adapters and the configuration loader

    The embedding of webhooks/wps-teams.ts, webhooks/wecom.ts and
    config/loader.ts.  Of [sendMarkdown] the computation of the content
    posted is embedded: the request itself is the event [SendMarkdown]
    of the dispatcher. *)

(** ** webhooks/wps-teams.ts and webhooks/wecom.ts

    What [sendMarkdown] does to the text before the request: the value
    of the local [content] when the body is built. *)

Module Webhooks.

(** [s.slice(0, n)] *)
Definition sliceTo (n : Z) (s : jsstring) : jsstring :=
  take (Z.to_nat (if (n <? 0)%Z then Z.of_nat (length s) + n else n)) s.

(** [s.split(sep)] for a separator of one character *)
Fixpoint split (sep : N) (s : jsstring) : list jsstring :=
  match s with
  | [] => [[]]
  | c :: s' =>
      if bool_decide (c = sep) then [] :: split sep s'
      else
        match split sep s' with
        | line :: rest => (c :: line) :: rest
        | [] => [[c]]
        end
  end.

(** WPS Teams: the limit is in characters. *)
Definition MAX_CONTENT_LENGTH : Z := 5000.

Definition wpsTruncated : jsstring := nl ++ nl ++ js "> ⚠ 内容过长，已截断".

Definition wpsContent (text : jsstring) : jsstring :=
  if (MAX_CONTENT_LENGTH <? Z.of_nat (length text))%Z
  then sliceTo (MAX_CONTENT_LENGTH - 30) text ++ wpsTruncated
  else text.

(** WeCom: the limit is in bytes of the UTF-8 encoding. *)
Definition MAX_CONTENT_BYTES : Z := 4096.

(** An opening [font] tag; the attribute is in double quotes. *)
Definition font (color : string) : jsstring :=
  js "<font color=" ++ [0x22] ++ js color ++ [0x22] ++ js ">".

(** The function given to [map] in [convertToWecomMarkdown]. *)
Definition convertLine (line : jsstring) : jsstring :=
  if startsWith line (js "## ") then js "**" ++ trim (drop 3 line) ++ js "**"
  else if startsWith line (js "### ") then js "**" ++ trim (drop 4 line) ++ js "**"
  else if startsWith line (js "> ") then font "comment" ++ drop 2 line ++ js "</font>"
  else line.

Definition convertToWecomMarkdown (text : jsstring) : jsstring :=
  join nl (convertLine <$> split 0x0A text).

(** The number of bytes of a code point in UTF-8.  [TextEncoder]
    writes a lone surrogate as U+FFFD, which takes three bytes as every
    code point from U+0800 to U+FFFF does. *)
Definition utf8Size (cp : N) : nat :=
  if cp <? 0x80 then 1 else if cp <? 0x800 then 2 else if cp <? 0x10000 then 3 else 4.

(** [encoder.encode(s).length] *)
Definition encodedLength (s : jsstring) : nat := sum_list (utf8Size <$> codePoints s).

(** [while (encoder.encode(content).length > MAX_CONTENT_BYTES - 60)
    content = content.slice(0, -10)].  Every round removes a character
    of a string that is not empty, so [length content] rounds are enough
    ([shorten_unfold] below is the equation of the loop). *)
Fixpoint shortenLoop (rounds : nat) (content : jsstring) : jsstring :=
  match rounds with
  | O => content
  | S rounds' =>
      if (MAX_CONTENT_BYTES - 60 <? Z.of_nat (encodedLength content))%Z
      then shortenLoop rounds' (sliceTo (-10) content)
      else content
  end.

Definition shorten (content : jsstring) : jsstring :=
  shortenLoop (length content) content.

Definition wecomTruncated : jsstring :=
  nl ++ nl ++ font "warning" ++ js "内容过长，已截断</font>".

Definition wecomContent (text : jsstring) : jsstring :=
  let content := convertToWecomMarkdown text in
  if (MAX_CONTENT_BYTES <? Z.of_nat (encodedLength content))%Z
  then shorten content ++ wecomTruncated
  else content.

End Webhooks.
Export Webhooks.

(** ** config/loader.ts: [validateConfig] and [resolveEnvVars]

    Both are pure but for the error they may throw: each returns the
    error, or the result. *)

Module Loader.

Inductive configError :=
| NoWebhooks
| NoCategories
| UnknownWebhook (categoryId webhookId : jsstring)
| NoSources (categoryId : jsstring)
| BadCount (categoryId : jsstring)
| UndefinedVariable (varName : jsstring).

Section Loader.

(** Whether [Object.prototype] has a property of this name
    ([constructor], [toString], ...).  The objects js-yaml builds
    inherit them, so that [config.webhooks[name]] is then a function and
    not [undefined], whatever the file configures. *)
Variable inherited : jsstring → bool.

(** [process.env[name]] *)
Variable env : jsstring → option jsstring.

(** [config.webhooks[webhookId]] as a condition *)
Definition hasWebhook (config : AppConfig) (webhookId : jsstring) : bool :=
  existsb (fun entry => bool_decide (fst entry = webhookId)) (webhooks config)
  || inherited webhookId.

(** The body of the loop of [validateConfig], for one entry of
    [config.categories]. *)
Definition checkCategory (config : AppConfig) (entry : jsstring * CategoryConfig)
  : option configError :=
  match List.find (fun webhookId => negb (hasWebhook config webhookId))
          (categoryWebhooks (snd entry)) with
  | Some webhookId => Some (UnknownWebhook (fst entry) webhookId)
  | None =>
      if (length (sources (snd entry)) =? 0)%nat then Some (NoSources (fst entry))
      else if (count (snd entry) <? 1)%nat then Some (BadCount (fst entry))
      else None
  end.

Fixpoint checkCategories (config : AppConfig) (entries : list (jsstring * CategoryConfig))
  : option configError :=
  match entries with
  | [] => None
  | entry :: rest =>
      match checkCategory config entry with
      | Some e => Some e
      | None => checkCategories config rest
      end
  end.

(** [validateConfig(config)]: the error thrown, if any.  [entries] is
    [Object.entries(config.categories)], the categories in the order of
    the file. *)
Definition validateConfig (config : AppConfig) (entries : list (jsstring * CategoryConfig))
  : option configError :=
  if (length (webhooks config) =? 0)%nat then Some NoWebhooks
  else if (length entries =? 0)%nat then Some NoCategories
  else checkCategories config entries.

(** The match of [\$\{([^}]+)\}] at the start of [s], if there is
    one: the text captured and the length of the match.  [untilBrace]
    is the longest run without a closing brace, so that what is left
    is empty or starts with one. *)
Fixpoint untilBrace (s : jsstring) : jsstring :=
  match s with
  | [] => []
  | c :: s' => if bool_decide (c = 0x7D) then [] else c :: untilBrace s'
  end.

Definition placeholderAt (s : jsstring) : option (jsstring * nat) :=
  if startsWith s (js "${") then
    let captured := untilBrace (drop 2 s) in
    match captured, drop (length captured) (drop 2 s) with
    | _ :: _, _ :: _ => Some (captured, length captured + 3)%nat
    | _, _ => None
    end
  else None.

(** [line.replace(/\$\{([^}]+)\}/g, ...)]: the matches are taken from
    left to right and do not overlap; [skip] counts the characters of the
    current match still to pass. *)
Fixpoint replaceFrom (skip : nat) (s : jsstring) : configError + jsstring :=
  match s with
  | [] => inr []
  | c :: s' =>
      match skip with
      | S skip' => replaceFrom skip' s'
      | O =>
          match placeholderAt s with
          | Some (varName, matched) =>
              match env (trim varName) with
              | None => inl (UndefinedVariable varName)
              | Some value =>
                  match replaceFrom (matched - 1) s' with
                  | inl e => inl e
                  | inr rest => inr (value ++ rest)
                  end
              end
          | None =>
              match replaceFrom 0 s' with
              | inl e => inl e
              | inr rest => inr (c :: rest)
              end
          end
      end
  end.

(** The function given to [map]. *)
Definition resolveLine (line : jsstring) : configError + jsstring :=
  if startsWith (trimStart line) (js "#") then inr line else replaceFrom 0 line.

Fixpoint resolveLines (lines : list jsstring) : configError + list jsstring :=
  match lines with
  | [] => inr []
  | line :: rest =>
      match resolveLine line with
      | inl e => inl e
      | inr resolved =>
          match resolveLines rest with
          | inl e => inl e
          | inr others => inr (resolved :: others)
          end
      end
  end.

Definition resolveEnvVars (text : jsstring) : configError + jsstring :=
  match resolveLines (split 0x0A text) with
  | inl e => inl e
  | inr lines => inr (join nl lines)
  end.

End Loader.

End Loader.
Export Loader.

(** * Vocabulary of the properties *)

(** ** Concrete engines and worlds, used to run the definitions *)

Module Instances.

Definition asciiLower (s : jsstring) : jsstring :=
  map (fun c => if inRange 0x41 0x5A c then c + 32 else c) s.

(** The time values of the date strings used below, as [Date.parse]
    gives them; any other string is taken as unparsable. *)
Definition parseKnownDate (s : jsstring) : timeValue :=
  if bool_decide (s = js "1969-12-31T23:59:59Z") then Time (-1000)
  else if bool_decide (s = js "2024-01-01T00:00:00Z") then Time 1704067200000
  else if bool_decide (s = js "2024-01-02T00:00:00Z") then Time 1704153600000
  else NaN.

(** The properties of [Object.prototype] and the [name] of the value
    of each: the functions carry their name, the constructor is
    [Object], and [__proto__] gives the prototype itself, which has no
    [name]. *)
Definition prototypeNames : list (jsstring * jsstring) :=
  [(js "constructor", js "Object");
   (js "hasOwnProperty", js "hasOwnProperty");
   (js "isPrototypeOf", js "isPrototypeOf");
   (js "propertyIsEnumerable", js "propertyIsEnumerable");
   (js "toLocaleString", js "toLocaleString");
   (js "toString", js "toString");
   (js "valueOf", js "valueOf");
   (js "__defineGetter__", js "__defineGetter__");
   (js "__defineSetter__", js "__defineSetter__");
   (js "__lookupGetter__", js "__lookupGetter__");
   (js "__lookupSetter__", js "__lookupSetter__");
   (js "__proto__", js "undefined")].

Definition prototypeName (name : jsstring) : option jsstring :=
  snd <$> List.find (fun p => bool_decide (fst p = name)) prototypeNames.

(** An engine that is exact on ASCII text: the letters A to Z are
    lowered and no character beyond ASCII is punctuation. *)
Definition asciiEngine : Engine :=
  {| toLowerCase := asciiLower;
     unicodePunctOrSymbol := fun _ => false;
     dateParse := parseKnownDate;
     thousandsToFixed1 := fun n => decimalZ (n / 1000);
     inheritedName := prototypeName |}.

(** The parts of 2 November 2026, 09:05, as [formatToParts] gives
    them for the locale zh-CN. *)
Definition sampleClock : list (jsstring * jsstring) :=
  [(js "year", js "2026"); (js "literal", js "/");
   (js "month", js "11"); (js "literal", js "/");
   (js "day", js "02"); (js "literal", space);
   (js "hour", js "09"); (js "literal", js ":");
   (js "minute", js "05")].

(** A world in which every request fails and no source has items. *)
Definition offline : World :=
  {| primaryApi := fun _ _ => Rejected;
     fallbackApi := fun _ _ => Rejected;
     rssFeed := fun _ _ => None;
     clockParts := fun _ => sampleClock;
     webhookAccepts := fun _ _ _ => false;
     hotItems := fun _ _ _ => [];
     trendingItems := fun _ _ _ _ => [] |}.

Definition news (t l : string) : NewsItem :=
  {| title := js t; link := js l; source := js "feed";
     pubDate := None; extra := None |}.

Definition group (name t l : string) : SourceGroup :=
  {| groupName := js name; items := [news t l] |}.

(** A group with one item whose title is [n] letters a. *)
Definition wideGroup (name : string) (n : nat) : SourceGroup :=
  {| groupName := js name;
     items := [{| title := replicate n 0x61; link := js "l"; source := js "feed";
                  pubDate := None; extra := None |}] |}.

(** A world whose parser returns the feed [l] for every URL. *)
Definition withFeed (l : list FeedItem) : World :=
  {| primaryApi := fun _ _ => Rejected;
     fallbackApi := fun _ _ => Rejected;
     rssFeed := fun _ _ => Some (Some l);
     clockParts := fun _ => sampleClock;
     webhookAccepts := fun _ _ _ => true;
     hotItems := fun _ _ _ => [];
     trendingItems := fun _ _ _ _ => [] |}.

Definition entry (t l : string) (date : option string) : FeedItem :=
  {| feedTitle := Some (js t); feedLink := Some (js l); feedPubDate := js <$> date |}.

(** A feed with a repeated link and an item without a date. *)
Definition sampleFeed : list FeedItem :=
  [entry "first" "https://a" (Some "2024-01-01T00:00:00Z");
   entry "again" "https://a" (Some "2024-01-02T00:00:00Z");
   entry "undated" "https://b" None;
   entry "second" "https://c" (Some "2024-01-02T00:00:00Z")].

Definition dated (t l : string) (date : option timeValue) : NewsItem :=
  {| title := js t; link := js l; source := js "feed"; pubDate := date; extra := None |}.

Definition techCategory : CategoryConfig :=
  {| categoryName := js "Tech"; count := 5;
     categoryWebhooks := [js "ops"; js "missing"];
     sources := [RssSourceConfig (js "feed") (js "https://feed")] |}.

(** One webhook of a supported type, one category. *)
Definition sampleConfig : AppConfig :=
  {| webhooks := [(js "ops", {| webhookType := js "wps-teams";
                                webhookUrl := js "https://hook" |})];
     categories := {[ js "tech" := techCategory ]};
     settings := Some {| translate := Some false; timezone := None |} |}.


(** A GitHub category whose language is a lone surrogate. *)
Definition trendingConfig : AppConfig :=
  {| webhooks := [(js "ops", {| webhookType := js "wps-teams";
                                webhookUrl := js "https://hook" |})];
     categories :=
       {[ js "github" :=
            {| categoryName := js "GitHub"; count := 5;
               categoryWebhooks := [js "ops"];
               sources := [GithubTrendingSourceConfig None (Some [0xD800]) None] |} ]};
     settings := None |}.

Definition noFilter : LocalFilter := {| blockedKeywords := [] |}.

(** A world with one feed item, in which every send fails. *)
Definition failingWebhooks : World :=
  {| primaryApi := fun _ _ => Rejected;
     fallbackApi := fun _ _ => Rejected;
     rssFeed := fun _ _ => Some (Some [entry "Title" "https://a" None]);
     clockParts := fun _ => sampleClock;
     webhookAccepts := fun _ _ _ => false;
     hotItems := fun _ _ _ => [];
     trendingItems := fun _ _ _ _ => [] |}.

End Instances.

(** ** Predicates and functions the statements are written with *)

Module Spec.

Section NeedsTranslation.

(** A text without surrogate code units: its characters are its
    code units. *)
Definition noSurrogates (text : jsstring) : Prop :=
  Forall (fun c => c < 0xD800 ∨ 0xDFFF < c < 0x10000) text.

End NeedsTranslation.

Section Deduplicator.
Context `{Engine}.

(** [item] repeats an entry of the state: same link, or similarity of
    the token sets at least [threshold]. *)
Definition duplicateOf (threshold : Q) (seen : list Deduplicator.SeenEntry)
                       (item : NewsItem) : Prop :=
  ∃ s, s ∈ seen ∧
       (Deduplicator.seenLink s = link item ∨
        (threshold <= Deduplicator.jaccard (Deduplicator.chars s)
                        (Deduplicator.extractTokens (title item)))%Q).

End Deduplicator.

Section Translator.
Context `{Engine} `{World}.

(** What each provider yields for a request made after the history
    [h]: a non-empty translation, or nothing. *)
Definition primaryYield (h : history) (text : jsstring) : option jsstring :=
  match primaryApi h text with
  | Response true targetText => orNull targetText
  | _ => None
  end.

Definition fallbackYield (h : history) (text : jsstring) : option jsstring :=
  match fallbackApi h text with
  | Response true (code, target) =>
      if bool_decide (code = Some 200%Z) then orNull target else None
  | _ => None
  end.

(** What the pair of providers yields: [None] when both yield nothing. *)
Definition yield (h : history) (text : jsstring) : option jsstring :=
  match primaryYield h text with
  | Some t => Some t
  | None => fallbackYield (GetPrimary text :: h) text
  end.

(** The history after [translateText]. *)
Definition translateTrace (h : history) (text : jsstring) : history :=
  match primaryYield h text with
  | Some _ => GetPrimary text :: h
  | None =>
      match fallbackApi (GetPrimary text :: h) text with
      | Rejected => [ConsoleWarn (TranslateFailed text)]
      | _ => []
      end ++ GetFallback text :: GetPrimary text :: h
  end.

Definition isProviderCall (e : event) : bool :=
  match e with
  | GetPrimary _ | GetFallback _ => true
  | _ => false
  end.

Definition providerCalls (h : history) : list event :=
  List.filter isProviderCall h.

(** The text [translateTitles] submits for an item, if any. *)
Definition target (isGithub : bool) (item : NewsItem) : option jsstring :=
  if isGithub then
    if isTruthy (extra item ≫= description)
       && needsTranslation (default [] (extra item ≫= description))
    then extra item ≫= description else None
  else if needsTranslation (title item) then Some (title item) else None.

(** The item with the translation [t] of [text] added. *)
Definition augment (isGithub : bool) (item : NewsItem) (text t : jsstring) : NewsItem :=
  if isGithub then withDescription item (annotate text t)
  else withTitle item (annotate text t).

Definition throttled (st : TranslationState) (h : history) : history :=
  if (0 <? translatedCount st)%nat then Sleep THROTTLE_MS :: h else h.

(** The test after the [try] statement. *)
Definition settle (st : TranslationState) (h : history)
  : outcome TranslationState * history :=
  if (MAX_CONSECUTIVE_FAILURES <=? consecutiveFailures st)%nat
  then (Returned (abort st),
        ConsoleWarn (TranslationAborted (consecutiveFailures st)) :: h)
  else (Returned st, h).

(** The breaker is open exactly when the counter has reached the
    threshold. *)
Definition breakerInv (st : TranslationState) : Prop :=
  aborted st = (MAX_CONSECUTIVE_FAILURES <=? consecutiveFailures st)%nat.

(** The text of the claim, [{original}（{translated}）]: the
    original, U+FF08, the translation, U+FF09. *)
Definition bracketed (original translated : jsstring) : jsstring :=
  original ++ [0xFF08] ++ translated ++ [0xFF09].

(** What [translateTitles] returns for an item: the item itself, or
    the item whose title (whose [extra.description], for GitHub) has
    become the original followed by the translation in brackets, every
    other field being as it was. *)
Definition delivered (isGithub : bool) (item out : NewsItem) : Prop :=
  out = item ∨
  ∃ translated : jsstring,
    if isGithub then
      ∃ desc,
        extra item ≫= description = Some desc ∧
        title out = title item ∧ link out = link item ∧ source out = source item ∧
        pubDate out = pubDate item ∧
        extra out ≫= description = Some (bracketed desc translated) ∧
        extra out ≫= stars = extra item ≫= stars ∧
        extra out ≫= todayStars = extra item ≫= todayStars ∧
        extra out ≫= language = extra item ≫= language
    else
      title out = bracketed (title item) translated ∧ link out = link item ∧
      source out = source item ∧ pubDate out = pubDate item ∧ extra out = extra item.

(** Once the breaker is open the loop only copies. *)
Definition copied (st : TranslationState) (l : list NewsItem) : TranslationState :=
  {| results := results st ++ l;
     translatedCount := translatedCount st;
     consecutiveFailures := consecutiveFailures st;
     aborted := aborted st |}.

End Translator.

Section Formatter.
Context `{Engine} `{World}.

(** The running character total of the sections of the current
    message: the length of each plus 2 for the separator. *)
Definition runningTotal (sections : list jsstring) : Z :=
  foldr (fun s total => (Z.of_nat (length s) + 2 + total)%Z) 0%Z sections.

(** The message number [i] made of the sections [batch]. *)
Definition render (categoryName footer : jsstring) (i : nat) (batch : list jsstring)
  : jsstring :=
  header categoryName i ++ nl ++ join (nl ++ nl) batch ++ footer.

(** Adding [section] would pass the budget left once the footer is
    reserved, or the current message already has the maximum number of
    sections. *)
Definition exceeds (maxSourcesPerMsg maxChars : Z) (footer : jsstring)
                   (st : SplitState) (section : jsstring) : Prop :=
  (maxChars - Z.of_nat (length footer) - 30
   < runningTotal (currentSections st) + Z.of_nat (length section) + 2)%Z
  ∨ (maxSourcesPerMsg ≤ Z.of_nat (length (currentSections st)))%Z.

(** The state of the loop after the groups [processed]: the finished
    messages are whole batches of sections, and with the current sections
    they are the sections of the groups processed, in order. *)
Definition splitInv (categoryName footer : jsstring) (maxSourcesPerMsg : Z)
                    (processed : list SourceGroup) (st : SplitState) : Prop :=
  ∃ batches : list (list jsstring),
    messages st = imap (render categoryName footer) batches ∧
    batchIndex st = length batches ∧
    Forall (fun b => b ≠ [] ∧ (Z.of_nat (length b) ≤ Z.max 1 maxSourcesPerMsg)%Z) batches ∧
    (Z.of_nat (length (currentSections st)) ≤ Z.max 1 maxSourcesPerMsg)%Z ∧
    concat batches ++ currentSections st = formatSourceSection <$> processed ∧
    currentLength st = runningTotal (currentSections st) ∧
    (processed ≠ [] → currentSections st ≠ []).

(** The condition of the split, on the sections [current] of the
    message being filled and the section that comes next: with this
    section the running total (the length of every section plus 2)
    would pass 4500 less the length of the footer and a reserve of 30
    for the header, or the message has 3 sections already. *)
Definition startsNewMessage (footer : jsstring) (current : list jsstring)
                            (section : jsstring) : Prop :=
  (4500 - Z.of_nat (length footer) - 30
   < runningTotal current + Z.of_nat (length section) + 2)%Z
  ∨ (3 ≤ length current)%nat.

(** The same condition with the two limits as parameters. *)
Definition closes (maxSourcesPerMsg maxChars : Z) (footer : jsstring)
                  (current : list jsstring) (section : jsstring) : Prop :=
  (maxChars - Z.of_nat (length footer) - 30
   < runningTotal current + Z.of_nat (length section) + 2)%Z
  ∨ (maxSourcesPerMsg ≤ Z.of_nat (length current))%Z.

(** The batches of sections are cut exactly where [P] holds: a section
    that follows others in its batch did not meet [P] with the sections
    before it, and a section that opens a batch after another met [P]
    with the whole of the batch before. *)
Definition cutExactlyWhere (P : list jsstring → jsstring → Prop)
                           (batches : list (list jsstring)) : Prop :=
  (∀ before current section rest after,
     batches = before ++ (current ++ section :: rest) :: after →
     current ≠ [] → ¬ P current section) ∧
  (∀ before current section rest after,
     batches = before ++ current :: (section :: rest) :: after →
     P current section).

(** [formatTime] on the parts read from the clock. *)
Definition partValue (parts : list (jsstring * jsstring)) (type : jsstring) : jsstring :=
  default [] (snd <$> List.find (fun p => bool_decide (fst p = type)) parts).

Definition timeText (parts : list (jsstring * jsstring)) : jsstring :=
  partValue parts (js "year") ++ js "-" ++ partValue parts (js "month") ++ js "-"
  ++ partValue parts (js "day") ++ space ++ partValue parts (js "hour") ++ js ":"
  ++ partValue parts (js "minute").

Definition isDigits (n : nat) (s : jsstring) : bool :=
  (length s =? n)%nat && forallb isDigit s.

(** The formatter gives a year of four digits and two digits for the
    other fields. *)
Definition wellFormedClock (parts : list (jsstring * jsstring)) : bool :=
  isDigits 4 (partValue parts (js "year")) && isDigits 2 (partValue parts (js "month"))
  && isDigits 2 (partValue parts (js "day")) && isDigits 2 (partValue parts (js "hour"))
  && isDigits 2 (partValue parts (js "minute")).

(** The format YYYY-MM-DD HH:mm. *)
Definition isTimestamp (s : jsstring) : bool :=
  match s with
  | [y1; y2; y3; y4; d1; m1; m2; d2; a1; a2; sp; h1; h2; c; i1; i2] =>
      forallb isDigit [y1; y2; y3; y4; m1; m2; a1; a2; h1; h2; i1; i2]
      && bool_decide (d1 = 0x2D) && bool_decide (d2 = 0x2D)
      && bool_decide (sp = 0x20) && bool_decide (c = 0x3A)
  | _ => false
  end.

(** A message whose last line is the footer with the time [time]. *)
Definition endsWithFooter (time msg : jsstring) : Prop :=
  ∃ body, msg = body ++ nl ++ nl ++ js "> 更新时间：" ++ time.

End Formatter.

Section RssSource.
Context `{Engine} `{World}.

(** What [fetchSingleFeed] returns for an answer of the parser. *)
Definition feedList (name : jsstring) (reply : option (option (list FeedItem)))
  : list NewsItem :=
  match reply with
  | Some feedItems =>
      List.filter hasTitleAndLink (map (toNewsItem name) (default [] feedItems))
  | None => []
  end.

(** The time by which an item is ordered: 0 without a date. *)
Definition sortKey (item : NewsItem) : Z :=
  match timeOf item with
  | Time t => t
  | NaN => 0
  end.

Definition newerOrEqual (a b : NewsItem) : Prop := (sortKey b ≤ sortKey a)%Z.

(** No item carries an Invalid Date. *)
Definition datesValid (l : list NewsItem) : Prop :=
  Forall (fun item => pubDate item ≠ Some NaN) l.

(** [item] is the first item of [l] with its link. *)
Definition firstWithLink (l : list NewsItem) (item : NewsItem) : Prop :=
  ∃ l1 l2, l = l1 ++ item :: l2 ∧ link item ∉ (link <$> l1).

(** The order of the claim: of two items the earlier one is not older,
    and an item without a date is not placed before an item with one. *)
Definition newestFirstUndatedLast (l : list NewsItem) : Prop :=
  ∀ (i j : nat) (a b : NewsItem),
    (i < j)%nat → l !! i = Some a → l !! j = Some b →
    match pubDate a, pubDate b with
    | Some (Time ta), Some (Time tb) => (tb ≤ ta)%Z
    | None, Some _ => False
    | _, _ => True
    end.

End RssSource.

Section Dispatcher.
Context `{Engine} `{World}.

Definition supportedType (type : jsstring) : Prop :=
  type = js "wps-teams" ∨ type = js "wecom".

(** Every configured webhook has a type [createWebhookAdapter] knows. *)
Definition supported (config : AppConfig) : Prop :=
  Forall (fun entry => supportedType (webhookType (snd entry))) (webhooks config).

(** The events of sending [msgs] through one adapter, the earliest
    first: a send and a pause for each message. *)
Definition sendEvents (adapter : WebhookAdapter) (msgs : list jsstring) : list event :=
  flat_map (fun msg => [SendMarkdown adapter msg; Sleep 1000]) msgs.

(** The events of the delivery of [msgs] to the webhooks [ids], the
    earliest first. *)
Definition deliveryEvents (webhookAdapters : gmap jsstring WebhookAdapter)
                          (msgs : list jsstring) (ids : list jsstring) : list event :=
  flat_map
    (fun webhookId =>
       match webhookAdapters !! webhookId with
       | None => [ConsoleWarn (WebhookNotFound webhookId)]
       | Some adapter => sendEvents adapter msgs
       end)
    ids.

(** The loop over the categories. *)
Definition runCategories (config : AppConfig) (localFilter : LocalFilter)
    (webhookAdapters : gmap jsstring WebhookAdapter) (ids : list jsstring) : IO unit :=
  forEach (categoryStep config localFilter webhookAdapters) () ids.

(** The adapter of a webhook of a supported type. *)
Definition adapterOf (name : jsstring) (cfg : WebhookConfig) : WebhookAdapter :=
  if bool_decide (webhookType cfg = js "wps-teams")
  then WpsTeamsWebhook name (webhookUrl cfg)
  else WecomWebhook name (webhookUrl cfg).

(** The adapters by name, one for each configured webhook; of two
    entries with one name the later counts. *)
Definition adaptersOf (config : AppConfig) : gmap jsstring WebhookAdapter :=
  foldl (fun adapters entry => <[fst entry := adapterOf (fst entry) (snd entry)]> adapters)
    ∅ (webhooks config).



(** The messages the dispatcher makes for a category, [None] when
    nothing was fetched: the branch of the kind of the category. *)
Definition produce (config : AppConfig) (localFilter : LocalFilter)
                   (category : CategoryConfig) : IO (option (list jsstring)) :=
  if isGithubCategory category then githubMessages config localFilter category
  else newsMessages config localFilter category.

(** The line printed when there is more than one message. *)
Definition splitNotice (msgs : list jsstring) : history :=
  if (1 <? length msgs)%nat then [ConsoleLog (SplitInto (length msgs))] else [].

(** [processed config localFilter h ids h']: from the history [h], the
    categories [ids] are processed one after the other and leave the
    history [h'].  An id that names no category costs a warning.  A
    category is announced and its messages are made (which messages is
    the matter of the fetchers, the translator and the formatter, and
    is taken from [produce]); when there are none it is left at that,
    and otherwise every message is delivered to every webhook of the
    category: for each webhook id in order a warning when no adapter has
    the name, else a send and a pause for each message in order,
    whatever becomes of the sends. *)
Inductive processed (config : AppConfig) (localFilter : LocalFilter)
  : history → list jsstring → history → Prop :=
| processed_nil h : processed config localFilter h [] h
| processed_unknown h categoryId ids h' :
    categories config !! categoryId = None →
    processed config localFilter (ConsoleWarn (UnknownCategory categoryId) :: h) ids h' →
    processed config localFilter h (categoryId :: ids) h'
| processed_nothing h categoryId ids h' category h1 :
    categories config !! categoryId = Some category →
    produce config localFilter category
      (ConsoleLog (Fetching (categoryName category)) :: h) = (Returned None, h1) →
    processed config localFilter h1 ids h' →
    processed config localFilter h (categoryId :: ids) h'
| processed_sent h categoryId ids h' category msgs h1 :
    categories config !! categoryId = Some category →
    produce config localFilter category
      (ConsoleLog (Fetching (categoryName category)) :: h) = (Returned (Some msgs), h1) →
    processed config localFilter
      (reverse (deliveryEvents (adaptersOf config) msgs (categoryWebhooks category))
       ++ splitNotice msgs ++ h1) ids h' →
    processed config localFilter h (categoryId :: ids) h'.

End Dispatcher.

End Spec.
Export Spec.

(** * Vocabulary of the further properties *)

Module Behaviour.

(** [kw] is a substring of [text]. *)
Definition occursIn (kw text : jsstring) : Prop :=
  ∃ pre post, text = pre ++ kw ++ post.

(** The text [applyKeywordFilter] searches: the title, a space and the
    description, if any. *)
Definition searchText (item : NewsItem) : jsstring :=
  title item ++ space ++ default [] (extra item ≫= description).

(** [w] is a maximal run of lower-case letters of [s], of length at
    least three: a match of [[a-z]{3,}] in a global search. *)
Definition isWordOf (s w : jsstring) : Prop :=
  (3 ≤ length w)%nat ∧
  Forall (fun c => isLowerAscii c = true) w ∧
  ∃ pre post, s = pre ++ w ++ post ∧
    (∀ c, last pre = Some c → isLowerAscii c = false) ∧
    (∀ c, head post = Some c → isLowerAscii c = false).

Section Translator.
Context `{Engine} `{World}.

(** The number of items [translateTitles] submits a text for, if no
    request fails. *)
Definition submitted (isGithub : bool) (l : list NewsItem) : nat :=
  length (List.filter (fun item => bool_decide (target isGithub item ≠ None)) l).

End Translator.

Section Formatter.
Context `{Engine} `{World}.

(** A batch of more than one section stayed within the budget of the
    loop: the limit less the footer and the reserve of 30. *)
Definition withinBudget (maxChars : Z) (footer : jsstring) (batch : list jsstring) : Prop :=
  (2 ≤ length batch)%nat →
  (runningTotal batch ≤ maxChars - Z.of_nat (length footer) - 30)%Z.

(** A message that holds the section of one group only. *)
Definition singleSection (categoryName footer : jsstring) (candidates : list SourceGroup)
                         (msg : jsstring) : Prop :=
  ∃ i g, g ∈ candidates ∧ msg = render categoryName footer i [formatSourceSection g].

End Formatter.

Section RssSource.
Context `{Engine} `{World}.

(** A string that neither starts nor ends with white space. *)
Definition trimmed (s : jsstring) : Prop :=
  (∀ c, head s = Some c → isWhiteSpace c = false) ∧
  (∀ c, last s = Some c → isWhiteSpace c = false).

(** [a] stands before [b] in [l]. *)
Definition precedes {A} (l : list A) (a b : A) : Prop :=
  ∃ l1 l2 l3, l = l1 ++ a :: l2 ++ b :: l3.

End RssSource.

Section Dispatcher.
Context `{Engine} `{World}.

(** Run after any history, [m] adds events that all satisfy [P] and,
    when it returns, returns a value that satisfies [R]. *)
Definition emits {A} (P : event → Prop) (R : A → Prop) (m : IO A) : Prop :=
  ∀ h, ∃ ext, (m h).2 = ext ++ h ∧ Forall P ext ∧ ∀ a, (m h).1 = Returned a → R a.

(** The events of [translateTitles]. *)
Definition isTranslatorEvent (e : event) : bool :=
  match e with
  | GetPrimary _ | GetFallback _ => true
  | Sleep ms => bool_decide (ms = THROTTLE_MS)
  | ConsoleWarn (TranslateFailed _) | ConsoleWarn (TranslationAborted _) => true
  | ConsoleLog (TranslatedCount _) => true
  | _ => false
  end.

(** A text whose last line gives the time read from the clock. *)
Definition carriesTime (text : jsstring) : Prop :=
  ∃ body h, text = body ++ nl ++ js "> 更新时间：" ++ timeText (clockParts h).

(** The kind of source that stands for a hot board. *)
Definition isBoardSource (board : hotBoard) (s : SourceConfig) : bool :=
  match board, s with
  | BaiduHot, BaiduHotSourceConfig _ => true
  | ToutiaoHot, ToutiaoHotSourceConfig _ => true
  | BilibiliHot, BilibiliHotSourceConfig _ => true
  | _, _ => false
  end.

(** A category fetches what its configuration lists: the feeds and
    the boards among the sources of a category without GitHub source,
    the first GitHub source of a category with one.  It asks for
    translations only if it has a GitHub source or a feed. *)
Definition ownFetch (category : CategoryConfig) (e : event) : Prop :=
  match e with
  | GetPrimary _ | GetFallback _ =>
      isGithubCategory category || existsb isRss (sources category) = true
  | ParseURL url =>
      isGithubCategory category = false ∧
      ∃ name, RssSourceConfig name url ∈ sources category
  | FetchHot board n =>
      isGithubCategory category = false ∧ n = count category ∧
      ∃ s, s ∈ sources category ∧ isBoardSource board s = true
  | FetchGithubTrending lang since n =>
      n = count category ∧
      ∃ name, List.find isGithubSource (sources category)
              = Some (GithubTrendingSourceConfig name lang since)
  | _ => True
  end.

(** What happens before the messages of a category are sent: no
    send, no warning about a missing webhook, and a request for a
    translation only when the configuration asks for translations. *)
Definition quiet (config : AppConfig) (e : event) : Prop :=
  (isTranslatorEvent e = true → shouldTranslate config = true) ∧
  (∀ adapter text, e ≠ SendMarkdown adapter text) ∧
  (∀ webhookId, e ≠ ConsoleWarn (WebhookNotFound webhookId)).

(** The adapter [createWebhookAdapter] makes for a configured webhook. *)
Definition configuredAdapter (config : AppConfig) (adapter : WebhookAdapter) : Prop :=
  ∃ name cfg, (name, cfg) ∈ webhooks config ∧
    (webhookType cfg = js "wps-teams" ∧ adapter = WpsTeamsWebhook name (webhookUrl cfg) ∨
     webhookType cfg = js "wecom" ∧ adapter = WecomWebhook name (webhookUrl cfg)).

(** What a run of [dispatch] may do. *)
Definition dispatchEvent (config : AppConfig) (e : event) : Prop :=
  (isTranslatorEvent e = true → shouldTranslate config = true) ∧
  (∀ adapter text, e = SendMarkdown adapter text →
     configuredAdapter config adapter ∧ carriesTime text).

(** Every send is followed at once by the pause of one second; the
    events are in the order they happened. *)
Definition paced (l : list event) : Prop :=
  ∀ i adapter text,
    l !! i = Some (SendMarkdown adapter text) → l !! S i = Some (Sleep 1000).

End Dispatcher.

Section Loader.
Variable inherited : jsstring → bool.

(** [config.webhooks[webhookId]] is an object or a function: a webhook
    of the file has the name, or [Object.prototype] has a property of
    the name. *)
Definition resolves (config : AppConfig) (webhookId : jsstring) : Prop :=
  webhookId ∈ (fst <$> webhooks config) ∨ inherited webhookId = true.

(** What [validateConfig] asks of a category. *)
Definition wellFormed (config : AppConfig) (category : CategoryConfig) : Prop :=
  Forall (resolves config) (categoryWebhooks category) ∧
  sources category ≠ [] ∧ (1 ≤ count category)%nat.

End Loader.

End Behaviour.
Export Behaviour.

(** ** Further inputs to run the definitions on *)

Module Samples.

(** A filter with one keyword. *)
Definition spamFilter : LocalFilter := {| blockedKeywords := [js "spam"] |}.

(** A world whose first provider translates every text to the same
    words. *)
Definition translating : World :=
  {| primaryApi := fun _ _ => Response true (Some (js "译文"));
     fallbackApi := fun _ _ => Rejected;
     rssFeed := fun _ _ => Some (Some [Instances.entry "Title" "https://a" None]);
     clockParts := fun _ => Instances.sampleClock;
     webhookAccepts := fun _ _ _ => true;
     hotItems := fun _ _ _ => [];
     trendingItems := fun _ _ _ _ => [] |}.

(** A text of 5001 letters, and one of 2000 ideographs (6000 bytes). *)
Definition longLatin : jsstring := replicate (Z.to_nat 5001) 0x61.
Definition longChinese : jsstring := replicate 2000 0x4E2D.

End Samples.

Module LoaderSamples.

(** The properties of [Object.prototype]. *)
Definition objectPrototype (name : jsstring) : bool :=
  bool_decide (name ∈ [js "constructor"; js "hasOwnProperty"; js "isPrototypeOf";
                       js "propertyIsEnumerable"; js "toLocaleString"; js "toString";
                       js "valueOf"; js "__proto__"; js "__defineGetter__";
                       js "__defineSetter__"; js "__lookupGetter__";
                       js "__lookupSetter__"]).

(** An environment with the one variable HOOK. *)
Definition hookEnv (name : jsstring) : option jsstring :=
  if bool_decide (name = js "HOOK") then Some (js "https://hook/${KEY}") else None.

Definition opsCategory : CategoryConfig :=
  {| categoryName := js "Tech"; count := 5;
     categoryWebhooks := [js "ops"];
     sources := [RssSourceConfig (js "feed") (js "https://feed")] |}.

(** A configuration [validateConfig] accepts. *)
Definition validConfig : AppConfig :=
  {| webhooks := [(js "ops", {| webhookType := js "wps-teams";
                                webhookUrl := js "https://hook" |})];
     categories := {[ js "tech" := opsCategory ]};
     settings := Some {| translate := Some false; timezone := None |} |}.

(** A category that names a method of every object as its webhook. *)
Definition methodCategory : CategoryConfig :=
  {| categoryName := js "Tech"; count := 5;
     categoryWebhooks := [js "toString"];
     sources := [RssSourceConfig (js "feed") (js "https://feed")] |}.

End LoaderSamples.

(** * Properties *)

Ltac io :=
  unfold mbind, mret, IO_bind, IO_ret, ioBind, ioRet, tryCatch, ask, emit, throw,
    consoleWarn, consoleLog, sleep in *.

(** ** Literals *)

(** [js] reads the literals of this file as the source reads its own. *)
Example js_literals :
  js "## " = [0x23; 0x23; 0x20] ∧
  js "（续）" = [0xFF08; 0x7EED; 0xFF09] ∧
  js "中国" = [0x4E2D; 0x56FD] ∧
  codePoints [0x61; 0xD83D; 0xDE00] = [0x61; 0x1F600] ∧
  fromCodePoints [0x61; 0x1F600] = [0x61; 0xD83D; 0xDE00] ∧
  decimal 12 = js "12" ∧
  trim (js "  a b  ") = js "a b" ∧
  includes (js "abcd") (js "bc") = true ∧
  join (js ", ") [js "a"; js "b"; js "c"] = js "a, b, c".
Proof. repeat split; by vm_compute. Qed.

(** ** The character classes of the two CJK tests *)

Section CjkClasses.

Lemma inRange_spec lo hi c : inRange lo hi c = true ↔ lo ≤ c ≤ hi.
Proof. unfold inRange. rewrite andb_true_iff, !N.leb_le. done. Qed.

Lemma translatorIsCjk_spec c :
  translatorIsCjk c = true ↔
  0x4e00 ≤ c ≤ 0x9fff ∨ 0x3400 ≤ c ≤ 0x4dbf ∨ 0xf900 ≤ c ≤ 0xfaff.
Proof.
  unfold translatorIsCjk, cjkPattern, matchesClass; simpl.
  rewrite !orb_true_iff, !inRange_spec. intuition discriminate.
Qed.

Lemma dedupIsCjk_spec c : dedupIsCjk c = true ↔ 0x4e00 ≤ c ≤ 0x9fff.
Proof.
  unfold dedupIsCjk, dedupCjkPattern, matchesClass; simpl.
  rewrite orb_true_iff, inRange_spec. intuition discriminate.
Qed.

(** C7, as stated, fails: U+3400 (CJK Extension A) is a CJK character
    for [needsTranslation] and is not one for the tokenizer of the
    deduplicator. *)
Lemma cjk_classes_differ_at_3400 :
  ¬ (translatorIsCjk 0x3400 = true ↔ dedupIsCjk 0x3400 = true).
Proof. intros [Hlr _]. specialize (Hlr eq_refl). discriminate Hlr. Qed.

(** C7, amended: every character the tokenizer of the deduplicator
    takes as CJK is CJK for [needsTranslation], and the characters on
    which the two tests differ are exactly U+3400..U+4DBF and
    U+F900..U+FAFF, which only [needsTranslation] counts. *)
Theorem cjk_classes_compared (c : N) :
  (dedupIsCjk c = true → translatorIsCjk c = true) ∧
  (translatorIsCjk c = true ∧ dedupIsCjk c = false ↔
   0x3400 ≤ c ≤ 0x4dbf ∨ 0xf900 ≤ c ≤ 0xfaff).
Proof.
  split.
  - rewrite dedupIsCjk_spec, translatorIsCjk_spec. tauto.
  - rewrite <- not_true_iff_false, dedupIsCjk_spec, translatorIsCjk_spec. lia.
Qed.

End CjkClasses.

(** ** Numbers *)

Section Numbers.

Lemma Qlt_bool_iff x y : Qlt_bool x y = true ↔ (x < y)%Q.
Proof.
  unfold Qlt_bool. rewrite negb_true_iff, <- not_true_iff_false, Qle_bool_iff.
  split; [apply Qnot_le_lt | apply Qlt_not_le].
Qed.

Lemma ratio_pos (a b : Z) :
  (0 < b)%Z → (inject_Z a / inject_Z b == a # Z.to_pos b)%Q.
Proof.
  intros Hb. destruct b as [|p|p]; try lia.
  unfold Qeq, Qdiv, Qmult, Qinv, inject_Z. cbn [Qnum Qden Z.to_pos]. lia.
Qed.

(** The quotient of two lengths against a fraction, without division. *)
Lemma quotient_lt (a b n : nat) (d : positive) :
  (b ≠ 0)%nat →
  (quotient a b < Z.of_nat n # d)%Q ↔
  (Z.of_nat a * Z.pos d < Z.of_nat n * Z.of_nat b)%Z.
Proof.
  intros Hb. unfold quotient. rewrite ratio_pos by lia.
  unfold Qlt. cbn [Qnum Qden]. rewrite Z2Pos.id by lia. lia.
Qed.

End Numbers.

(** ** [needsTranslation] *)

Section NeedsTranslation.
Context `{Engine}.

(** On a text without surrogate code units the characters and the code
    units coincide, and the stripped text is the text without the code
    units of the class. *)
Lemma codePoints_bmp text : noSurrogates text → codePoints text = text.
Proof.
  induction 1 as [|c text Hc Htext IH]; [done|].
  cbn [codePoints]. destruct text as [|d text]; [done|].
  assert (isHighSurrogate c = false) as ->.
  { apply not_true_iff_false. unfold isHighSurrogate.
    rewrite inRange_spec. lia. }
  cbn [andb]. by rewrite IH.
Qed.

Lemma fromCodePoints_bmp text :
  Forall (fun c => c < 0x10000) text → fromCodePoints text = text.
Proof.
  induction 1 as [|c text Hc Htext IH]; [done|].
  unfold fromCodePoints in *. cbn [flat_map]. rewrite IH.
  unfold encodeCodePoint. by apply N.ltb_lt in Hc as ->.
Qed.

Lemma stripped_bmp text :
  noSurrogates text →
  stripped text = List.filter (fun c => negb (isStripped c)) text.
Proof.
  intros Htext. unfold stripped. rewrite codePoints_bmp by done.
  apply fromCodePoints_bmp.
  unfold noSurrogates in Htext. rewrite Forall_forall in *.
  intros c Hc. apply list_elem_of_In, filter_In in Hc as [Hc _].
  apply list_elem_of_In, Htext in Hc. lia.
Qed.

(** C5.  [needsTranslation text] is false when nothing is left of
    [text] once whitespace, digits, punctuation and symbols are
    removed; otherwise it is true exactly when the number of CJK
    characters divided by the length of what is left (in code units, as
    [.length] counts) is below 0.3, that is when
    [10 * cjkCount < 3 * length].  On a text without surrogates what is
    left is the text without the code units of the class.  The three
    titles of the specification give true, false and false. *)
Theorem needsTranslation_spec (text : jsstring) :
  (stripped text = [] → needsTranslation text = false) ∧
  (stripped text ≠ [] →
     (needsTranslation text = true ↔
      (quotient (cjkCount text) (length (stripped text)) < 3 # 10)%Q) ∧
     (needsTranslation text = true ↔
      (10 * cjkCount text < 3 * length (stripped text))%nat)) ∧
  (noSurrogates text →
     stripped text = List.filter (fun c => negb (isStripped c)) text) ∧
  needsTranslation (js "OpenAI releases GPT-5 model update") = true ∧
  needsTranslation (js "中国人工智能产业规模破万亿") = false ∧
  needsTranslation (js "123 !!! ...") = false.
Proof.
  split; [|split; [|split; [apply stripped_bmp|by vm_compute]]].
  - intros Hs. unfold needsTranslation. by rewrite Hs.
  - intros Hs. unfold needsTranslation.
    destruct (stripped text) as [|c rest] eqn:E; [done|].
    cbn [length Nat.eqb]. rewrite Qlt_bool_iff.
    split; [done|].
    change (3 # 10)%Q with (Z.of_nat 3 # 10)%Q.
    rewrite quotient_lt by done. lia.
Qed.

End NeedsTranslation.

Lemma needsTranslation_spec_witness :
  @stripped Instances.asciiEngine (js "AI 芯片") ≠ [] ∧
  (@needsTranslation Instances.asciiEngine (js "AI 芯片") = true ↔ (10 * 2 < 3 * 4)%nat).
Proof.
  assert (@stripped Instances.asciiEngine (js "AI 芯片") ≠ []) as Hne by by vm_compute.
  split; [exact Hne|].
  exact (proj2 (proj1 (proj2 (@needsTranslation_spec Instances.asciiEngine
                                (js "AI 芯片"))) Hne)).
Defined.

(** ** The Jaccard similarity of the deduplicator *)

Section Jaccard.

Implicit Types a b S : gset jsstring.

Lemma intersectionCount_size a b :
  Deduplicator.intersectionCount a b = size (a ∩ b).
Proof.
  unfold Deduplicator.intersectionCount, size, set_size. cbn.
  apply Permutation_length, NoDup_Permutation.
  - apply NoDup_ListNoDup, List.NoDup_filter, NoDup_ListNoDup, NoDup_elements.
  - apply NoDup_elements.
  - intros t. rewrite elem_of_elements, elem_of_intersection.
    rewrite list_elem_of_In, filter_In, <- list_elem_of_In, elem_of_elements.
    by rewrite bool_decide_eq_true.
Qed.

Lemma union_size_nat a b :
  size (a ∪ b) = (size a + (size b - size (a ∩ b)))%nat.
Proof.
  rewrite size_union_alt, size_difference_alt.
  by assert (b ∩ a = a ∩ b) as -> by set_solver.
Qed.

Lemma union_size a b :
  (Z.of_nat (size a) + Z.of_nat (size b) - Z.of_nat (size (a ∩ b))
   = Z.of_nat (size (a ∪ b)))%Z.
Proof.
  assert (size (a ∩ b) ≤ size b)%nat by (apply subseteq_size; set_solver).
  rewrite union_size_nat. lia.
Qed.

Lemma size_pos a : a ≠ ∅ → (0 < size a)%nat.
Proof.
  intros Ha. destruct (size a) eqn:E; [|lia].
  apply size_empty_iff in E. by apply leibniz_equiv in E.
Qed.

Lemma jaccard_non_empty a b :
  a ≠ ∅ → b ≠ ∅ →
  Deduplicator.jaccard a b
  = (inject_Z (Z.of_nat (size (a ∩ b))) / inject_Z (Z.of_nat (size (a ∪ b))))%Q.
Proof.
  intros Ha%size_pos Hb%size_pos. unfold Deduplicator.jaccard.
  destruct (size a) eqn:Ea; [lia|]. destruct (size b) eqn:Eb; [lia|].
  cbn [Nat.eqb orb]. rewrite intersectionCount_size.
  by rewrite <- Ea, <- Eb, union_size.
Qed.

(** C6.  The similarity is the size of the intersection divided by the
    size of the union; it is 1 for a non-empty set and itself, 0 for two
    disjoint non-empty sets, and 0 as soon as one of the sets is empty. *)
Theorem jaccard_properties a b S :
  (a ≠ ∅ → b ≠ ∅ →
     Deduplicator.jaccard a b
     = (inject_Z (Z.of_nat (size (a ∩ b))) / inject_Z (Z.of_nat (size (a ∪ b))))%Q) ∧
  (S ≠ ∅ → (Deduplicator.jaccard S S == 1)%Q) ∧
  (a ≠ ∅ → b ≠ ∅ → a ## b → (Deduplicator.jaccard a b == 0)%Q) ∧
  Deduplicator.jaccard S ∅ = 0%Q ∧
  Deduplicator.jaccard ∅ S = 0%Q ∧
  Deduplicator.jaccard ∅ ∅ = 0%Q.
Proof.
  split; [apply jaccard_non_empty|]. split; [|split; [|split; [|split]]].
  - intros HS. rewrite jaccard_non_empty by done.
    assert (S ∩ S = S) as -> by set_solver.
    assert (S ∪ S = S) as -> by set_solver.
    apply size_pos in HS. rewrite ratio_pos by lia.
    unfold Qeq. cbn [Qnum Qden]. rewrite Z2Pos.id by lia. lia.
  - intros Ha Hb Hab. rewrite jaccard_non_empty by done.
    assert (a ∩ b = ∅) as -> by set_solver.
    rewrite size_empty.
    assert (0 < size (a ∪ b))%nat by (apply size_pos; set_solver).
    rewrite ratio_pos by lia. done.
  - unfold Deduplicator.jaccard. rewrite size_empty. cbn.
    by rewrite orb_true_r.
  - unfold Deduplicator.jaccard. by rewrite size_empty.
  - unfold Deduplicator.jaccard. by rewrite size_empty.
Qed.

End Jaccard.

Lemma jaccard_properties_witness :
  ({[ js "gpt" ]} : gset jsstring) ≠ ∅ ∧
  (Deduplicator.jaccard {[ js "gpt" ]} {[ js "gpt" ]} == 1)%Q.
Proof.
  assert (({[ js "gpt" ]} : gset jsstring) ≠ ∅) as Hne.
  { intros Heq%(f_equal size). by vm_compute in Heq. }
  split; [exact Hne|].
  exact (proj1 (proj2 (jaccard_properties {[ js "gpt" ]} {[ js "gpt" ]} {[ js "gpt" ]}))
           Hne).
Defined.

(** ** [TitleDeduplicator.filter] *)

Section DeduplicatorFilter.
Context `{Engine}.

Local Abbreviation run := Deduplicator.filter.
Local Abbreviation step := Deduplicator.filterStep.
Local Abbreviation entryOf := Deduplicator.entryOf.

Lemma existsb_elem_of {A} (f : A → bool) (l : list A) :
  existsb f l = true ↔ ∃ x, x ∈ l ∧ f x = true.
Proof.
  rewrite existsb_exists. split; intros (x & Hx & Hf); exists x;
    by rewrite ?list_elem_of_In in *.
Qed.

Lemma step_duplicate threshold result seen item :
  duplicateOf threshold seen item →
  step threshold (result, seen) item = (result, seen).
Proof.
  intros (s & Hs & Hdup). cbn [Deduplicator.filterStep].
  destruct (existsb _ seen) eqn:Elink; [done|].
  destruct (existsb (fun s => Qle_bool _ _) seen) eqn:Esim; [done|].
  destruct Hdup as [Hlink|Hsim].
  - assert (existsb (fun s => bool_decide (Deduplicator.seenLink s = link item)) seen
            = true) as Hex; [|congruence].
    apply existsb_elem_of. exists s. by rewrite bool_decide_eq_true.
  - assert (existsb
              (fun s => Qle_bool threshold
                 (Deduplicator.jaccard (Deduplicator.chars s)
                    (Deduplicator.extractTokens (title item)))) seen
            = true) as Hex; [|congruence].
    apply existsb_elem_of. exists s. by rewrite Qle_bool_iff.
Qed.

Lemma step_fresh threshold result seen item :
  ¬ duplicateOf threshold seen item →
  step threshold (result, seen) item = (result ++ [item], seen ++ [entryOf item]).
Proof.
  intros Hfresh. cbn [Deduplicator.filterStep].
  destruct (existsb _ seen) eqn:Elink.
  { apply existsb_elem_of in Elink as (s & Hs & Hlink).
    apply bool_decide_eq_true in Hlink. destruct Hfresh. exists s. auto. }
  destruct (existsb (fun s => Qle_bool _ _) seen) eqn:Esim; [|done].
  apply existsb_elem_of in Esim as (s & Hs & Hsim).
  apply Qle_bool_iff in Hsim. destruct Hfresh. exists s. auto.
Qed.

Lemma duplicateOf_dec threshold seen item :
  duplicateOf threshold seen item ∨ ¬ duplicateOf threshold seen item.
Proof.
  destruct (existsb
              (fun s => bool_decide (Deduplicator.seenLink s = link item)
                        || Qle_bool threshold
                             (Deduplicator.jaccard (Deduplicator.chars s)
                                (Deduplicator.extractTokens (title item)))) seen)
    eqn:E.
  - left. apply existsb_elem_of in E as (s & Hs & Hd). exists s. split; [done|].
    apply orb_true_iff in Hd as [Hd|Hd];
      [left; by apply bool_decide_eq_true in Hd | right; by apply Qle_bool_iff].
  - right. intros (s & Hs & Hd).
    assert (existsb
              (fun s => bool_decide (Deduplicator.seenLink s = link item)
                        || Qle_bool threshold
                             (Deduplicator.jaccard (Deduplicator.chars s)
                                (Deduplicator.extractTokens (title item)))) seen
            = true) as Hex; [|congruence].
    apply existsb_elem_of. exists s. split; [done|]. apply orb_true_iff.
    destruct Hd as [Hd|Hd];
      [left; by apply bool_decide_eq_true | right; by apply Qle_bool_iff].
Qed.

(** The loop from any pair of accumulators. *)
Lemma foldl_step threshold result seen l :
  foldl (step threshold) (result, seen) l
  = (result ++ (run seen l threshold).1, (run seen l threshold).2).
Proof.
  unfold Deduplicator.filter. revert result seen.
  induction l as [|item l IH]; intros result seen.
  { cbn. by rewrite app_nil_r. }
  cbn [foldl].
  destruct (duplicateOf_dec threshold seen item) as [Hd|Hd].
  - rewrite !step_duplicate by done. apply IH.
  - rewrite !step_fresh by done. rewrite IH, (IH ([] ++ [item])).
    cbn. by rewrite <- app_assoc.
Qed.

Lemma filter_app threshold seen l1 l2 :
  run seen (l1 ++ l2) threshold
  = ((run seen l1 threshold).1
       ++ (run (run seen l1 threshold).2 l2 threshold).1,
     (run (run seen l1 threshold).2 l2 threshold).2).
Proof.
  unfold Deduplicator.filter at 1. rewrite foldl_app.
  fold (run seen l1 threshold).
  destruct (run seen l1 threshold) as [r1 s1]. apply foldl_step.
Qed.

Lemma filter_one threshold seen item :
  run seen [item] threshold = step threshold ([], seen) item.
Proof. done. Qed.

(** The state is the earlier state followed by the entries of the
    items accepted, in the order of arrival, and the items accepted
    are a subsequence of the items received. *)
Lemma filter_state threshold seen l :
  (run seen l threshold).2 = seen ++ (entryOf <$> (run seen l threshold).1) ∧
  sublist (run seen l threshold).1 l.
Proof.
  revert seen. induction l as [|item l IH]; intros seen.
  { cbn. by rewrite app_nil_r. }
  change (item :: l) with ([item] ++ l). rewrite filter_app, filter_one.
  destruct (duplicateOf_dec threshold seen item) as [Hd|Hd].
  - rewrite step_duplicate by done. cbn [fst snd app].
    destruct (IH seen) as [-> Hsub]. split; [done|]. by apply sublist_cons.
  - rewrite step_fresh by done. cbn [fst snd app].
    destruct (IH (seen ++ [entryOf item])) as [-> Hsub].
    split; [by rewrite <- app_assoc | by apply sublist_skip].
Qed.

(** C1.  Let [accepted] and [state] be the items returned and the
    state reached after the items [pre], from any earlier state [seen]
    of the category's deduplicator, with threshold 0.5.  The state is
    [seen] followed by the entries of the accepted items in arrival
    order, and the accepted items are a subsequence of [pre].  The next
    item is dropped (nothing is returned for it, the state is unchanged)
    exactly when its link is the link of an entry of the state or its
    token set has similarity at least 0.5 with the token set of one;
    otherwise it is returned and its entry is appended.  The items that
    follow are then filtered from the state so reached. *)
Theorem dedup_filter_spec (seen : list Deduplicator.SeenEntry)
                          (pre post : list NewsItem) (item : NewsItem) :
  let threshold := Deduplicator.defaultThreshold in
  let accepted := (run seen pre threshold).1 in
  let state := (run seen pre threshold).2 in
  state = seen ++ (entryOf <$> accepted) ∧
  sublist accepted pre ∧
  (duplicateOf (1 # 2) state item ↔
   run seen (pre ++ [item]) threshold = (accepted, state)) ∧
  (¬ duplicateOf (1 # 2) state item ↔
   run seen (pre ++ [item]) threshold
   = (accepted ++ [item], state ++ [entryOf item])) ∧
  run seen (pre ++ item :: post) threshold
  = ((run seen (pre ++ [item]) threshold).1
       ++ (run (run seen (pre ++ [item]) threshold).2 post threshold).1,
     (run (run seen (pre ++ [item]) threshold).2 post threshold).2).
Proof.
  intros threshold accepted state.
  destruct (filter_state threshold seen pre) as [Hstate Hsub].
  split; [done|]. split; [done|].
  assert (run seen (pre ++ [item]) threshold
          = (accepted ++ (step threshold ([], state) item).1,
             (step threshold ([], state) item).2)) as Hone.
  { by rewrite filter_app, filter_one. }
  change (1 # 2)%Q with threshold.
  split; [|split].
  - split.
    + intros Hd. rewrite Hone, step_duplicate by done. cbn. by rewrite app_nil_r.
    + intros Heq. destruct (duplicateOf_dec threshold state item) as [Hd|Hd]; [done|].
      rewrite Hone, step_fresh in Heq by done. cbn in Heq.
      apply (f_equal (fun p => length p.1)) in Heq. cbn in Heq.
      rewrite length_app in Heq. cbn in Heq. lia.
  - split.
    + intros Hd. by rewrite Hone, step_fresh.
    + intros Heq Hd. rewrite Hone, step_duplicate in Heq by done. cbn in Heq.
      apply (f_equal (fun p => length p.1)) in Heq. cbn in Heq.
      rewrite !length_app in Heq. cbn in Heq. lia.
  - change (pre ++ item :: post) with (pre ++ [item] ++ post).
    by rewrite app_assoc, filter_app.
Qed.

End DeduplicatorFilter.

(** Four items through one deduplicator: the second repeats four of the
    five words of the first, the third has the link of the first, the
    fourth shares nothing with them. *)
Example dedup_filter_run :
  (@Deduplicator.filter Instances.asciiEngine []
     [Instances.news "OpenAI releases GPT-5 model update" "https://a";
      Instances.news "OpenAI releases GPT-5 model" "https://b";
      Instances.news "Something else entirely" "https://a";
      Instances.news "中国人工智能产业规模破万亿" "https://c"]
     Deduplicator.defaultThreshold).1
  = [Instances.news "OpenAI releases GPT-5 model update" "https://a";
     Instances.news "中国人工智能产业规模破万亿" "https://c"].
Proof. by vm_compute. Qed.

(** Tokens: every CJK character, every run of three letters or more of
    the lowered title ("AI" is too short, "5" is not a letter). *)
Example extractTokens_run :
  @Deduplicator.extractTokens Instances.asciiEngine (js "AI 芯片 GPT-5 Model update")
  = list_to_set [js "芯"; js "片"; js "gpt"; js "model"; js "update"].
Proof. by vm_compute. Qed.

(** ** [translateTitles] *)

Section TranslateTitles.
Context `{Engine} `{World}.

Lemma orNull_cases s :
  orNull s = None ∨ ∃ c t, orNull s = Some (c :: t).
Proof. destruct s as [[|c t]|]; cbn; eauto. Qed.

Lemma primaryYield_cases h text :
  primaryYield h text = None ∨ ∃ c t, primaryYield h text = Some (c :: t).
Proof.
  unfold primaryYield. destruct (primaryApi h text) as [|[] t]; auto using orNull_cases.
Qed.

Lemma fallbackYield_cases h text :
  fallbackYield h text = None ∨ ∃ c t, fallbackYield h text = Some (c :: t).
Proof.
  unfold fallbackYield. destruct (fallbackApi h text) as [|[] [code t]]; auto.
  case_bool_decide; auto using orNull_cases.
Qed.

Lemma yield_cases h text :
  yield h text = None ∨ ∃ c t, yield h text = Some (c :: t).
Proof.
  unfold yield. destruct (primaryYield_cases h text) as [->|(c & t & ->)]; [|eauto].
  apply fallbackYield_cases.
Qed.

Lemma translatePrimary_spec text h :
  translatePrimary text h =
  (match primaryApi h text with
   | Rejected => Thrown NetworkError
   | _ => Returned (primaryYield h text)
   end, GetPrimary text :: h).
Proof.
  unfold translatePrimary, primaryYield. io.
  destruct (primaryApi h text) as [|[] t]; done.
Qed.

Lemma translateFallback_spec text h :
  translateFallback text h =
  (match fallbackApi h text with
   | Rejected => Thrown NetworkError
   | _ => Returned (fallbackYield h text)
   end, GetFallback text :: h).
Proof.
  unfold translateFallback, fallbackYield. io.
  destruct (fallbackApi h text) as [|[] [code t]]; try done.
  cbn. by case_bool_decide.
Qed.

(** [translateText] never throws: it returns what the providers yield. *)
Lemma translateText_spec text h :
  translateText text h = (Returned (yield h text), translateTrace h text).
Proof.
  unfold translateText, yield, translateTrace.
  unfold mbind at 1, IO_bind, ioBind, tryCatch.
  rewrite translatePrimary_spec.
  destruct (primaryApi h text) eqn:Eapi.
  - assert (primaryYield h text = None) as -> by (unfold primaryYield; by rewrite Eapi).
    io. cbn. rewrite translateFallback_spec.
    destruct (fallbackApi (GetPrimary text :: h) text) eqn:Ef.
    + cbn. assert (fallbackYield (GetPrimary text :: h) text = None) as ->
        by (unfold fallbackYield; by rewrite Ef). done.
    + destruct (fallbackYield_cases (GetPrimary text :: h) text) as [->|(c & t & ->)]; done.
  - destruct (primaryYield_cases h text) as [E|(c & t & E)]; rewrite E.
    + io. cbn. rewrite translateFallback_spec.
      destruct (fallbackApi (GetPrimary text :: h) text) eqn:Ef.
      * cbn. assert (fallbackYield (GetPrimary text :: h) text = None) as ->
          by (unfold fallbackYield; by rewrite Ef). done.
      * destruct (fallbackYield_cases (GetPrimary text :: h) text) as [->|(c & t & ->)]; done.
    + done.
Qed.

Lemma throttle_spec st h : throttle st h = (Returned (), throttled st h).
Proof. unfold throttle, throttled. by destruct (0 <? translatedCount st)%nat. Qed.

Lemma tryBlock_spec isGithub st item h :
  tryBlock isGithub st item h =
  match target isGithub item with
  | None => (Returned (push st item, false), h)
  | Some text =>
      (Returned
         match yield (throttled st h) text with
         | None => (push (failed st) item, false)
         | Some t =>
             if bool_decide (t = text) then (push st item, false)
             else (translated st (augment isGithub item text t), true)
         end,
       translateTrace (throttled st h) text)
  end.
Proof.
  unfold tryBlock, target, augment. destruct isGithub.
  - destruct (isTruthy (extra item ≫= description)
              && needsTranslation (default [] (extra item ≫= description))) eqn:E;
      [|done].
    apply andb_true_iff in E as [Ht _].
    destruct (extra item ≫= description) as [desc|] eqn:Ed; [|done].
    change (default [] (Some desc)) with desc.
    unfold mbind at 1, IO_bind, ioBind. rewrite throttle_spec.
    unfold mbind at 1, IO_bind, ioBind. rewrite translateText_spec.
    destruct (yield_cases (throttled st h) desc) as [->|(c & t & ->)]; [done|].
    cbn [isTruthy andb]. change (default [] (Some (c :: t))) with (c :: t).
    destruct (bool_decide (c :: t = desc)) eqn:Eq.
    + apply bool_decide_eq_true in Eq as <-. by rewrite bool_decide_eq_true_2.
    + apply bool_decide_eq_false in Eq.
      rewrite bool_decide_eq_false_2 by congruence. done.
  - destruct (needsTranslation (title item)); [|done].
    unfold mbind at 1, IO_bind, ioBind. rewrite throttle_spec.
    unfold mbind at 1, IO_bind, ioBind. rewrite translateText_spec.
    destruct (yield_cases (throttled st h) (title item)) as [->|(c & t & ->)]; [done|].
    cbn [isTruthy andb]. change (default [] (Some (c :: t))) with (c :: t).
    destruct (bool_decide (c :: t = title item)) eqn:Eq.
    + apply bool_decide_eq_true in Eq as <-. by rewrite bool_decide_eq_true_2.
    + apply bool_decide_eq_false in Eq.
      rewrite bool_decide_eq_false_2 by congruence. done.
Qed.

(** One iteration, item by item: no attempt, both providers yield
    nothing, the translation equals the text, or it differs. *)
Lemma loopBody_spec isGithub st item h :
  aborted st = false →
  loopBody isGithub st item h =
  match target isGithub item with
  | None => settle (push st item) h
  | Some text =>
      match yield (throttled st h) text with
      | None => settle (push (failed st) item) (translateTrace (throttled st h) text)
      | Some t =>
          if bool_decide (t = text)
          then settle (push st item) (translateTrace (throttled st h) text)
          else (Returned (translated st (augment isGithub item text t)),
                translateTrace (throttled st h) text)
      end
  end.
Proof.
  intros Ha. unfold loopBody. rewrite Ha.
  unfold mbind at 1, IO_bind, ioBind, tryCatch. rewrite tryBlock_spec.
  assert (∀ st' h', (if (MAX_CONSECUTIVE_FAILURES <=? consecutiveFailures st')%nat
                     then consoleWarn (TranslationAborted (consecutiveFailures st'));;
                          mret (abort st')
                     else mret st') h' = settle st' h') as Hs.
  { intros st' h'. unfold settle.
    by destruct (MAX_CONSECUTIVE_FAILURES <=? consecutiveFailures st')%nat. }
  destruct (target isGithub item) as [text|]; [|apply Hs].
  destruct (yield (throttled st h) text) as [t|]; [|apply Hs].
  destruct (bool_decide (t = text)); [apply Hs|done].
Qed.

Lemma loopBody_aborted isGithub st item h :
  aborted st = true → loopBody isGithub st item h = (Returned (push st item), h).
Proof. intros Ha. unfold loopBody. by rewrite Ha. Qed.


Lemma delivered_link isGithub item out :
  delivered isGithub item out → link out = link item.
Proof.
  intros [->|[t Ht]]; [done|].
  destruct isGithub; [destruct Ht as (desc & _ & _ & ? & _)|destruct Ht as (_ & ? & _)];
    done.
Qed.

Lemma annotate_bracketed original translation :
  annotate original translation = bracketed original translation.
Proof.
  unfold annotate, bracketed.
  replace (js "（") with [0xFF08] by by vm_compute.
  by replace (js "）") with [0xFF09] by by vm_compute.
Qed.

Lemma target_description item text :
  target true item = Some text → extra item ≫= description = Some text.
Proof.
  unfold target.
  destruct (isTruthy (extra item ≫= description) && _); [done|discriminate].
Qed.

Lemma target_title item text : target false item = Some text → text = title item.
Proof. unfold target. destruct (needsTranslation (title item)); congruence. Qed.

Lemma delivered_augment isGithub item text t :
  target isGithub item = Some text →
  delivered isGithub item (augment isGithub item text t).
Proof.
  intros Ht. right. exists t. unfold augment. rewrite annotate_bracketed.
  destruct isGithub.
  - exists text. split; [by apply target_description|]. by split_and!.
  - rewrite (target_title item text Ht). by split_and!.
Qed.

Lemma settle_cases st h :
  ∃ st' h', settle st h = (Returned st', h') ∧
            results st' = results st ∧
            translatedCount st' = translatedCount st ∧
            consecutiveFailures st' = consecutiveFailures st ∧
            aborted st' = (aborted st
                           || (MAX_CONSECUTIVE_FAILURES <=? consecutiveFailures st)%nat) ∧
            providerCalls h' = providerCalls h.
Proof.
  unfold settle.
  destruct (MAX_CONSECUTIVE_FAILURES <=? consecutiveFailures st)%nat;
    eexists _, _; (split; [done|]); cbn; rewrite ?orb_true_r, ?orb_false_r; done.
Qed.

(** One iteration returns, keeps the invariant and appends one item. *)
Lemma loopBody_step isGithub st item h :
  breakerInv st →
  ∃ st' h', loopBody isGithub st item h = (Returned st', h') ∧
            breakerInv st' ∧
            ∃ out, results st' = results st ++ [out] ∧ delivered isGithub item out.
Proof.
  unfold breakerInv. intros Hinv.
  destruct (aborted st) eqn:Ha.
  { rewrite loopBody_aborted by done. eexists _, _. split; [done|].
    split; [by rewrite <- Ha in Hinv|]. exists item. split; [done|by left]. }
  assert (∀ st0 h0, results st0 = results st ++ [item] →
                    aborted st0 = false →
            ∃ st' h', settle st0 h0 = (Returned st', h') ∧
              aborted st' = (MAX_CONSECUTIVE_FAILURES <=? consecutiveFailures st')%nat ∧
              ∃ out, results st' = results st ++ [out] ∧ delivered isGithub item out)
    as Hsettle.
  { intros st0 h0 Hr0 Ha0.
    destruct (settle_cases st0 h0) as (st' & h' & -> & Hr & _ & Hf & Hab & _).
    eexists _, _. split; [done|]. rewrite Hab, Hf, Ha0. split; [done|].
    exists item. rewrite Hr. split; [done|by left]. }
  rewrite loopBody_spec by done.
  destruct (target isGithub item) as [text|] eqn:Et; [|by apply Hsettle].
  destruct (yield (throttled st h) text) as [t|]; [|by apply Hsettle].
  case_bool_decide; [by apply Hsettle|].
  eexists _, _. split; [done|]. split; [done|].
  eexists. split; [done|]. by apply delivered_augment.
Qed.

Lemma forEach_app {S A} (body : S → A → IO S) (s : S) (l1 l2 : list A) (h : history) :
  forEach body s (l1 ++ l2) h =
  match forEach body s l1 h with
  | (Returned s1, h1) => forEach body s1 l2 h1
  | (Thrown e, h1) => (Thrown e, h1)
  end.
Proof.
  revert s h. induction l1 as [|x l1 IH]; intros s h; [done|].
  cbn [app forEach]. unfold mbind, IO_bind, ioBind.
  destruct (body s x h) as [[s'|e] h']; [apply IH|done].
Qed.

Lemma translateLoop_spec isGithub l st h :
  breakerInv st →
  ∃ st' h', translateLoop isGithub st l h = (Returned st', h') ∧
            breakerInv st' ∧
            ∃ outs, results st' = results st ++ outs ∧
                    Forall2 (delivered isGithub) l outs.
Proof.
  unfold translateLoop. revert st h.
  induction l as [|item l IH]; intros st h Hinv.
  { eexists _, _. split; [done|]. split; [done|]. exists [].
    by rewrite app_nil_r. }
  cbn [forEach]. unfold mbind, IO_bind, ioBind.
  destruct (loopBody_step isGithub st item h Hinv)
    as (st1 & h1 & -> & Hinv1 & out & Hr1 & Hout).
  destruct (IH st1 h1 Hinv1) as (st2 & h2 & -> & Hinv2 & outs & Hr2 & Houts).
  eexists _, _. split; [done|]. split; [done|].
  exists (out :: outs). rewrite Hr2, Hr1, <- app_assoc.
  split; [done|by constructor].
Qed.

Lemma translateLoop_aborted isGithub l st h :
  aborted st = true →
  translateLoop isGithub st l h = (Returned (copied st l), h).
Proof.
  unfold translateLoop. revert st.
  induction l as [|item l IH]; intros st Ha.
  { unfold copied. rewrite app_nil_r. by destruct st. }
  cbn [forEach]. unfold mbind, IO_bind, ioBind.
  rewrite loopBody_aborted by done. rewrite IH by done.
  unfold copied, push. cbn. by rewrite <- app_assoc.
Qed.

Lemma initial_inv : breakerInv initialState.
Proof. done. Qed.


Lemma providerCalls_cons_other e h :
  isProviderCall e = false → providerCalls (e :: h) = providerCalls h.
Proof. unfold providerCalls. cbn. by intros ->. Qed.

(** C2.  (1) When the counter of consecutive failures has reached 2
    after the items [pre], [translateTitles] returns every later item of
    the batch as it is, and no request to a provider is made for them:
    the requests in the final history are those made for [pre].
    (2) In an iteration made while the breaker is closed, the counter is
    incremented when both providers yield nothing for the text
    submitted, is reset to zero when a translation that differs from the
    text is obtained, and is left as it is otherwise. *)
Theorem translation_circuit_breaker :
  (∀ (isGithub : bool) (pre rest : list NewsItem) (h h1 : history)
     (st : TranslationState),
      translateLoop isGithub initialState pre h = (Returned st, h1) →
      (MAX_CONSECUTIVE_FAILURES ≤ consecutiveFailures st)%nat →
      ∃ h2, translateTitles (pre ++ rest) isGithub h
            = (Returned (results st ++ rest), h2) ∧
            providerCalls h2 = providerCalls h1) ∧
  (∀ (isGithub : bool) (st : TranslationState) (item : NewsItem) (h : history),
      aborted st = false →
      ∃ st' h', loopBody isGithub st item h = (Returned st', h') ∧
        match target isGithub item with
        | None => consecutiveFailures st' = consecutiveFailures st
        | Some text =>
            match yield (throttled st h) text with
            | None => consecutiveFailures st' = S (consecutiveFailures st)
            | Some t =>
                if bool_decide (t = text)
                then consecutiveFailures st' = consecutiveFailures st
                else consecutiveFailures st' = 0%nat ∧
                     results st' = results st ++ [augment isGithub item text t]
            end
        end).
Proof.
  split.
  - intros isGithub pre rest h h1 st Hpre Hmax.
    destruct (translateLoop_spec isGithub pre initialState h initial_inv)
      as (st' & h' & Hrun & Hinv & _).
    rewrite Hpre in Hrun. injection Hrun as <- <-.
    assert (aborted st = true) as Ha.
    { rewrite Hinv. by apply Nat.leb_le. }
    unfold translateTitles, translateLoop in *.
    unfold mbind at 1, IO_bind, ioBind.
    rewrite forEach_app, Hpre.
    fold (translateLoop isGithub st rest). rewrite translateLoop_aborted by done.
    unfold mbind, IO_bind, ioBind. cbn [copied translatedCount results].
    destruct (0 <? translatedCount st)%nat; eexists; (split; [done|]); done.
  - intros isGithub st item h Ha. rewrite loopBody_spec by done.
    destruct (target isGithub item) as [text|].
    2:{ destruct (settle_cases (push st item) h) as (st' & h' & -> & _ & _ & Hf & _).
        by eexists _, _. }
    destruct (yield (throttled st h) text) as [t|].
    2:{ destruct (settle_cases (push (failed st) item)
                    (translateTrace (throttled st h) text))
          as (st' & h' & -> & _ & _ & Hf & _).
        by eexists _, _. }
    case_bool_decide.
    + destruct (settle_cases (push st item) (translateTrace (throttled st h) text))
        as (st' & h' & -> & _ & _ & Hf & _).
      by eexists _, _.
    + by eexists _, _.
Qed.

(** [translateTitles] returns, whatever the providers answer. *)
Lemma translateTitles_returns (l : list NewsItem) (isGithub : bool) (h : history) :
  ∃ (out : list NewsItem) (h' : history),
    translateTitles l isGithub h = (Returned out, h').
Proof.
  destruct (translateLoop_spec isGithub l initialState h initial_inv)
    as (st & h1 & Hrun & _).
  unfold translateTitles. unfold mbind at 1, IO_bind, ioBind. rewrite Hrun.
  unfold mbind, IO_bind, ioBind.
  destruct (0 <? translatedCount st)%nat; by eexists _, _.
Qed.


End TranslateTitles.

(** A title in Latin letters and a provider that translates: the title
    returned is the original with the translation between the two
    full-width brackets. *)
Example translateTitles_brackets :
  (@translateTitles Instances.asciiEngine Samples.translating
     [Instances.news "Hello world" "https://a"] false []).1
  = Returned [Instances.news "Hello world（译文）" "https://a"].
Proof. by vm_compute. Qed.


Lemma translation_circuit_breaker_witness :
  @translateLoop Instances.asciiEngine Instances.offline false initialState
    [Instances.news "Alpha beta" "https://a"; Instances.news "Gamma delta" "https://b"] []
  = (Returned
       {| results := [Instances.news "Alpha beta" "https://a";
                      Instances.news "Gamma delta" "https://b"];
          translatedCount := 0; consecutiveFailures := 2; aborted := true |},
     [ConsoleWarn (TranslationAborted 2);
      ConsoleWarn (TranslateFailed (js "Gamma delta"));
      GetFallback (js "Gamma delta"); GetPrimary (js "Gamma delta");
      ConsoleWarn (TranslateFailed (js "Alpha beta"));
      GetFallback (js "Alpha beta"); GetPrimary (js "Alpha beta")]) ∧
  ∃ h2,
    @translateTitles Instances.asciiEngine Instances.offline
      ([Instances.news "Alpha beta" "https://a"; Instances.news "Gamma delta" "https://b"]
         ++ [Instances.news "Epsilon zeta" "https://c"]) false []
    = (Returned
         ([Instances.news "Alpha beta" "https://a"; Instances.news "Gamma delta" "https://b"]
            ++ [Instances.news "Epsilon zeta" "https://c"]), h2) ∧
    providerCalls h2
    = [GetFallback (js "Gamma delta"); GetPrimary (js "Gamma delta");
       GetFallback (js "Alpha beta"); GetPrimary (js "Alpha beta")].
Proof.
  assert (@translateLoop Instances.asciiEngine Instances.offline false initialState
            [Instances.news "Alpha beta" "https://a";
             Instances.news "Gamma delta" "https://b"] []
          = (Returned
               {| results := [Instances.news "Alpha beta" "https://a";
                              Instances.news "Gamma delta" "https://b"];
                  translatedCount := 0; consecutiveFailures := 2; aborted := true |},
             [ConsoleWarn (TranslationAborted 2);
              ConsoleWarn (TranslateFailed (js "Gamma delta"));
              GetFallback (js "Gamma delta"); GetPrimary (js "Gamma delta");
              ConsoleWarn (TranslateFailed (js "Alpha beta"));
              GetFallback (js "Alpha beta"); GetPrimary (js "Alpha beta")])) as Hpre.
  { vm_compute. reflexivity. }
  split; [exact Hpre|].
  apply (proj1 (@translation_circuit_breaker Instances.asciiEngine Instances.offline) false
           [Instances.news "Alpha beta" "https://a"; Instances.news "Gamma delta" "https://b"]
           [Instances.news "Epsilon zeta" "https://c"] [] _ _ Hpre).
  vm_compute. lia.
Defined.

(** ** [formatNewsMessages] *)

Section FormatNewsMessages.
Context `{Engine} `{World}.

Lemma runningTotal_snoc sections s :
  runningTotal (sections ++ [s])
  = (runningTotal sections + Z.of_nat (length s) + 2)%Z.
Proof.
  induction sections as [|x l IH]; cbn; [lia|]. unfold runningTotal in IH.
  rewrite IH. lia.
Qed.

Lemma splits_exceeds maxS maxC footer st section :
  currentLength st = runningTotal (currentSections st) →
  currentSections st ≠ [] →
  splits maxS maxC footer st section = true ↔ exceeds maxS maxC footer st section.
Proof.
  intros Hlen Hne. unfold splits, wouldExceedChars, wouldExceedCount, exceeds.
  destruct (currentSections st) as [|s l] eqn:E; [done|].
  rewrite Hlen. cbn [length Nat.ltb Nat.leb andb].
  rewrite orb_true_iff, Z.ltb_lt, Z.leb_le. done.
Qed.

Lemma splitStep_split name footer maxS maxC st group :
  splits maxS maxC footer st (formatSourceSection group) = true →
  splitStep name footer maxS maxC st group
  = {| messages := messages st ++ [message name footer st];
       batchIndex := S (batchIndex st);
       currentSections := [formatSourceSection group];
       currentLength := (0 + Z.of_nat (length (formatSourceSection group)) + 2)%Z |}.
Proof. intros Hs. unfold splitStep. by rewrite Hs. Qed.

Lemma splitStep_keep name footer maxS maxC st group :
  splits maxS maxC footer st (formatSourceSection group) = false →
  splitStep name footer maxS maxC st group
  = {| messages := messages st;
       batchIndex := batchIndex st;
       currentSections := currentSections st ++ [formatSourceSection group];
       currentLength :=
         (currentLength st + Z.of_nat (length (formatSourceSection group)) + 2)%Z |}.
Proof. intros Hs. unfold splitStep. by rewrite Hs. Qed.

Lemma splitInv_step name footer maxS maxC processed st group :
  splitInv name footer maxS processed st →
  splitInv name footer maxS (processed ++ [group])
    (splitStep name footer maxS maxC st group).
Proof.
  intros (batches & Hm & Hi & Hne & Hmax & Hcat & Hlen & Hcur).
  destruct (splits maxS maxC footer st (formatSourceSection group)) eqn:Hs.
  - rewrite splitStep_split by done.
    assert (currentSections st ≠ []) as Hcs.
    { unfold splits in Hs. by destruct (currentSections st). }
    exists (batches ++ [currentSections st]). cbn.
    split; [|split; [|split; [|split; [|split; [|split]]]]].
    + rewrite imap_app. cbn. rewrite Hm. f_equal. unfold message, render.
      by rewrite Hi, Nat.add_0_r.
    + rewrite length_app. cbn. lia.
    + apply Forall_app. split; [done|]. by constructor.
    + lia.
    + rewrite concat_app. cbn. rewrite app_nil_r, Hcat, fmap_app. done.
    + lia.
    + done.
  - rewrite splitStep_keep by done. exists batches. cbn.
    split; [done|]. split; [done|]. split; [done|].
    split; [|split; [by rewrite app_assoc, Hcat, fmap_app|
             split; [rewrite runningTotal_snoc; lia|
                     intros _; by destruct (currentSections st)]]].
    rewrite length_app. cbn [length].
    unfold splits, wouldExceedCount in Hs.
    destruct (currentSections st) as [|s0 l0]; [cbn; lia|].
    cbn [length Nat.ltb Nat.leb andb] in Hs.
    apply orb_false_iff in Hs as [_ Hs%Z.leb_gt]. cbn [length] in *. lia.
Qed.

Lemma splitInv_empty name footer maxS : splitInv name footer maxS [] emptySplit.
Proof. exists []. cbn. repeat split; try done; lia. Qed.

Lemma splitInv_foldl name footer maxS maxC l :
  splitInv name footer maxS l
    (foldl (splitStep name footer maxS maxC) emptySplit l).
Proof.
  induction l as [|group l IH] using rev_ind; [apply splitInv_empty|].
  rewrite foldl_snoc. by apply splitInv_step.
Qed.

(** The messages are the batches of whole sections. *)
Lemma splitMessages_batches name footer maxS maxC l :
  l ≠ [] →
  ∃ batches : list (list jsstring),
    concat batches = formatSourceSection <$> l ∧
    Forall (fun b => b ≠ [] ∧ (Z.of_nat (length b) ≤ Z.max 1 maxS)%Z) batches ∧
    splitMessages name footer maxS maxC l = imap (render name footer) batches.
Proof.
  intros Hl. unfold splitMessages.
  destruct (splitInv_foldl name footer maxS maxC l)
    as (batches & Hm & Hi & Hne & Hmax & Hcat & Hlen & Hcur).
  specialize (Hcur Hl).
  set (st := foldl _ _ _) in *.
  exists (batches ++ [currentSections st]).
  split; [|split].
  - rewrite concat_app. cbn. by rewrite app_nil_r.
  - apply Forall_app. split; [done|]. by constructor.
  - unfold finish. destruct (currentSections st) eqn:E; [done|].
    cbn [length Nat.ltb Nat.leb]. rewrite imap_app. cbn. rewrite Hm. f_equal.
    unfold message, render. by rewrite E, Hi, Nat.add_0_r.
Qed.


Lemma formatTime_spec h :
  formatTime h = (Returned (timeText (clockParts h)), FormatToParts :: h).
Proof. done. Qed.

Lemma formatNewsMessages_spec name groups maxS maxC h :
  formatNewsMessages name groups maxS maxC h =
  match nonEmptyGroups groups with
  | [] => (Returned [noData name], h)
  | _ :: _ =>
      (Returned (splitMessages name (footerOf (timeText (clockParts h))) maxS maxC
                   (nonEmptyGroups groups)),
       FormatToParts :: h)
  end.
Proof.
  unfold formatNewsMessages. by destruct (nonEmptyGroups groups).
Qed.

(** Where a list that ends with [y] is cut into a part, an element
    and a part. *)
Lemma snoc_split {A} (xs : list A) (y b : A) (before after : list A) :
  xs ++ [y] = before ++ b :: after →
  (after = [] ∧ xs = before ∧ y = b) ∨
  (∃ after', after = after' ++ [y] ∧ xs = before ++ b :: after').
Proof.
  intros Heq. destruct after as [|a after _] using rev_ind.
  - apply app_inj_tail in Heq as [-> ->]. by left.
  - right. exists after. rewrite app_comm_cons, app_assoc in Heq.
    by apply app_inj_tail in Heq as [-> ->].
Qed.

Lemma snoc_split_pair {A} (xs : list A) (y c d : A) (before after : list A) :
  xs ++ [y] = before ++ c :: d :: after →
  (after = [] ∧ xs = before ++ [c] ∧ y = d) ∨
  (∃ after', after = after' ++ [y] ∧ xs = before ++ c :: d :: after').
Proof.
  intros [(? & _)|(rest & Hafter & ->)]%snoc_split; [done|].
  destruct rest as [|d' rest]; cbn [app] in Hafter.
  - injection Hafter as -> ->. by left.
  - injection Hafter as -> ->. right. by exists rest.
Qed.

Section Cuts.
Context (P : list jsstring → jsstring → Prop).

Lemma cut_first (section : jsstring) : cutExactlyWhere P [[section]].
Proof.
  split.
  - intros before current section' rest after Heq Hne.
    destruct before as [|b before]; [|by destruct before].
    injection Heq as Heq _. destruct current as [|c current]; [done|].
    injection Heq as _ Heq. by destruct current.
  - intros before current section' rest after Heq.
    destruct before as [|b before]; [done|]. by destruct before.
Qed.

(** The current message is closed and the section opens the next. *)
Lemma cut_split (batches : list (list jsstring)) (current : list jsstring)
    (section : jsstring) :
  cutExactlyWhere P (batches ++ [current]) → P current section →
  cutExactlyWhere P ((batches ++ [current]) ++ [[section]]).
Proof.
  intros [Hjoin Hcut] Hp. split.
  - intros before cur s rest after Heq Hne.
    apply snoc_split in Heq as [(_ & _ & Hlast)|(after' & _ & Heq)].
    + destruct cur as [|c cur]; [done|]. injection Hlast as _ Hlast. by destruct cur.
    + by eapply Hjoin.
  - intros before cur s rest after Heq.
    apply snoc_split_pair in Heq as [(_ & Heq & Hlast)|(after' & _ & Heq)].
    + injection Hlast as <- _. by apply app_inj_tail in Heq as [_ <-].
    + by eapply Hcut.
Qed.

(** The section joins the current message. *)
Lemma cut_join (batches : list (list jsstring)) (current : list jsstring)
    (section : jsstring) :
  current ≠ [] →
  cutExactlyWhere P (batches ++ [current]) → ¬ P current section →
  cutExactlyWhere P (batches ++ [current ++ [section]]).
Proof.
  intros Hcur [Hjoin Hcut] Hp. split.
  - intros before cur s rest after Heq Hne.
    apply snoc_split in Heq as [(_ & -> & Hlast)|(after' & -> & ->)].
    + destruct rest as [|r rest _] using rev_ind.
      * apply app_inj_tail in Hlast as [<- <-]. done.
      * rewrite app_comm_cons, app_assoc in Hlast.
        apply app_inj_tail in Hlast as [-> _].
        by apply (Hjoin before cur s rest []).
    + apply (Hjoin before cur s rest (after' ++ [current])); [|done].
      by rewrite <- app_assoc.
  - intros before cur s rest after Heq.
    apply snoc_split_pair in Heq as [(_ & -> & Hlast)|(after' & -> & ->)].
    + destruct current as [|c current]; [done|]. injection Hlast as <- _.
      apply (Hcut before cur c current []). by rewrite <- app_assoc.
    + apply (Hcut before cur s rest (after' ++ [current])). by rewrite <- !app_assoc.
Qed.

End Cuts.

Lemma cutExactlyWhere_iff (P Q : list jsstring → jsstring → Prop) batches :
  (∀ current section, P current section ↔ Q current section) →
  cutExactlyWhere P batches → cutExactlyWhere Q batches.
Proof.
  intros Hiff [Hjoin Hcut]. split.
  - intros before current section rest after Heq Hne HQ.
    by eapply Hjoin; [| |apply Hiff].
  - intros before current section rest after Heq. by eapply Hiff, Hcut.
Qed.

(** The state of the loop after the groups [l]: the messages closed
    and the current sections are the sections of [l] in order, cut
    exactly where the condition of the loop held. *)
Lemma splitCut_foldl name footer maxS maxC l :
  let st := foldl (splitStep name footer maxS maxC) emptySplit l in
  ∃ batches : list (list jsstring),
    messages st = imap (render name footer) batches ∧
    batchIndex st = length batches ∧
    Forall (fun b => b ≠ []) batches ∧
    concat batches ++ currentSections st = formatSourceSection <$> l ∧
    currentLength st = runningTotal (currentSections st) ∧
    (l ≠ [] → currentSections st ≠ []) ∧
    (l = [] → batches = [] ∧ currentSections st = []) ∧
    (l ≠ [] → cutExactlyWhere (closes maxS maxC footer) (batches ++ [currentSections st])).
Proof.
  induction l as [|group l IH] using rev_ind.
  { exists []. by split_and!. }
  cbv zeta in *. rewrite foldl_snoc.
  set (st := foldl (splitStep name footer maxS maxC) emptySplit l) in *.
  destruct IH as (batches & Hm & Hi & Hne & Hcat & Hlen & Hcur & Hnil & Hcuts).
  assert (group :: l ≠ [] ∧ l ++ [group] ≠ []) as [_ Hsnoc] by (split; [done|by destruct l]).
  destruct (splits maxS maxC footer st (formatSourceSection group)) eqn:Hs.
  - assert (currentSections st ≠ []) as Hcs.
    { unfold splits in Hs. by destruct (currentSections st). }
    assert (l ≠ []) as Hl by (intros ->; by destruct (Hnil eq_refl)).
    rewrite splitStep_split by done.
    exists (batches ++ [currentSections st]). cbn [messages batchIndex currentSections
                                                    currentLength].
    split_and!.
    + rewrite imap_app. cbn [imap]. rewrite Hm. f_equal. unfold message, render.
      by rewrite Hi, Nat.add_0_r.
    + rewrite length_app. cbn [length]. lia.
    + apply Forall_app. split; [done|]. by constructor.
    + rewrite concat_app. cbn [concat]. rewrite app_nil_r, Hcat, fmap_app. done.
    + unfold runningTotal. cbn [foldr]. lia.
    + done.
    + done.
    + intros _. apply cut_split; [by apply Hcuts|].
      by apply (splits_exceeds maxS maxC footer st).
  - rewrite splitStep_keep by done. exists batches.
    cbn [messages batchIndex currentSections currentLength].
    split_and!; [done|done|done| | | | |].
    + by rewrite app_assoc, Hcat, fmap_app.
    + rewrite runningTotal_snoc. lia.
    + intros _. by destruct (currentSections st).
    + done.
    + intros _. destruct l as [|g l'] eqn:Hl.
      * destruct (Hnil eq_refl) as [-> ->]. cbn [app]. apply cut_first.
      * apply cut_join; [by apply Hcur|by apply Hcuts|].
        intros Hex. apply (splits_exceeds maxS maxC footer st) in Hex; [|done|by apply Hcur].
        congruence.
Qed.

(** The messages are the batches of whole sections, cut exactly where
    the condition of the loop held. *)
Lemma splitMessages_cut name footer maxS maxC l :
  l ≠ [] →
  ∃ batches : list (list jsstring),
    splitMessages name footer maxS maxC l = imap (render name footer) batches ∧
    concat batches = formatSourceSection <$> l ∧
    Forall (fun b => b ≠ []) batches ∧
    cutExactlyWhere (closes maxS maxC footer) batches.
Proof.
  intros Hl. unfold splitMessages.
  destruct (splitCut_foldl name footer maxS maxC l)
    as (batches & Hm & Hi & Hne & Hcat & Hlen & Hcur & _ & Hcuts).
  specialize (Hcur Hl). specialize (Hcuts Hl).
  set (st := foldl _ _ _) in *.
  exists (batches ++ [currentSections st]). split_and!.
  - unfold finish. destruct (currentSections st) eqn:E; [done|].
    cbn [length Nat.ltb Nat.leb]. rewrite imap_app. cbn [imap]. rewrite Hm. f_equal.
    unfold message, render. by rewrite E, Hi, Nat.add_0_r.
  - rewrite concat_app. cbn [concat]. by rewrite app_nil_r.
  - apply Forall_app. split; [done|]. by constructor.
  - done.
Qed.

(** C4.  With the default limits, when some group has items, the
    messages [formatNewsMessages] returns are made of batches of
    sections: message number i is the header, the sections of batch i and
    the footer.  The batches put end to end are the sections of the
    groups with items, in order, and no batch is empty: a section is
    never divided, whatever its length, and nothing is split before the
    first group.  The batches are cut exactly where the condition of the
    claim holds.  A section that follows others in its message would not
    bring the running total (the length of every section plus 2) past
    4500 less the length of the footer less 30, and joined fewer than 3
    sections.  A section that opens a later message would have brought
    the running total of the message before it past that budget, or that
    message has 3 sections. *)
Theorem formatNewsMessages_split (categoryName : jsstring) (groups : list SourceGroup)
    (h : history) :
  nonEmptyGroups groups ≠ [] →
  let footer := footerOf (timeText (clockParts h)) in
  ∃ batches : list (list jsstring),
    formatNewsMessages categoryName groups defaultMaxSourcesPerMsg defaultMaxChars h
    = (Returned (imap (render categoryName footer) batches), FormatToParts :: h) ∧
    concat batches = formatSourceSection <$> nonEmptyGroups groups ∧
    Forall (fun b => b ≠ []) batches ∧
    cutExactlyWhere (startsNewMessage footer) batches.
Proof.
  intros Hgroups footer.
  destruct (splitMessages_cut categoryName footer defaultMaxSourcesPerMsg defaultMaxChars
              (nonEmptyGroups groups) Hgroups) as (batches & Hsplit & Hcat & Hne & Hcuts).
  exists batches. split_and!; [|done|done|].
  - rewrite formatNewsMessages_spec. fold footer. rewrite Hsplit.
    by destruct (nonEmptyGroups groups).
  - eapply cutExactlyWhere_iff; [|exact Hcuts]. intros current section.
    unfold closes, startsNewMessage.
    change defaultMaxSourcesPerMsg with 3%Z. change defaultMaxChars with 4500%Z. lia.
Qed.


Lemma js_dash : js "-" = [0x2D].
Proof. by vm_compute. Qed.

Lemma js_colon : js ":" = [0x3A].
Proof. by vm_compute. Qed.

Lemma isDigits_2 s :
  isDigits 2 s = true → ∃ a b, s = [a; b] ∧ isDigit a = true ∧ isDigit b = true.
Proof.
  unfold isDigits. intros [Hl Hd]%andb_true_iff.
  destruct s as [|a [|b [|c s]]]; try discriminate.
  cbn in Hd. apply andb_true_iff in Hd as [Ha Hb%andb_true_iff]. naive_solver.
Qed.

Lemma isDigits_4 s :
  isDigits 4 s = true →
  ∃ a b c d, s = [a; b; c; d] ∧ isDigit a = true ∧ isDigit b = true
             ∧ isDigit c = true ∧ isDigit d = true.
Proof.
  unfold isDigits. intros [Hl Hd]%andb_true_iff.
  destruct s as [|a [|b [|c [|d [|e s]]]]]; try discriminate.
  cbn in Hd. repeat (apply andb_true_iff in Hd as [? Hd]). naive_solver.
Qed.

Lemma timeText_format parts :
  wellFormedClock parts = true → isTimestamp (timeText parts) = true.
Proof.
  unfold wellFormedClock, timeText.
  intros [[[[Hy Hm]%andb_true_iff Hd]%andb_true_iff Hh]%andb_true_iff Hi]%andb_true_iff.
  apply isDigits_4 in Hy as (y1 & y2 & y3 & y4 & -> & ? & ? & ? & ?).
  apply isDigits_2 in Hm as (m1 & m2 & -> & ? & ?).
  apply isDigits_2 in Hd as (d1 & d2 & -> & ? & ?).
  apply isDigits_2 in Hh as (h1 & h2 & -> & ? & ?).
  apply isDigits_2 in Hi as (i1 & i2 & -> & ? & ?).
  rewrite js_dash, js_colon. unfold space. cbn [app isTimestamp forallb].
  repeat match goal with Hx : isDigit _ = true |- _ => rewrite Hx; clear Hx end.
  done.
Qed.

Lemma render_endsWithFooter name time i batch :
  endsWithFooter time (render name (footerOf time) i batch).
Proof.
  unfold render, footerOf. exists (header name i ++ nl ++ join (nl ++ nl) batch).
  by rewrite <- !app_assoc.
Qed.

Lemma isTimestamp_last s :
  isTimestamp s = true → ∃ c, last s = Some c ∧ isDigit c = true.
Proof.
  unfold isTimestamp.
  destruct s as [|? [|? [|? [|? [|? [|? [|? [|? [|? [|? [|? [|? [|? [|? [|? [|c [|]]]]]]]]]]]]]]]]];
    try discriminate.
  intros Ht. exists c. split; [done|].
  do 4 (apply andb_true_iff in Ht as [Ht _]).
  cbn [forallb] in Ht. do 11 (apply andb_true_iff in Ht as [_ Ht]).
  by apply andb_true_iff in Ht as [Ht _].
Qed.

(** C8, amended.  When no group has items, [formatNewsMessages]
    returns the single message made of the header of the category and
    the no-data sentence, without reading the clock and without footer.
    When some group has items it reads the clock once and every message
    it returns ends with the footer line carrying that time, which has
    the format YYYY-MM-DD HH:mm whenever the formatter yields a year of
    four digits and two digits for month, day, hour and minute. *)
Theorem formatNewsMessages_footer (categoryName : jsstring) (groups : list SourceGroup)
    (maxSourcesPerMsg maxChars : Z) (h : history) :
  (nonEmptyGroups groups = [] →
     formatNewsMessages categoryName groups maxSourcesPerMsg maxChars h
     = (Returned [js "## " ++ categoryName ++ nl ++ nl ++ js "暂无新闻数据。"], h)) ∧
  (nonEmptyGroups groups ≠ [] →
     ∃ msgs : list jsstring,
       formatNewsMessages categoryName groups maxSourcesPerMsg maxChars h
       = (Returned msgs, FormatToParts :: h) ∧
       msgs ≠ [] ∧
       Forall (endsWithFooter (timeText (clockParts h))) msgs ∧
       (wellFormedClock (clockParts h) = true →
        isTimestamp (timeText (clockParts h)) = true)).
Proof.
  rewrite formatNewsMessages_spec. split.
  - by intros ->.
  - intros Hne. destruct (nonEmptyGroups groups) as [|g l] eqn:E; [done|].
    eexists. split; [done|].
    destruct (splitMessages_batches categoryName (footerOf (timeText (clockParts h)))
                maxSourcesPerMsg maxChars (g :: l)) as (bs & Hcat & Hbs & ->); [done|].
    split; [|split; [|apply timeText_format]].
    + destruct bs; [done|]. done.
    + apply Forall_forall. intros msg (i & b & -> & _)%elem_of_lookup_imap.
      apply render_endsWithFooter.
Qed.

End FormatNewsMessages.

(** C8, as stated, fails: with no group the only message is the header
    and the no-data sentence, and it does not end with a time in the
    format YYYY-MM-DD HH:mm (its last character is the ideographic full
    stop). *)
Lemma no_data_message_without_footer :
  @formatNewsMessages Instances.offline
    (js "Foo") [] defaultMaxSourcesPerMsg defaultMaxChars []
  = (Returned [js "## Foo" ++ nl ++ nl ++ js "暂无新闻数据。"], []) ∧
  ¬ ∃ body time,
      isTimestamp time = true ∧
      js "## Foo" ++ nl ++ nl ++ js "暂无新闻数据。" = body ++ time.
Proof.
  split; [by vm_compute|].
  intros (body & time & Ht & Hmsg).
  apply isTimestamp_last in Ht as (c & Hlast & Hc).
  apply (f_equal last) in Hmsg. rewrite (last_app body time), Hlast in Hmsg.
  vm_compute in Hmsg. injection Hmsg as <-. by vm_compute in Hc.
Qed.

Lemma formatNewsMessages_footer_witness :
  nonEmptyGroups [Instances.group "A" "t1" "l1"] ≠ [] ∧
  wellFormedClock (@clockParts Instances.offline []) = true ∧
  ∃ msgs : list jsstring,
    @formatNewsMessages Instances.offline (js "Foo")
      [Instances.group "A" "t1" "l1"] 3 4500 []
    = (Returned msgs, [FormatToParts]) ∧
    msgs ≠ [] ∧
    Forall (endsWithFooter (js "2026-11-02 09:05")) msgs ∧
    isTimestamp (js "2026-11-02 09:05") = true.
Proof.
  assert (nonEmptyGroups [Instances.group "A" "t1" "l1"] ≠ []) as Hne by by vm_compute.
  assert (wellFormedClock (@clockParts Instances.offline []) = true) as Hclock
    by by vm_compute.
  split; [exact Hne|]. split; [exact Hclock|].
  destruct (proj2 (@formatNewsMessages_footer Instances.offline
                     (js "Foo") [Instances.group "A" "t1" "l1"] 3 4500 []) Hne)
    as (msgs & Hrun & Hmsgs & Hfooter & Hformat).
  exists msgs. split; [exact Hrun|]. split; [exact Hmsgs|].
  split; [exact Hfooter|exact (Hformat Hclock)].
Defined.


Lemma formatNewsMessages_split_witness :
  nonEmptyGroups [Instances.group "A" "t1" "l1"; Instances.group "B" "t2" "l2";
                  Instances.group "C" "t3" "l3"; Instances.group "D" "t4" "l4"] ≠ [] ∧
  ∃ batches : list (list jsstring),
    @formatNewsMessages Instances.offline (js "Foo")
      [Instances.group "A" "t1" "l1"; Instances.group "B" "t2" "l2";
       Instances.group "C" "t3" "l3"; Instances.group "D" "t4" "l4"]
      defaultMaxSourcesPerMsg defaultMaxChars []
    = (Returned (imap (render (js "Foo")
                         (footerOf (timeText (@clockParts Instances.offline []))))
                   batches),
       [FormatToParts]) ∧
    concat batches
    = formatSourceSection
        <$> nonEmptyGroups [Instances.group "A" "t1" "l1"; Instances.group "B" "t2" "l2";
                            Instances.group "C" "t3" "l3"; Instances.group "D" "t4" "l4"] ∧
    Forall (fun b => b ≠ []) batches ∧
    cutExactlyWhere
      (startsNewMessage (footerOf (timeText (@clockParts Instances.offline [])))) batches.
Proof.
  assert (nonEmptyGroups [Instances.group "A" "t1" "l1"; Instances.group "B" "t2" "l2";
                          Instances.group "C" "t3" "l3"; Instances.group "D" "t4" "l4"]
          ≠ []) as Hne by done.
  split; [exact Hne|].
  exact (@formatNewsMessages_split Instances.offline (js "Foo")
           [Instances.group "A" "t1" "l1"; Instances.group "B" "t2" "l2";
            Instances.group "C" "t3" "l3"; Instances.group "D" "t4" "l4"] [] Hne).
Defined.

(** Four small groups: the fourth starts a continuation message. *)
Example four_groups_two_messages :
  (@formatNewsMessages Instances.offline (js "Foo")
     [Instances.group "A" "t1" "l1"; Instances.group "B" "t2" "l2";
      Instances.group "C" "t3" "l3"; Instances.group "D" "t4" "l4"]
     defaultMaxSourcesPerMsg defaultMaxChars []).1
  = Returned
      [js "## Foo" ++ nl ++ js "### A" ++ nl ++ nl ++ js "1. [t1](l1)" ++ nl ++ nl
         ++ js "### B" ++ nl ++ nl ++ js "1. [t2](l2)" ++ nl ++ nl
         ++ js "### C" ++ nl ++ nl ++ js "1. [t3](l3)"
         ++ nl ++ nl ++ js "> 更新时间：2026-11-02 09:05";
       js "## Foo（续）" ++ nl ++ js "### D" ++ nl ++ nl ++ js "1. [t4](l4)"
         ++ nl ++ nl ++ js "> 更新时间：2026-11-02 09:05"].
Proof. by vm_compute. Qed.


(** Three groups that fit one by one and not together: the third starts
    a continuation message.  A group larger than the budget stays whole. *)
Example wide_groups_message_lengths :
  ((fun msg => N.of_nat (length msg)) <$>
     default [] (outcomeValue (@formatNewsMessages Instances.offline (js "Foo")
       [Instances.wideGroup "A" 2000; Instances.wideGroup "B" 2000;
        Instances.wideGroup "C" 2000]
       defaultMaxSourcesPerMsg defaultMaxChars []).1)) = [4064; 2050] ∧
  ((fun msg => N.of_nat (length msg)) <$>
     default [] (outcomeValue (@formatNewsMessages Instances.offline (js "Foo")
       [Instances.wideGroup "A" 5000; Instances.wideGroup "B" 20]
       defaultMaxSourcesPerMsg defaultMaxChars []).1)) = [5047; 70].
Proof. split; by vm_compute. Qed.

(** ** [fetchSingleRssSource] *)

Section FetchSingleRssSource.
Context `{Engine} `{World}.

Lemma fetchSingleFeed_spec name url h :
  ∃ h', fetchSingleFeed name url h = (Returned (feedList name (rssFeed h url)), h').
Proof.
  unfold fetchSingleFeed, feedList, tryCatch, ask, mbind, IO_bind, ioBind.
  destruct (rssFeed h url); eexists; done.
Qed.

Lemma feedList_titles_links name reply :
  Forall (fun item => title item ≠ [] ∧ link item ≠ []) (feedList name reply).
Proof.
  apply Forall_forall. intros item Hin. unfold feedList in Hin.
  destruct reply as [feedItems|]; [|by apply elem_of_nil in Hin].
  apply list_elem_of_In, filter_In in Hin as [_ Hok].
  unfold hasTitleAndLink in Hok. apply andb_true_iff in Hok as [Ht Hl].
  by destruct (title item), (link item).
Qed.

(** [uniqueByLink] keeps the first item of each link not seen yet. *)
Lemma uniqueByLink_spec seen l :
  sublist (uniqueByLink seen l) l ∧
  NoDup (link <$> uniqueByLink seen l) ∧
  ∀ item, item ∈ uniqueByLink seen l →
          (link item ∉ seen) ∧ firstWithLink l item.
Proof.
  revert seen. induction l as [|x l IH]; intros seen; cbn [uniqueByLink].
  { split; [done|]. split; [constructor|]. intros item Hin.
    by apply elem_of_nil in Hin. }
  case_bool_decide as Hx.
  - destruct (IH seen) as (Hsub & Hnd & Hfirst).
    split; [by apply sublist_cons|]. split; [done|].
    intros item Hin. destruct (Hfirst item Hin) as (Hns & l1 & l2 & -> & Hl1).
    split; [done|]. exists (x :: l1), l2. split; [done|].
    cbn. rewrite elem_of_cons. intros [Heq|?]; [congruence|done].
  - destruct (IH ({[link x]} ∪ seen)) as (Hsub & Hnd & Hfirst).
    split; [by apply sublist_skip|]. split.
    + cbn. apply NoDup_cons. split; [|done].
      intros (item & Hlink & Hin)%list_elem_of_fmap.
      destruct (Hfirst item Hin) as [Hns _]. set_solver.
    + intros item [->|Hin]%elem_of_cons.
      * split; [done|]. exists [], l. split; [done|]. cbn. apply not_elem_of_nil.
      * destruct (Hfirst item Hin) as (Hns & l1 & l2 & -> & Hl1).
        split; [set_solver|]. exists (x :: l1), l2. split; [done|].
        cbn. rewrite elem_of_cons. intros [Heq|?]; [|done]. set_solver.
Qed.

Lemma insertSorted_perm cmp x l : insertSorted cmp x l ≡ₚ x :: l.
Proof.
  induction l as [|y l IH]; cbn [insertSorted]; [done|].
  destruct (sortCompare cmp x y <=? 0)%Z; [done|].
  rewrite IH. apply Permutation_swap.
Qed.

Lemma sort_perm cmp l : RssSource.sort cmp l ≡ₚ l.
Proof.
  unfold RssSource.sort. induction l as [|x l IH]; cbn [foldr]; [done|].
  by rewrite insertSorted_perm, IH.
Qed.

Lemma sortCompare_valid a b :
  pubDate a ≠ Some NaN → pubDate b ≠ Some NaN →
  sortCompare byTimeDescending a b = (sortKey b - sortKey a)%Z.
Proof.
  unfold sortCompare, byTimeDescending, sortKey, timeOf, minus.
  destruct (pubDate a) as [[|ta]|], (pubDate b) as [[|tb]|]; done.
Qed.

Lemma insertSorted_sorted x l :
  datesValid (x :: l) →
  StronglySorted newerOrEqual l →
  StronglySorted newerOrEqual (insertSorted byTimeDescending x l).
Proof.
  intros Hvalid Hsorted.
  induction Hsorted as [|y l Hl IH Hy]; cbn [insertSorted].
  { repeat constructor. }
  apply Forall_cons in Hvalid as [Hx [Hvy Hvl]%Forall_cons].
  rewrite sortCompare_valid by done.
  destruct (sortKey y - sortKey x <=? 0)%Z eqn:E.
  - apply Z.leb_le in E. constructor; [by constructor|].
    constructor; [unfold newerOrEqual; lia|].
    eapply Forall_impl; [exact Hy|]. unfold newerOrEqual. intros z ?. lia.
  - apply Z.leb_gt in E. constructor.
    + apply IH. by constructor.
    + rewrite insertSorted_perm. constructor; [unfold newerOrEqual; lia|done].
Qed.

Lemma sort_sorted l :
  datesValid l → StronglySorted newerOrEqual (RssSource.sort byTimeDescending l).
Proof.
  unfold RssSource.sort. induction l as [|x l IH]; intros Hvalid; cbn [foldr].
  { constructor. }
  pose proof Hvalid as [Hx Hl]%Forall_cons.
  apply insertSorted_sorted; [|by apply IH].
  constructor; [done|]. fold (RssSource.sort byTimeDescending l).
  unfold datesValid. by rewrite sort_perm.
Qed.

Lemma StronglySorted_take {A} (R : relation A) n l :
  StronglySorted R l → StronglySorted R (take n l).
Proof.
  intros Hs. revert n. induction Hs as [|x l Hl IH Hx]; intros [|n]; cbn;
    try constructor; [apply IH|].
  eapply Forall_forall. intros y Hy. rewrite Forall_forall in Hx. apply Hx.
  eapply elem_of_sublist; [exact Hy|apply sublist_take].
Qed.


(** [fetchSingleRssSource] returns, whatever the parser answers. *)
Lemma fetchSingleRssSource_returns (name url : jsstring) (n : nat) (h : history) :
  ∃ (out : list NewsItem) (h' : history),
    fetchSingleRssSource name url n h = (Returned out, h').
Proof.
  destruct (fetchSingleFeed_spec name url h) as [h' Hfeed].
  unfold fetchSingleRssSource, mbind, IO_bind, ioBind. rewrite Hfeed.
  by eexists _, _.
Qed.

(** C10, amended.  [fetchSingleRssSource] returns (it does not throw)
    at most [n] items; each has a non-empty title and a non-empty link;
    the links are pairwise distinct and each item is the first item of the
    feed with its link; when the feed cannot be fetched or parsed the list
    is empty.  When no item carries an invalid date, the list is in
    descending order of the time value, an item without a date counting
    as time 0 (the epoch of 1970). *)
Theorem fetchSingleRssSource_spec (name url : jsstring) (n : nat) (h : history) :
  ∃ (out : list NewsItem) (h' : history),
    fetchSingleRssSource name url n h = (Returned out, h') ∧
    (length out ≤ n)%nat ∧
    Forall (fun item => title item ≠ [] ∧ link item ≠ []) out ∧
    NoDup (link <$> out) ∧
    Forall (firstWithLink (feedList name (rssFeed h url))) out ∧
    (rssFeed h url = None → out = []) ∧
    (datesValid (feedList name (rssFeed h url)) →
     StronglySorted newerOrEqual out).
Proof.
  destruct (fetchSingleFeed_spec name url h) as [h' Hfeed].
  unfold fetchSingleRssSource, mbind, IO_bind, ioBind. rewrite Hfeed.
  set (fetched := feedList name (rssFeed h url)).
  destruct (uniqueByLink_spec ∅ fetched) as (Hsub & Hnd & Hfirst).
  set (unique := uniqueByLink ∅ fetched) in *.
  set (sorted := RssSource.sort byTimeDescending unique).
  assert (sorted ≡ₚ unique) as Hperm by apply sort_perm.
  assert (take n sorted ⊆ unique) as Hin.
  { intros x Hx. rewrite <- Hperm.
    by apply (sublist_subseteq _ _ (sublist_take sorted n)). }
  eexists _, _. split; [done|].
  split; [rewrite length_take; lia|]. split; [|split; [|split; [|split]]].
  - apply Forall_forall. intros item Hitem%Hin.
    pose proof (feedList_titles_links name (rssFeed h url)) as Hall.
    rewrite Forall_forall in Hall. apply Hall.
    by apply (sublist_subseteq _ _ Hsub).
  - rewrite fmap_take. eapply sublist_NoDup; [|apply sublist_take].
    by rewrite Hperm.
  - apply Forall_forall. intros item Hitem%Hin. by apply Hfirst.
  - intros Hnone. subst sorted unique fetched. rewrite Hnone. apply take_nil.
  - intros Hvalid. apply StronglySorted_take, sort_sorted.
    unfold datesValid in *. rewrite Forall_forall in *.
    intros item Hitem. apply Hvalid. by apply (sublist_subseteq _ _ Hsub).
Qed.

End FetchSingleRssSource.


(** C10, as stated, fails: an item without a date is ordered as
    published in 1970, so it comes before an item dated 1969. *)
Lemma undated_item_before_older_item :
  (@fetchSingleRssSource Instances.asciiEngine
     (Instances.withFeed [Instances.entry "undated" "https://a" None;
                   Instances.entry "old" "https://b" (Some "1969-12-31T23:59:59Z")])
     (js "feed") (js "https://feed") 5 []).1
  = Returned [Instances.dated "undated" "https://a" None;
              Instances.dated "old" "https://b" (Some (Time (-1000)))] ∧
  ¬ newestFirstUndatedLast
      [Instances.dated "undated" "https://a" None;
       Instances.dated "old" "https://b" (Some (Time (-1000)))].
Proof.
  split; [by vm_compute|].
  intros Hord. exact (Hord 0%nat 1%nat _ _ (Nat.lt_0_1) eq_refl eq_refl).
Qed.

(** With an unparsable date in between, two dated items stay in the
    order of the feed, the older one first. *)
Example invalid_date_breaks_order :
  (@fetchSingleRssSource Instances.asciiEngine
     (Instances.withFeed [Instances.entry "first" "https://a" (Some "2024-01-01T00:00:00Z");
                   Instances.entry "odd" "https://b" (Some "not a date");
                   Instances.entry "second" "https://c" (Some "2024-01-02T00:00:00Z")])
     (js "feed") (js "https://feed") 5 []).1
  = Returned [Instances.dated "first" "https://a" (Some (Time 1704067200000));
              Instances.dated "odd" "https://b" (Some NaN);
              Instances.dated "second" "https://c" (Some (Time 1704153600000))].
Proof. by vm_compute. Qed.

Lemma fetchSingleRssSource_spec_witness :
  datesValid (@feedList Instances.asciiEngine (js "feed")
                (@rssFeed (Instances.withFeed
                   Instances.sampleFeed)
                   [] (js "https://feed"))) ∧
  ∃ out,
    (@fetchSingleRssSource Instances.asciiEngine
       (Instances.withFeed
          Instances.sampleFeed)
       (js "feed") (js "https://feed") 2 []).1 = Returned out ∧
    StronglySorted newerOrEqual out.
Proof.
  assert (datesValid (@feedList Instances.asciiEngine (js "feed")
                (@rssFeed (Instances.withFeed
                   Instances.sampleFeed)
                   [] (js "https://feed")))) as Hvalid.
  { vm_compute. repeat constructor; discriminate. }
  split; [exact Hvalid|].
  destruct (@fetchSingleRssSource_spec Instances.asciiEngine
              (Instances.withFeed
                 Instances.sampleFeed)
              (js "feed") (js "https://feed") 2 [])
    as (out & h' & Hrun & _ & _ & _ & _ & _ & Hsorted).
  exists out. split; [by rewrite Hrun|]. exact (Hsorted Hvalid).
Defined.

Example rss_newest_first :
  (@fetchSingleRssSource Instances.asciiEngine
       (Instances.withFeed
          Instances.sampleFeed)
       (js "feed") (js "https://feed") 2 []).1
  = Returned [Instances.dated "second" "https://c" (Some (Time 1704153600000));
              Instances.dated "first" "https://a" (Some (Time 1704067200000))].
Proof. by vm_compute. Qed.


(** ** [dispatch] *)

Section Dispatch.
Context `{Engine} `{World}.

Lemma forEach_total {S A} (body : S → A → IO S) :
  (∀ s x h, ∃ s' h', body s x h = (Returned s', h')) →
  ∀ l s h, ∃ s' h', forEach body s l h = (Returned s', h').
Proof.
  intros Hbody l. induction l as [|x l IH]; intros s h; [by eexists _, _|].
  cbn [forEach]. unfold mbind, IO_bind, ioBind.
  destruct (Hbody s x h) as (s1 & h1 & ->). apply IH.
Qed.

Lemma sendOne_spec adapter msg h :
  sendOne adapter () msg h = (Returned (), Sleep 1000 :: SendMarkdown adapter msg :: h).
Proof.
  unfold sendOne, sendMarkdown. io.
  by destruct (webhookAccepts h adapter msg).
Qed.

Lemma sendAll_spec adapter msgs h :
  forEach (sendOne adapter) () msgs h
  = (Returned (), reverse (sendEvents adapter msgs) ++ h).
Proof.
  revert h. induction msgs as [|msg msgs IH]; intros h; [done|].
  cbn [forEach]. unfold mbind, IO_bind, ioBind. rewrite sendOne_spec, IH.
  unfold sendEvents. cbn [flat_map app]. rewrite !reverse_cons, <- !app_assoc. done.
Qed.

Lemma delivery_spec webhookAdapters msgs ids h :
  forEach (sendToWebhook webhookAdapters msgs) () ids h
  = (Returned (), reverse (deliveryEvents webhookAdapters msgs ids) ++ h).
Proof.
  revert h. induction ids as [|webhookId ids IH]; intros h; [done|].
  cbn [forEach]. unfold mbind, IO_bind, ioBind.
  unfold sendToWebhook at 1, deliveryEvents. cbn [flat_map].
  rewrite reverse_app, <- app_assoc.
  destruct (webhookAdapters !! webhookId) as [adapter|].
  - rewrite sendAll_spec. apply IH.
  - unfold consoleWarn, emit. apply IH.
Qed.

Lemma createWebhookAdapter_spec name config h :
  (supportedType (webhookType config) ∧
   ∃ adapter, createWebhookAdapter name config h = (Returned adapter, h)) ∨
  (¬ supportedType (webhookType config) ∧
   createWebhookAdapter name config h
   = (Thrown (UnsupportedWebhookType (webhookType config)), h)).
Proof.
  unfold createWebhookAdapter, supportedType.
  repeat case_bool_decide; [left|left|right]; (split; [tauto|]); eauto.
Qed.

Lemma createAdapters_acc (entries : list (jsstring * WebhookConfig))
    (acc : gmap jsstring WebhookAdapter) h :
  Forall (fun entry => supportedType (webhookType (snd entry))) entries →
  ∃ webhookAdapters,
    forEach
      (fun (webhookAdapters : gmap jsstring WebhookAdapter) entry =>
         adapter ← createWebhookAdapter (fst entry) (snd entry);
         mret (<[fst entry := adapter]> webhookAdapters))
      acc entries h
    = (Returned webhookAdapters, h).
Proof.
  intros Hall. revert acc.
  induction Hall as [|entry entries Hentry Hall IH]; intros acc; [by eexists|].
  cbn [forEach]. unfold mbind at 1, IO_bind, ioBind.
  unfold mbind at 1, IO_bind, ioBind.
  destruct (createWebhookAdapter_spec (fst entry) (snd entry) h)
    as [[_ [adapter ->]]|[Hno _]]; [|done].
  apply IH.
Qed.

Lemma createAdapters_supported config h :
  supported config →
  ∃ webhookAdapters, createAdapters (webhooks config) h = (Returned webhookAdapters, h).
Proof. apply createAdapters_acc. Qed.




Lemma bind_returned {A B} (m : IO A) (f : A → IO B) h a h' :
  m h = (Returned a, h') → (m ≫= f) h = f a h'.
Proof. intros Hm. unfold mbind, IO_bind, ioBind. by rewrite Hm. Qed.

Ltac returned :=
  first
    [ solve [eauto]
    | solve [cbv beta iota delta [consoleWarn consoleLog emit ask mbind mret IO_bind
                                  IO_ret ioBind ioRet];
             repeat eexists] ].

Lemma fetchSource_total category s h :
  ∃ r h', fetchSource category s h = (Returned r, h').
Proof.
  destruct s as [name url| | | |]; cbn [fetchSource];
    try (unfold fetchHot; returned).
  destruct (fetchSingleRssSource_returns name url (count category) h)
    as (out & h' & Hrun).
  erewrite bind_returned by exact Hrun. returned.
Qed.

Lemma sourceStep_total config localFilter category st s h :
  ∃ st' h', sourceStep config localFilter category st s h = (Returned st', h').
Proof.
  unfold sourceStep.
  destruct (fetchSource_total category s h) as ([sourceName fetched] & h1 & Hfetch).
  erewrite bind_returned by exact Hfetch. cbv beta iota.
  destruct (length fetched =? 0)%nat; [returned|].
  destruct (length (Deduplicator.applyKeywordFilter fetched localFilter) =? 0)%nat;
    [returned|].
  destruct (Deduplicator.filter st.2 _ _) as [unique seen'].
  unfold consoleLog. erewrite bind_returned by reflexivity.
  destruct (length unique =? 0)%nat; [returned|].
  destruct (shouldTranslate config && isRss s).
  - destruct (translateTitles_returns unique false
                (ConsoleLog (SourceFetched sourceName
                   (length (Deduplicator.applyKeywordFilter fetched localFilter))
                   (length (Deduplicator.applyKeywordFilter fetched localFilter)
                    - length unique)) :: h1))
      as (out & h2 & Hrun).
    erewrite bind_returned by exact Hrun. returned.
  - returned.
Qed.

















End Dispatch.




(** The run of the witness, event by event (the earliest first): the
    unknown category is skipped, the send to the webhook fails and is
    followed by the pause, the webhook without adapter is skipped, and the
    run completes. *)
Example dispatch_trace :
  let r := @dispatch Instances.asciiEngine Instances.failingWebhooks Instances.sampleConfig
             [js "unknown"; js "tech"] Instances.noFilter [] in
  r.1 = Returned () ∧
  reverse r.2
  = [ConsoleWarn (UnknownCategory (js "unknown"));
     ConsoleLog (Fetching (js "Tech"));
     ParseURL (js "https://feed");
     ConsoleLog (SourceFetched (js "feed") 1 0);
     FormatToParts;
     SendMarkdown (WpsTeamsWebhook (js "ops") (js "https://hook"))
       (js "## Tech" ++ nl ++ js "### feed" ++ nl ++ nl ++ js "1. [Title](https://a)"
        ++ nl ++ nl ++ js "> 更新时间：2026-11-02 09:05");
     Sleep 1000;
     ConsoleWarn (WebhookNotFound (js "missing"));
     ConsoleLog AllDone].
Proof. split; by vm_compute. Qed.

(** A category id that names a method of every object: the function is
    announced under its name, reading its sources throws, and the
    category after it is not processed. *)
Example dispatch_inherited_id :
  @dispatch Instances.asciiEngine Instances.failingWebhooks Instances.sampleConfig
    [js "toString"; js "tech"] Instances.noFilter []
  = (Thrown TypeError, [ConsoleLog (Fetching (js "toString"))]).
Proof. by vm_compute. Qed.

(** A GitHub language that is a lone surrogate: the URL cannot be
    built. *)
Example dispatch_lone_surrogate :
  @dispatch Instances.asciiEngine Instances.failingWebhooks Instances.trendingConfig
    [js "github"] Instances.noFilter []
  = (Thrown URIError, [ConsoleLog (Fetching (js "GitHub"))]).
Proof. by vm_compute. Qed.

(** * Further properties of the code *)

(** ** dispatcher.ts: the keyword filter and the title deduplicator *)

Section KeywordFilter.

Lemma startsWith_spec s p : startsWith s p = true ↔ ∃ post, s = p ++ post.
Proof.
  revert s. induction p as [|c p IH]; intros s; simpl.
  - destruct s; simpl; (split; [intros _; by eexists|done]).
  - destruct s as [|d s]; simpl.
    + split; [done|]. intros [post Hpost]. discriminate.
    + rewrite andb_true_iff, bool_decide_eq_true, IH. split.
      * intros [-> [post ->]]. by exists post.
      * intros [post Hpost]. injection Hpost as -> ->. split; [done|]. by exists post.
Qed.

Lemma includes_spec s p : includes s p = true ↔ occursIn p s.
Proof.
  unfold occursIn. induction s as [|d s IH].
  - cbn [includes]. rewrite orb_false_r, startsWith_spec. split.
    + intros [post Hpost]. by exists [], post.
    + intros (pre & post & Heq). destruct pre; [by exists post|discriminate].
  - cbn [includes]. rewrite orb_true_iff, startsWith_spec, IH. split.
    + intros [[post Hpost] | (pre & post & Heq)].
      * by exists [], post.
      * exists (d :: pre), post. by rewrite Heq.
    + intros (pre & post & Heq). destruct pre as [|e pre].
      * left. by exists post.
      * right. injection Heq as -> Heq. by exists pre, post.
Qed.

Lemma keeps_spec (f : LocalFilter) item :
  negb (existsb (fun kw => includes (searchText item) kw) (blockedKeywords f)) = true
  ↔ Forall (fun kw => ¬ occursIn kw (searchText item)) (blockedKeywords f).
Proof.
  rewrite negb_true_iff, <- not_true_iff_false, existsb_elem_of, Forall_forall.
  split.
  - intros Hno kw Hkw Hocc. apply Hno. exists kw. by rewrite includes_spec.
  - intros Hall (kw & Hkw & Hinc). apply (Hall kw Hkw). by apply includes_spec.
Qed.

Lemma applyKeywordFilter_filter l f :
  Deduplicator.applyKeywordFilter l f
  = List.filter
      (fun item =>
         negb (existsb (fun kw => includes (searchText item) kw) (blockedKeywords f))) l.
Proof.
  unfold Deduplicator.applyKeywordFilter.
  destruct (blockedKeywords f) as [|kw kws] eqn:Hkws; simpl; [|done].
  induction l as [|item l IH]; simpl; [done|]. by rewrite <- IH.
Qed.

Lemma List_filter_as_filter {A} (P : A → bool) l :
  List.filter P l = base.filter (fun x => P x = true) l.
Proof.
  induction l as [|x l IH]; [done|]. cbn [List.filter]. rewrite IH.
  rewrite filter_cons. case_decide as HP.
  - by rewrite HP.
  - by apply not_true_is_false in HP as ->.
Qed.

(** X1.  [applyKeywordFilter] keeps the items in their order.  An item is
    kept exactly when no blocked keyword is a substring of the text made
    of its title, a space and its description (nothing when there is no
    description); the search is literal, so it tells capitals from small
    letters.  Without keywords the list is returned as it is, an empty
    keyword blocks every item, and filtering twice is filtering once. *)
Theorem applyKeywordFilter_spec (l : list NewsItem) (f : LocalFilter) :
  sublist (Deduplicator.applyKeywordFilter l f) l ∧
  (∀ item, item ∈ Deduplicator.applyKeywordFilter l f ↔
           item ∈ l ∧
           Forall (fun kw => ¬ occursIn kw (searchText item)) (blockedKeywords f)) ∧
  (blockedKeywords f = [] → Deduplicator.applyKeywordFilter l f = l) ∧
  ([] ∈ blockedKeywords f → Deduplicator.applyKeywordFilter l f = []) ∧
  Deduplicator.applyKeywordFilter (Deduplicator.applyKeywordFilter l f) f
  = Deduplicator.applyKeywordFilter l f.
Proof.
  assert (Hmem : ∀ item, item ∈ Deduplicator.applyKeywordFilter l f ↔
             item ∈ l ∧
             Forall (fun kw => ¬ occursIn kw (searchText item)) (blockedKeywords f)).
  { intros item. rewrite applyKeywordFilter_filter, List_filter_as_filter, list_elem_of_filter.
    rewrite keeps_spec. tauto. }
  split; [|split; [exact Hmem|split; [|split]]].
  - rewrite applyKeywordFilter_filter, List_filter_as_filter. apply sublist_filter.
  - intros Hnil. unfold Deduplicator.applyKeywordFilter. rewrite Hnil. reflexivity.
  - intros Hempty. rewrite applyKeywordFilter_filter, List_filter_as_filter. clear Hmem.
    induction l as [|item l IH]; [done|]. rewrite filter_cons, decide_False; [done|].
    rewrite keeps_spec, Forall_forall. intros Hall. apply (Hall [] Hempty). by exists [], (searchText item).
  - rewrite !applyKeywordFilter_filter, !List_filter_as_filter. clear Hmem.
    induction l as [|item l IH]; [done|]. rewrite filter_cons. case_decide as Hk.
    + rewrite filter_cons, decide_True by done. by rewrite IH.
    + done.
Qed.

End KeywordFilter.

Section ExtractTokens.
Context `{Engine}.

Local Abbreviation lower := (fun c : N => isLowerAscii c = true).

Lemma flushRun_elem w run :
  w ∈ Deduplicator.flushRun run ↔ w = run ∧ (3 ≤ length run)%nat.
Proof.
  unfold Deduplicator.flushRun. destruct (3 <=? length run)%nat eqn:Hlen.
  - apply Nat.leb_le in Hlen. rewrite list_elem_of_singleton. tauto.
  - apply Nat.leb_gt in Hlen. rewrite elem_of_nil. split; [done|]. intros [_ ?]. lia.
Qed.

Lemma lower_last (l : list N) c : Forall lower l → last l = Some c → isLowerAscii c = true.
Proof.
  intros Hall Hlast. apply last_Some_elem_of in Hlast.
  by apply (proj1 (Forall_forall _ _) Hall).
Qed.

Lemma lower_head (l : list N) c : Forall lower l → head l = Some c → isLowerAscii c = true.
Proof.
  intros Hall Hhead. apply head_Some_elem_of in Hhead.
  by apply (proj1 (Forall_forall _ _) Hall).
Qed.

(** A run of letters delimited on both sides inside a string of
    letters is the whole string. *)
Lemma whole_run (run pre w post : list N) :
  Forall lower run →
  run = pre ++ w ++ post →
  (∀ c, last pre = Some c → isLowerAscii c = false) →
  (∀ c, head post = Some c → isLowerAscii c = false) →
  w = run.
Proof.
  intros Hall -> Hpre Hpost.
  apply Forall_app in Hall as [Hp Hall]. apply Forall_app in Hall as [_ Hq].
  destruct (last pre) as [c|] eqn:Hl.
  { specialize (Hpre c eq_refl). rewrite (lower_last pre c Hp Hl) in Hpre. discriminate. }
  destruct (head post) as [c|] eqn:Hh.
  { specialize (Hpost c eq_refl). rewrite (lower_head post c Hq Hh) in Hpost. discriminate. }
  apply last_None in Hl as ->. apply head_None in Hh as ->. by rewrite app_nil_r.
Qed.

Lemma matchWords_spec s run w :
  Forall lower run →
  w ∈ Deduplicator.matchWords s run ↔ isWordOf (run ++ s) w.
Proof.
  revert run. induction s as [|c s IH]; intros run Hrun.
  - cbn [Deduplicator.matchWords]. rewrite flushRun_elem, app_nil_r. split.
    + intros [-> Hlen]. split; [done|]. split; [done|].
      exists [], []. rewrite app_nil_r. by split_and!.
    + intros (Hlen & Hw & pre & post & Heq & Hpre & Hpost).
      assert (w = run) as -> by by eapply whole_run. done.
  - cbn [Deduplicator.matchWords]. destruct (isLowerAscii c) eqn:Hc.
    + rewrite IH, <- app_assoc; [done|]. apply Forall_app. split; [done|]. by constructor.
    + rewrite elem_of_app, flushRun_elem, (IH []) by constructor. cbn [app]. split.
      * intros [[-> Hlen] | (Hlen & Hw & pre & post & Heq & Hpre & Hpost)].
        -- split; [done|]. split; [done|]. exists [], (c :: s). split_and!; [done|done|].
           intros d [= <-]. done.
        -- split; [done|]. split; [done|]. exists (run ++ c :: pre), post. split_and!.
           ++ rewrite Heq. by rewrite <- app_assoc.
           ++ intros d. rewrite last_app_cons. destruct pre as [|e pre].
              ** intros [= <-]. done.
              ** intros Hd. apply Hpre. by rewrite <- Hd.
           ++ done.
      * intros (Hlen & Hw & pre & post & Heq & Hpre & Hpost).
        apply app_eq_inv in Heq as [(k & Hrun' & Hrest) | (k & Hpre' & Hrest)].
        -- (* the word starts inside the run *)
           symmetry in Hrest.
           apply app_eq_inv in Hrest as [(m & Hk & Hpost') | (m & Hw' & Hrest)].
           ++ left. subst k.
              assert (w = run) as Hww.
              { eapply (whole_run run pre w m); [done|done|done|].
                intros d Hd. apply Hpost. rewrite Hpost'. by rewrite head_app, Hd. }
              by subst w.
           ++ destruct m as [|d m].
              ** rewrite app_nil_r in Hw'. subst k. left.
                 assert (w = run) as Hww.
                 { eapply (whole_run run pre w []); [done|by rewrite app_nil_r|done|done]. }
                 by subst w.
              ** injection Hrest as <- Hs. subst w.
                 apply Forall_app in Hw as [_ Hw]. apply Forall_cons in Hw as [Hw _].
                 simpl in Hw. congruence.
        -- (* the word lies after [c] *)
           destruct k as [|d k].
           ++ rewrite app_nil_r in Hpre'. subst pre. rewrite app_nil_l in Hrest.
              destruct w as [|d w]; [simpl in Hlen; lia|].
              injection Hrest as -> _. apply Forall_cons in Hw as [Hw _]. simpl in Hw. congruence.
           ++ injection Hrest as <- Hs. right. split; [done|]. split; [done|].
              exists k, post. split_and!; [done| |done].
              intros e He. apply Hpre. rewrite Hpre'. rewrite last_app_cons.
              destruct k; [done|]. done.
Qed.

Lemma foldl_add_elem (t : jsstring) (ws : list jsstring) (acc : gset jsstring) :
  t ∈ foldl (fun tokens w => Deduplicator.add w tokens) acc ws ↔ t ∈ acc ∨ t ∈ ws.
Proof.
  revert acc. induction ws as [|w ws IH]; intros acc; simpl.
  - rewrite elem_of_nil. tauto.
  - rewrite IH. unfold Deduplicator.add. rewrite elem_of_union, elem_of_singleton, elem_of_cons.
    tauto.
Qed.

Lemma foldl_add_char_elem (t : jsstring) (cs : list N) (acc : gset jsstring) :
  t ∈ foldl (fun tokens c => Deduplicator.add [c] tokens) acc cs
  ↔ t ∈ acc ∨ ∃ c, t = [c] ∧ c ∈ cs.
Proof.
  revert acc. induction cs as [|c cs IH]; intros acc; simpl.
  - split; [tauto|]. intros [?|(c & _ & Hc)]; [done|]. by apply elem_of_nil in Hc.
  - rewrite IH. unfold Deduplicator.add. rewrite elem_of_union, elem_of_singleton. split.
    + intros [[->|?]|(d & -> & Hd)].
      * right. exists c. split; [done|]. by left.
      * by left.
      * right. exists d. split; [done|]. by right.
    + intros [?|(d & -> & Hd)]; [tauto|]. apply elem_of_cons in Hd as [->|Hd]; [tauto|].
      right. by exists d.
Qed.

(** X2.  The tokens [extractTokens] takes from a title are the
    characters U+4E00 to U+9FFF of the title, each a token of its own,
    and the maximal runs of three or more letters a to z of the
    lower-cased title.  Nothing else is a token. *)
Theorem extractTokens_spec (title t : jsstring) :
  t ∈ Deduplicator.extractTokens title ↔
  (∃ c, t = [c] ∧ c ∈ title ∧ 0x4e00 ≤ c ≤ 0x9fff) ∨
  isWordOf (toLowerCase title) t.
Proof.
  unfold Deduplicator.extractTokens.
  rewrite foldl_add_elem, foldl_add_char_elem, (matchWords_spec _ []) by constructor.
  rewrite app_nil_l. rewrite elem_of_empty.
  assert (∀ c, c ∈ List.filter dedupIsCjk title ↔ c ∈ title ∧ 0x4e00 ≤ c ≤ 0x9fff) as Hf.
  { intros c. rewrite List_filter_as_filter, list_elem_of_filter, dedupIsCjk_spec. tauto. }
  split.
  - intros [[[]|(c & -> & Hc)]|?]; [|by right]. left. exists c. by rewrite <- Hf.
  - intros [(c & -> & Hc)|?]; [|by right]. left. right. exists c. by rewrite Hf.
Qed.

End ExtractTokens.

Section DeduplicatorMore.
Context `{Engine}.

Local Abbreviation run := Deduplicator.filter.
Local Abbreviation entryOf := Deduplicator.entryOf.

(** Every accepted item was not a duplicate of the state it met:
    the entries before the call and those of the items accepted before
    it. *)
Lemma filter_accepted threshold seen l i a :
  (run seen l threshold).1 !! i = Some a →
  ¬ duplicateOf threshold (seen ++ (entryOf <$> take i (run seen l threshold).1)) a.
Proof.
  revert i a. induction l as [|x l IH] using rev_ind; intros i a.
  - done.
  - rewrite filter_app. cbn [fst]. rewrite filter_one.
    destruct (filter_state threshold seen l) as [Hstate _].
    destruct (duplicateOf_dec threshold (run seen l threshold).2 x) as [Hdup|Hfresh].
    + rewrite step_duplicate by done. cbn [fst]. rewrite app_nil_r. apply IH.
    + rewrite step_fresh by done. cbn [fst]. intros Hi.
      apply lookup_app_Some in Hi as [Hi|[Hlen Hi]].
      * rewrite take_app_le by (apply lookup_lt_Some in Hi; lia). by apply IH.
      * apply list_lookup_singleton_Some in Hi as [Hi ->].
        replace i with (length (run seen l threshold).1) by lia.
        rewrite take_app_length. by rewrite <- Hstate.
Qed.

Lemma jaccard_below threshold a b :
  ¬ (threshold <= Deduplicator.jaccard a b)%Q → (Deduplicator.jaccard a b < threshold)%Q.
Proof. apply Qnot_le_lt. Qed.

(** X3.  The items [filter] returns have pairwise distinct links.  Each
    of them has a link that no entry the deduplicator held before has,
    and a similarity below the threshold with each of these entries; and
    of two items returned, the later one has a similarity below the
    threshold with the earlier one. *)
Theorem dedup_filter_distinct (seen : list Deduplicator.SeenEntry) (l : list NewsItem)
    (threshold : Q) :
  let accepted := (run seen l threshold).1 in
  NoDup (link <$> accepted) ∧
  (∀ a s, a ∈ accepted → s ∈ seen →
     Deduplicator.seenLink s ≠ link a ∧
     (Deduplicator.jaccard (Deduplicator.chars s) (Deduplicator.extractTokens (title a))
      < threshold)%Q) ∧
  (∀ i j a b, (i < j)%nat → accepted !! i = Some a → accepted !! j = Some b →
     link a ≠ link b ∧
     (Deduplicator.jaccard (Deduplicator.extractTokens (title a))
        (Deduplicator.extractTokens (title b)) < threshold)%Q).
Proof.
  intros accepted.
  assert (Hpair : ∀ i j a b, (i < j)%nat → accepted !! i = Some a → accepted !! j = Some b →
     link a ≠ link b ∧
     (Deduplicator.jaccard (Deduplicator.extractTokens (title a))
        (Deduplicator.extractTokens (title b)) < threshold)%Q).
  { intros i j a b Hij Ha Hb.
    pose proof (filter_accepted threshold seen l j b Hb) as Hnot.
    assert (entryOf a ∈ seen ++ (entryOf <$> take j accepted)) as Hin.
    { apply elem_of_app. right. apply list_elem_of_fmap. exists a. split; [done|].
      apply list_elem_of_lookup. exists i. by rewrite lookup_take_lt. }
    split.
    - intros Hlink. apply Hnot. exists (entryOf a). split; [done|]. by left.
    - apply jaccard_below. intros Hle. apply Hnot. exists (entryOf a). split; [done|]. by right. }
  split; [|split; [|exact Hpair]].
  - apply NoDup_alt. intros i j x Hi Hj.
    apply list_lookup_fmap_Some in Hi as (a & -> & Ha).
    apply list_lookup_fmap_Some in Hj as (b & Hab & Hb).
    destruct (Nat.lt_trichotomy i j) as [Hlt|[->|Hlt]]; [|done|].
    + destruct (Hpair i j a b Hlt Ha Hb) as [Hne _]. congruence.
    + destruct (Hpair j i b a Hlt Hb Ha) as [Hne _]. congruence.
  - intros a s Ha Hs. apply list_elem_of_lookup in Ha as [i Ha].
    pose proof (filter_accepted threshold seen l i a Ha) as Hnot.
    assert (s ∈ seen ++ (entryOf <$> take i accepted)) as Hin by (apply elem_of_app; by left).
    split.
    + intros Hlink. apply Hnot. exists s. split; [done|]. by left.
    + apply jaccard_below. intros Hle. apply Hnot. exists s. split; [done|]. by right.
Qed.

Lemma duplicateOf_mono threshold seen more item :
  duplicateOf threshold seen item → duplicateOf threshold (seen ++ more) item.
Proof. intros (s & Hs & Hdup). exists s. split; [|done]. apply elem_of_app. by left. Qed.

(** Once filtered, every item of the input repeats an entry of the
    state: its own, if it was accepted. *)
Lemma filter_covers threshold seen l item :
  item ∈ l → duplicateOf threshold (run seen l threshold).2 item.
Proof.
  induction l as [|x l IH] using rev_ind; [by intros ?%elem_of_nil|].
  rewrite filter_app. cbn [snd]. rewrite filter_one.
  intros [Hin|Hx%list_elem_of_singleton]%elem_of_app.
  - destruct (duplicateOf_dec threshold (run seen l threshold).2 x) as [Hdup|Hfresh].
    + rewrite step_duplicate by done. by apply IH.
    + rewrite step_fresh by done. cbn [snd]. by apply duplicateOf_mono, IH.
  - subst x. destruct (duplicateOf_dec threshold (run seen l threshold).2 item) as [Hdup|Hfresh].
    + by rewrite step_duplicate.
    + rewrite step_fresh by done. cbn [snd]. exists (entryOf item). split.
      * apply elem_of_app. right. by apply list_elem_of_singleton.
      * by left.
Qed.

Lemma filter_all_duplicates threshold seen l :
  Forall (duplicateOf threshold seen) l → run seen l threshold = ([], seen).
Proof.
  induction l as [|x l IH] using rev_ind; [done|].
  intros [Hl Hx]%Forall_app. rewrite Forall_singleton in Hx.
  rewrite filter_app, IH by done. cbn [fst snd]. rewrite filter_one.
  by rewrite step_duplicate.
Qed.

(** X4.  The deduplicator does not let an item through twice.  After
    [filter] has processed a list, a second call with the state it left,
    on any items of that list, returns nothing and leaves the state as it
    is: also the items the first call dropped are dropped again. *)
Theorem dedup_filter_rerun (seen : list Deduplicator.SeenEntry) (l again : list NewsItem)
    (threshold : Q) :
  again ⊆ l →
  run (run seen l threshold).2 again threshold = ([], (run seen l threshold).2).
Proof.
  intros Hsub. apply filter_all_duplicates, Forall_forall. intros item Hitem.
  by apply filter_covers, Hsub.
Qed.

Lemma jaccard_empty_r a : Deduplicator.jaccard a ∅ = 0%Q.
Proof.
  unfold Deduplicator.jaccard. rewrite size_empty.
  change (0 =? 0)%nat with true. by rewrite orb_true_r.
Qed.

Lemma jaccard_empty_l a : Deduplicator.jaccard ∅ a = 0%Q.
Proof. unfold Deduplicator.jaccard. by rewrite size_empty. Qed.

(** X5.  A title that yields no token (no character U+4E00 to U+9FFF,
    no word of three letters) has similarity 0 with every title.  So,
    for a positive threshold, an item with such a title is dropped
    exactly when an entry has its link, and once it is recorded it never
    makes an item with another link a duplicate. *)
Theorem dedup_tokenless_title (seen : list Deduplicator.SeenEntry) (item other : NewsItem)
    (threshold : Q) :
  Deduplicator.extractTokens (title item) = ∅ →
  (0 < threshold)%Q →
  (link item ∈ Deduplicator.seenLink <$> seen → run seen [item] threshold = ([], seen)) ∧
  (link item ∉ Deduplicator.seenLink <$> seen →
   run seen [item] threshold = ([item], seen ++ [entryOf item])) ∧
  (link other ≠ link item →
   run [entryOf item] [other] threshold = ([other], [entryOf item; entryOf other])).
Proof.
  intros Hempty Hpos.
  assert (Hdup : ∀ seen', duplicateOf threshold seen' item ↔
                          link item ∈ Deduplicator.seenLink <$> seen').
  { intros seen'. split.
    - intros (s & Hs & [Hlink|Hsim]).
      + apply list_elem_of_fmap. by exists s.
      + rewrite Hempty, jaccard_empty_r in Hsim. by apply Qle_not_lt in Hsim.
    - intros (s & Hlink & Hs)%list_elem_of_fmap. exists s. split; [done|]. by left. }
  rewrite !filter_one. split_and!.
  - intros Hin. apply step_duplicate. by apply Hdup.
  - intros Hnot. apply step_fresh. by rewrite Hdup.
  - intros Hne. rewrite step_fresh; [done|].
    intros (s & Hs%list_elem_of_singleton & [Hlink|Hsim]); subst s.
    + simpl in Hlink. congruence.
    + simpl in Hsim. rewrite Hempty, jaccard_empty_l in Hsim. by apply Qle_not_lt in Hsim.
Qed.

End DeduplicatorMore.

(** ** translator.ts: requests *)

Section TranslatorMore.
Context `{Engine} `{World}.

(** X6.  [translateText] never throws and never returns the empty
    string.  When the first provider yields a translation, that is the
    result and the second provider is not asked.  Otherwise the second
    provider is asked once, after the first, and what it yields, null
    included, is the result; the warning is printed only when the request
    to the second provider fails. *)
Theorem translateText_providers (text : jsstring) (h : history) :
  ∃ (r : option jsstring) (h' : history),
    translateText text h = (Returned r, h') ∧
    r ≠ Some [] ∧
    match primaryYield h text with
    | Some t => r = Some t ∧ h' = GetPrimary text :: h
    | None =>
        r = fallbackYield (GetPrimary text :: h) text ∧
        ∃ warning, h' = warning ++ GetFallback text :: GetPrimary text :: h ∧
          (warning = [] ∨
           warning = [ConsoleWarn (TranslateFailed text)] ∧
           fallbackApi (GetPrimary text :: h) text = Rejected)
    end.
Proof.
  rewrite translateText_spec. eexists _, _. split; [done|]. split.
  - destruct (yield_cases h text) as [->|(c & t & ->)]; done.
  - unfold yield, translateTrace. destruct (primaryYield h text) as [t|]; [done|].
    split; [done|]. eexists. split; [done|].
    destruct (fallbackApi (GetPrimary text :: h) text); [by right|by left].
Qed.

Lemma providerCalls_throttled st h : providerCalls (throttled st h) = providerCalls h.
Proof. unfold throttled. by destruct (0 <? translatedCount st)%nat. Qed.

Lemma providerCalls_translateTrace h text :
  (length (providerCalls (translateTrace h text)) ≤ length (providerCalls h) + 2)%nat ∧
  (primaryYield h text = None →
   length (providerCalls (translateTrace h text)) = (length (providerCalls h) + 2)%nat).
Proof.
  unfold translateTrace, providerCalls. destruct (primaryYield h text) as [t|].
  - split; [|done]. simpl. lia.
  - destruct (fallbackApi (GetPrimary text :: h) text); simpl; split; intros; lia.
Qed.

Lemma yield_None_primary h text : yield h text = None → primaryYield h text = None.
Proof. unfold yield. by destruct (primaryYield h text). Qed.

(** One iteration makes at most two requests, and none for an item
    that has no text to submit. *)
Lemma loopBody_calls isGithub st item h :
  breakerInv st →
  ∃ st' h', loopBody isGithub st item h = (Returned st', h') ∧
            breakerInv st' ∧
            (length (providerCalls h')
             ≤ length (providerCalls h)
               + 2 * (if bool_decide (target isGithub item ≠ None) then 1 else 0))%nat.
Proof.
  unfold breakerInv. intros Hinv.
  destruct (aborted st) eqn:Ha.
  { rewrite loopBody_aborted by done. eexists _, _. split; [done|].
    split; [by rewrite <- Ha in Hinv|]. lia. }
  assert (∀ st0 h0, aborted st0 = false →
            ∃ st' h', settle st0 h0 = (Returned st', h') ∧
              aborted st' = (MAX_CONSECUTIVE_FAILURES <=? consecutiveFailures st')%nat ∧
              providerCalls h' = providerCalls h0) as Hsettle.
  { intros st0 h0 Ha0.
    destruct (settle_cases st0 h0) as (st' & h' & -> & _ & _ & Hf & Hab & Hc).
    eexists _, _. split; [done|]. by rewrite Hab, Hf, Ha0. }
  rewrite loopBody_spec by done.
  destruct (target isGithub item) as [text|] eqn:Et.
  - rewrite bool_decide_true by done.
    pose proof (providerCalls_translateTrace (throttled st h) text) as [Hle _].
    rewrite providerCalls_throttled in Hle.
    destruct (yield (throttled st h) text) as [t|].
    + case_bool_decide.
      * destruct (Hsettle (push st item) (translateTrace (throttled st h) text) Ha)
          as (st' & h' & -> & Hb & Hc).
        eexists _, _. split; [done|]. split; [done|]. rewrite Hc. lia.
      * eexists _, _. split; [done|]. split; [done|]. lia.
    + destruct (Hsettle (push (failed st) item) (translateTrace (throttled st h) text) Ha)
        as (st' & h' & -> & Hb & Hc).
      eexists _, _. split; [done|]. split; [done|]. rewrite Hc. lia.
  - rewrite bool_decide_false by (by intros []).
    destruct (Hsettle (push st item) h Ha) as (st' & h' & -> & Hb & Hc).
    eexists _, _. split; [done|]. split; [done|]. rewrite Hc. lia.
Qed.

Lemma translateLoop_calls isGithub l st h :
  breakerInv st →
  ∃ st' h', translateLoop isGithub st l h = (Returned st', h') ∧
            (length (providerCalls h')
             ≤ length (providerCalls h) + 2 * submitted isGithub l)%nat.
Proof.
  unfold translateLoop, submitted.
  revert st h. induction l as [|item l IH]; intros st h Hinv.
  - eexists _, _. split; [done|]. simpl. lia.
  - cbn [forEach]. destruct (loopBody_calls isGithub st item h Hinv)
      as (st1 & h1 & Hbody & Hinv1 & Hc1).
    destruct (IH st1 h1 Hinv1) as (st2 & h2 & Hloop & Hc2).
    exists st2, h2. split.
    + unfold mbind, IO_bind, ioBind. by rewrite Hbody.
    + cbn [List.filter]. destruct (bool_decide (target isGithub item ≠ None)); simpl in *; lia.
Qed.

Lemma translateTitles_history l isGithub h st h1 :
  translateLoop isGithub initialState l h = (Returned st, h1) →
  ∃ h', translateTitles l isGithub h = (Returned (results st), h') ∧
        providerCalls h' = providerCalls h1.
Proof.
  intros Hloop. unfold translateTitles, mbind, IO_bind, ioBind. rewrite Hloop.
  destruct (0 <? translatedCount st)%nat; io; eexists; (split; [done|]); done.
Qed.

(** X7.  [translateTitles] does not retry.  It returns, and the
    requests it has made to the providers are at most two for each item
    it has a text to submit for, one to each provider; the items with a
    text to submit are at most the items of the list. *)
Theorem translateTitles_request_bound (l : list NewsItem) (isGithub : bool) (h : history) :
  ∃ (out : list NewsItem) (h' : history),
    translateTitles l isGithub h = (Returned out, h') ∧
    (length (providerCalls h')
     ≤ length (providerCalls h) + 2 * submitted isGithub l)%nat ∧
    (submitted isGithub l ≤ length l)%nat.
Proof.
  destruct (translateLoop_calls isGithub l initialState h initial_inv)
    as (st & h1 & Hloop & Hc).
  destruct (translateTitles_history l isGithub h st h1 Hloop) as (h' & Hrun & Hc').
  exists (results st), h'. split; [done|]. rewrite Hc'. split; [done|].
  unfold submitted. clear. induction l as [|item l IH]; simpl; [done|].
  destruct (bool_decide _); simpl; lia.
Qed.

(** The loop over items none of which has a text to submit. *)
Lemma translateLoop_untouched isGithub l st h :
  aborted st = false →
  (consecutiveFailures st < MAX_CONSECUTIVE_FAILURES)%nat →
  Forall (fun item => target isGithub item = None) l →
  translateLoop isGithub st l h = (Returned (copied st l), h).
Proof.
  unfold translateLoop. revert st. induction l as [|item l IH]; intros st Ha Hf Hall.
  - unfold copied. rewrite app_nil_r. by destruct st.
  - apply Forall_cons in Hall as [Hitem Hall]. cbn [forEach].
    unfold mbind, IO_bind, ioBind. rewrite loopBody_spec, Hitem by done.
    unfold settle. cbn [push consecutiveFailures].
    rewrite (proj2 (Nat.leb_gt _ _)) by done.
    rewrite IH by done. f_equal. unfold copied, push. cbn. by rewrite <- app_assoc.
Qed.

(** X8.  When no item has a text to submit (the title needs no
    translation; for GitHub, the description is missing or needs none),
    [translateTitles] returns the list as it is and does nothing else:
    no request, no pause and no line on the console. *)
Theorem translateTitles_untouched (l : list NewsItem) (isGithub : bool) (h : history) :
  Forall (fun item => target isGithub item = None) l →
  translateTitles l isGithub h = (Returned l, h).
Proof.
  intros Hall. unfold translateTitles, mbind, IO_bind, ioBind.
  rewrite translateLoop_untouched; [done|done|unfold MAX_CONSECUTIVE_FAILURES; simpl; lia|done].
Qed.

(** One iteration when no provider yields anything. *)
Lemma loopBody_down isGithub st item h :
  (∀ h0 text, yield h0 text = None) →
  breakerInv st →
  (consecutiveFailures st ≤ MAX_CONSECUTIVE_FAILURES)%nat →
  ∃ st' h', loopBody isGithub st item h = (Returned st', h') ∧
            breakerInv st' ∧
            (consecutiveFailures st' ≤ MAX_CONSECUTIVE_FAILURES)%nat ∧
            results st' = results st ++ [item] ∧
            translatedCount st' = translatedCount st ∧
            (length (providerCalls h') + 2 * (MAX_CONSECUTIVE_FAILURES - consecutiveFailures st')
             ≤ length (providerCalls h)
               + 2 * (MAX_CONSECUTIVE_FAILURES - consecutiveFailures st))%nat.
Proof.
  unfold breakerInv. intros Hdown Hinv Hle.
  destruct (aborted st) eqn:Ha.
  { rewrite loopBody_aborted by done. eexists _, _. split; [done|].
    split; [by rewrite <- Ha in Hinv|]. cbn. split_and!; [done|done|done|lia]. }
  symmetry in Hinv. apply Nat.leb_gt in Hinv.
  rewrite loopBody_spec by done.
  destruct (target isGithub item) as [text|] eqn:Et.
  - rewrite Hdown.
    pose proof (providerCalls_translateTrace (throttled st h) text) as [_ Heq].
    rewrite providerCalls_throttled in Heq.
    specialize (Heq (yield_None_primary _ _ (Hdown _ _))).
    destruct (settle_cases (push (failed st) item) (translateTrace (throttled st h) text))
      as (st' & h' & -> & Hr & Ht & Hf & Hab & Hc).
    eexists _, _. split; [done|]. cbn in Hr, Ht, Hf, Hab. rewrite Ha in Hab.
    rewrite Hab, Hf, Hr, Ht, Hc, Heq. split_and!; [done|lia|done|done|lia].
  - destruct (settle_cases (push st item) h) as (st' & h' & -> & Hr & Ht & Hf & Hab & Hc).
    eexists _, _. split; [done|]. cbn in Hr, Ht, Hf, Hab. rewrite Ha in Hab.
    rewrite Hab, Hf, Hr, Ht, Hc. split_and!; [done|lia|done|done|lia].
Qed.

Lemma translateLoop_down isGithub l st h :
  (∀ h0 text, yield h0 text = None) →
  breakerInv st →
  (consecutiveFailures st ≤ MAX_CONSECUTIVE_FAILURES)%nat →
  ∃ st' h', translateLoop isGithub st l h = (Returned st', h') ∧
            results st' = results st ++ l ∧
            translatedCount st' = translatedCount st ∧
            (length (providerCalls h')
             ≤ length (providerCalls h)
               + 2 * (MAX_CONSECUTIVE_FAILURES - consecutiveFailures st))%nat.
Proof.
  intros Hdown. unfold translateLoop.
  revert st h. induction l as [|item l IH]; intros st h Hinv Hle.
  - eexists _, _. split; [done|]. rewrite app_nil_r. split_and!; [done|done|lia].
  - cbn [forEach]. destruct (loopBody_down isGithub st item h Hdown Hinv Hle)
      as (st1 & h1 & Hbody & Hinv1 & Hle1 & Hr1 & Ht1 & Hc1).
    destruct (IH st1 h1 Hinv1 Hle1) as (st2 & h2 & Hloop & Hr2 & Ht2 & Hc2).
    exists st2, h2. split.
    + unfold mbind, IO_bind, ioBind. by rewrite Hbody.
    + rewrite Hr2, Hr1, Ht2, Ht1, <- app_assoc. split_and!; [done|done|lia].
Qed.

(** X9.  When both providers yield nothing, whatever the text and the
    moment, [translateTitles] returns every item as it was, and it gives
    up after MAX_CONSECUTIVE_FAILURES items: the requests made are at
    most twice that number, however long the list is. *)
Theorem translateTitles_providers_down (l : list NewsItem) (isGithub : bool) (h : history) :
  (∀ h0 text, yield h0 text = None) →
  ∃ h', translateTitles l isGithub h = (Returned l, h') ∧
        (length (providerCalls h')
         ≤ length (providerCalls h) + 2 * MAX_CONSECUTIVE_FAILURES)%nat.
Proof.
  intros Hdown.
  destruct (translateLoop_down isGithub l initialState h Hdown initial_inv)
    as (st & h1 & Hloop & Hr & Ht & Hc).
  { unfold MAX_CONSECUTIVE_FAILURES. simpl. lia. }
  destruct (translateTitles_history l isGithub h st h1 Hloop) as (h' & Hrun & Hc').
  exists h'. rewrite Hrun, Hr, Hc'. split; [done|]. simpl in Hc. simpl. lia.
Qed.

End TranslatorMore.

(** ** formatter.ts: the size and the number of the messages *)

Section FormatterMore.
Context `{Engine} `{World}.

Lemma length_join_sections (batch : list jsstring) :
  batch ≠ [] →
  Z.of_nat (length (join (nl ++ nl) batch)) = (runningTotal batch - 2)%Z.
Proof.
  induction batch as [|s batch IH]; [done|]. intros _.
  destruct batch as [|s' batch].
  - cbn. lia.
  - change (join (nl ++ nl) (s :: s' :: batch))
      with (s ++ (nl ++ nl) ++ join (nl ++ nl) (s' :: batch)).
    rewrite !length_app, !Nat2Z.inj_add, IH by done.
    change (runningTotal (s :: s' :: batch))
      with (Z.of_nat (length s) + 2 + runningTotal (s' :: batch))%Z.
    cbn [length nl]. lia.
Qed.

Lemma length_header name i : (length (header name i) ≤ length name + 6)%nat.
Proof.
  unfold header. assert (length (js "## ") = 3%nat) as H3 by by vm_compute.
  assert (length (js "（续）") = 3%nat) as H3' by by vm_compute.
  destruct (i =? 0)%nat; rewrite !length_app, ?H3, ?H3'; lia.
Qed.

(** A message of more than one section fits the limit, up to the
    length of the header. *)
Lemma render_within name footer maxC i batch :
  (2 ≤ length batch)%nat →
  withinBudget maxC footer batch →
  (Z.of_nat (length (render name footer i batch))
   ≤ maxC + Z.of_nat (length name) - 25)%Z.
Proof.
  intros Hlen Hb. specialize (Hb Hlen).
  assert (batch ≠ []) as Hne by (intros ->; simpl in Hlen; lia).
  unfold render. rewrite !length_app, !Nat2Z.inj_add, length_join_sections by done.
  pose proof (length_header name i). cbn [length nl]. lia.
Qed.

(** The state of the loop after the groups [processed]. *)
Lemma budget_foldl name footer maxS maxC (processed : list SourceGroup) :
  let st := foldl (splitStep name footer maxS maxC) emptySplit processed in
  ∃ batches : list (list jsstring),
    messages st = imap (render name footer) batches ∧
    batchIndex st = length batches ∧
    currentLength st = runningTotal (currentSections st) ∧
    Forall (withinBudget maxC footer) batches ∧
    withinBudget maxC footer (currentSections st) ∧
    Forall (fun b => b ≠ []) batches ∧
    (processed ≠ [] → currentSections st ≠ []) ∧
    Forall (fun s => ∃ g, g ∈ processed ∧ s = formatSourceSection g)
      (concat batches ++ currentSections st).
Proof.
  induction processed as [|group processed IH] using rev_ind.
  - exists []. cbn. split_and!; try done. unfold withinBudget. cbn [length]. lia.
  - cbn zeta in *. rewrite foldl_snoc.
    set (st := foldl _ emptySplit processed) in *.
    destruct IH as (batches & Hm & Hi & Hlen & Hb & Hcur & Hne & Hcs & Hfrom).
    assert (Forall (fun s => ∃ g, g ∈ processed ++ [group] ∧ s = formatSourceSection g)
              (concat batches ++ currentSections st)) as Hfrom'.
    { eapply Forall_impl; [exact Hfrom|]. intros s (g & Hg & ->). exists g.
      split; [|done]. apply elem_of_app. by left. }
    assert (∃ g, g ∈ processed ++ [group] ∧ formatSourceSection group = formatSourceSection g)
      as Hgroup.
    { exists group. split; [|done]. apply elem_of_app. right. by apply list_elem_of_singleton. }
    destruct (splits maxS maxC footer st (formatSourceSection group)) eqn:Hs.
    + rewrite splitStep_split by done.
      assert (currentSections st ≠ []) as Hcs'.
      { unfold splits in Hs. by destruct (currentSections st). }
      exists (batches ++ [currentSections st]).
      cbn [messages batchIndex currentSections currentLength]. split_and!.
      * rewrite imap_app. cbn [imap app]. rewrite Hm. f_equal. unfold message, render.
        by rewrite Hi, Nat.add_0_r.
      * rewrite length_app. cbn [length]. lia.
      * unfold runningTotal. cbn [foldr]. lia.
      * apply Forall_app. split; [done|]. by constructor.
      * unfold withinBudget. cbn [length]. lia.
      * apply Forall_app. split; [done|]. by constructor.
      * done.
      * rewrite concat_app. cbn [concat]. rewrite !app_nil_r.
        apply Forall_app. split; [done|]. by constructor.
    + rewrite splitStep_keep by done. exists batches.
      cbn [messages batchIndex currentSections currentLength]. split_and!; try done.
      * rewrite runningTotal_snoc. lia.
      * intros Hlen2. rewrite runningTotal_snoc.
        assert (currentSections st ≠ []) as Hcs'.
        { intros E. rewrite E in Hlen2. simpl in Hlen2. lia. }
        assert (¬ exceeds maxS maxC footer st (formatSourceSection group)) as Hno.
        { rewrite <- splits_exceeds, Hs; done. }
        unfold exceeds in Hno. lia.
      * intros _. by destruct (currentSections st).
      * rewrite app_assoc. apply Forall_app. split; [done|]. by constructor.
Qed.

Lemma splitMessages_budget name footer maxS maxC l :
  l ≠ [] →
  ∃ batches : list (list jsstring),
    splitMessages name footer maxS maxC l = imap (render name footer) batches ∧
    Forall (withinBudget maxC footer) batches ∧
    Forall (fun b => b ≠ []) batches ∧
    Forall (fun s => ∃ g, g ∈ l ∧ s = formatSourceSection g) (concat batches).
Proof.
  intros Hl. unfold splitMessages.
  destruct (budget_foldl name footer maxS maxC l)
    as (batches & Hm & Hi & Hlen & Hb & Hcur & Hne & Hcs & Hfrom).
  specialize (Hcs Hl). set (st := foldl _ _ _) in *.
  exists (batches ++ [currentSections st]). split_and!.
  - unfold finish. destruct (currentSections st) eqn:E; [done|].
    cbn [length Nat.ltb Nat.leb]. rewrite imap_app. cbn. rewrite Hm. f_equal.
    unfold message, render. by rewrite E, Hi, Nat.add_0_r.
  - apply Forall_app. split; [done|]. by constructor.
  - apply Forall_app. split; [done|]. by constructor.
  - rewrite concat_app. cbn. by rewrite app_nil_r.
Qed.

Lemma elem_of_concat {A} (x : A) (ls : list (list A)) :
  x ∈ concat ls ↔ ∃ l, l ∈ ls ∧ x ∈ l.
Proof.
  induction ls as [|l ls IH]; cbn [concat].
  - split; [by intros ?%elem_of_nil|]. by intros (l & ?%elem_of_nil & _).
  - rewrite elem_of_app, IH. split.
    + intros [Hx|(l' & Hl' & Hx)]; [exists l|exists l']; (split; [|done]); [by left|by right].
    + intros (l' & [->|Hl']%elem_of_cons & Hx); [by left|]. right. by exists l'.
Qed.

Lemma Forall_imap {A B} (P : B → Prop) (f : nat → A → B) (l : list A) :
  (∀ i x, l !! i = Some x → P (f i x)) → Forall P (imap f l).
Proof.
  revert f. induction l as [|x l IH]; intros f Hf; [constructor|].
  cbn. constructor; [by apply (Hf 0%nat)|]. apply IH. intros i y Hy. by apply (Hf (S i)).
Qed.

(** X10.  When some group has items, [formatNewsMessages] reads the
    clock once, and each message it returns either holds the section of
    a single group, or has at most maxChars + categoryName.length - 25
    characters.  So a message of several sections stays within maxChars
    when the name of the category has at most 25 characters. *)
Theorem formatNewsMessages_budget (categoryName : jsstring) (groups : list SourceGroup)
    (maxSourcesPerMsg maxChars : Z) (h : history) :
  nonEmptyGroups groups ≠ [] →
  ∃ msgs : list jsstring,
    formatNewsMessages categoryName groups maxSourcesPerMsg maxChars h
    = (Returned msgs, FormatToParts :: h) ∧
    Forall
      (fun msg =>
         singleSection categoryName (footerOf (timeText (clockParts h)))
           (nonEmptyGroups groups) msg ∨
         (Z.of_nat (length msg) ≤ maxChars + Z.of_nat (length categoryName) - 25)%Z)
      msgs.
Proof.
  intros Hne. rewrite formatNewsMessages_spec.
  destruct (nonEmptyGroups groups) as [|g0 l0] eqn:El; [done|]. rewrite <- El in *.
  set (footer := footerOf _).
  destruct (splitMessages_budget categoryName footer maxSourcesPerMsg maxChars
              (nonEmptyGroups groups) Hne) as (batches & -> & Hb & Hnb & Hfrom).
  eexists. split; [done|]. apply Forall_imap. intros i batch Hbatch.
  pose proof (proj1 (Forall_forall _ _) Hb batch (list_elem_of_lookup_2 _ _ _ Hbatch)) as Hw.
  pose proof (proj1 (Forall_forall _ _) Hnb batch (list_elem_of_lookup_2 _ _ _ Hbatch)) as Hn.
  destruct batch as [|s [|s' batch]]; [done| |].
  - left. assert (s ∈ concat batches) as Hs.
    { apply elem_of_concat. exists [s]. split; [by eapply list_elem_of_lookup_2|].
      by apply list_elem_of_singleton. }
    destruct (proj1 (Forall_forall _ _) Hfrom s Hs) as (g & Hg & ->). by exists i, g.
  - right. apply render_within; [simpl; lia|done].
Qed.

Lemma length_concat_bounds {A} (k : Z) (batches : list (list A)) :
  Forall (fun b => b ≠ [] ∧ (Z.of_nat (length b) ≤ k)%Z) batches →
  (length batches ≤ length (concat batches))%nat ∧
  (Z.of_nat (length (concat batches)) ≤ k * Z.of_nat (length batches))%Z.
Proof.
  induction 1 as [|b batches [Hne Hk] _ [IH1 IH2]]; cbn [concat length].
  - lia.
  - rewrite length_app. destruct b as [|x b]; [done|]. cbn [length] in *. lia.
Qed.

(** X11.  [formatNewsMessages] returns at least one message, and at
    most one for each group with items.  The messages are enough for
    the limit of sections: the groups with items are at most
    maxSourcesPerMsg (1, if the limit is below 1) times the number of
    messages. *)
Theorem formatNewsMessages_count (categoryName : jsstring) (groups : list SourceGroup)
    (maxSourcesPerMsg maxChars : Z) (h : history) :
  ∃ (msgs : list jsstring) (h' : history),
    formatNewsMessages categoryName groups maxSourcesPerMsg maxChars h = (Returned msgs, h') ∧
    (1 ≤ length msgs)%nat ∧
    (length msgs ≤ Nat.max 1 (length (nonEmptyGroups groups)))%nat ∧
    (Z.of_nat (length (nonEmptyGroups groups))
     ≤ Z.max 1 maxSourcesPerMsg * Z.of_nat (length msgs))%Z.
Proof.
  rewrite formatNewsMessages_spec.
  destruct (nonEmptyGroups groups) as [|g0 l0] eqn:El.
  - eexists _, _. split; [done|]. cbn [length]. lia.
  - rewrite <- El. assert (nonEmptyGroups groups ≠ []) as Hne by by rewrite El.
    destruct (splitMessages_batches categoryName (footerOf (timeText (clockParts h)))
                maxSourcesPerMsg maxChars (nonEmptyGroups groups) Hne)
      as (batches & Hcat & Hb & ->).
    eexists _, _. split; [done|]. rewrite length_imap.
    destruct (length_concat_bounds _ _ Hb) as [H1 H2].
    rewrite Hcat, length_fmap in H1, H2.
    assert (1 ≤ length (nonEmptyGroups groups))%nat by (rewrite El; cbn [length]; lia).
    split_and!; [|lia|done].
    destruct batches; [|cbn [length]; lia]. cbn in Hcat. symmetry in Hcat.
    apply fmap_nil_inv in Hcat. done.
Qed.

(** With a limit that no message of two sections can meet, every step
    after the first one starts a new message. *)
Lemma foldl_one_each name footer maxS maxC (p : list SourceGroup) (g : SourceGroup) :
  (maxS ≤ 1 ∨ maxC < Z.of_nat (length footer) + 34)%Z →
  foldl (splitStep name footer maxS maxC) emptySplit (p ++ [g])
  = {| messages := imap (fun i g => render name footer i [formatSourceSection g]) p;
       batchIndex := length p;
       currentSections := [formatSourceSection g];
       currentLength := (0 + Z.of_nat (length (formatSourceSection g)) + 2)%Z |}.
Proof.
  intros Hlimit. revert g. induction p as [|g' p IH] using rev_ind; intros g.
  - cbn [app foldl]. by rewrite splitStep_keep.
  - rewrite foldl_snoc, IH. rewrite splitStep_split.
    + cbn [messages batchIndex currentSections]. f_equal.
      * rewrite imap_app. cbn [imap]. f_equal. unfold message, render.
        cbn [batchIndex currentSections]. by rewrite Nat.add_0_r.
      * rewrite length_app. cbn [length]. lia.
    + apply splits_exceeds; [cbn [currentLength currentSections]; unfold runningTotal;
                             cbn [foldr]; lia|done|].
      unfold exceeds. cbn [currentSections length]. unfold runningTotal. cbn [foldr]. lia.
Qed.

(** X12.  With maxSourcesPerMsg at most 1, or with maxChars below the
    length of the footer plus 34, every group with items gets a message
    of its own: message number i is the header of number i, the section
    of the i-th group with items, and the footer. *)
Theorem formatNewsMessages_one_section_each (categoryName : jsstring)
    (groups : list SourceGroup) (maxSourcesPerMsg maxChars : Z) (h : history) :
  let footer := footerOf (timeText (clockParts h)) in
  (maxSourcesPerMsg ≤ 1 ∨ maxChars < Z.of_nat (length footer) + 34)%Z →
  nonEmptyGroups groups ≠ [] →
  formatNewsMessages categoryName groups maxSourcesPerMsg maxChars h
  = (Returned (imap (fun i g => render categoryName footer i [formatSourceSection g])
                 (nonEmptyGroups groups)),
     FormatToParts :: h).
Proof.
  intros footer Hlimit Hne. rewrite formatNewsMessages_spec.
  destruct (nonEmptyGroups groups) as [|g0 l0] eqn:El; [done|]. rewrite <- El. clear El.
  f_equal. f_equal. fold footer.
  destruct (nonEmptyGroups groups) as [|g p _] using rev_ind; [done|].
  unfold splitMessages. rewrite foldl_one_each by done.
  unfold finish. cbn [currentSections length Nat.ltb Nat.leb messages].
  rewrite imap_app. cbn [imap]. f_equal. unfold message, render.
  cbn [batchIndex currentSections]. by rewrite Nat.add_0_r.
Qed.

End FormatterMore.

(** ** sources/rss-source.ts: what is kept *)

Section RssSourceMore.
Context `{Engine} `{World}.

Lemma trimStart_head s c : head (trimStart s) = Some c → isWhiteSpace c = false.
Proof.
  induction s as [|d s IH]; cbn [trimStart]; [done|].
  destruct (isWhiteSpace d) eqn:Hd; [done|]. by intros [= <-].
Qed.

Lemma trimStart_suffix s : ∃ pre, s = pre ++ trimStart s.
Proof.
  induction s as [|d s [pre IH]]; cbn [trimStart]; [by exists []|].
  destruct (isWhiteSpace d); [|by exists []]. exists (d :: pre). by rewrite IH at 1.
Qed.

Lemma trimStart_last s c :
  last (trimStart s) = Some c → last s = Some c.
Proof.
  destruct (trimStart_suffix s) as [pre Hs]. intros Hl. rewrite Hs, last_app. by rewrite Hl.
Qed.

Lemma trim_trimmed s : trimmed (trim s).
Proof.
  unfold trimmed, trim. split; intros c.
  - rewrite head_reverse. intros Hl%trimStart_last. rewrite last_reverse in Hl.
    by apply trimStart_head in Hl.
  - rewrite last_reverse. apply trimStart_head.
Qed.

(** X13.  [fetchSingleFeed] never throws.  When the parser fails it
    prints one warning and returns the empty list; when the parser
    succeeds it prints nothing and returns items of the feed in the
    order of the feed.  Every item returned carries the name of the
    source and no extra, has a link that is not empty, and a title that
    is not empty and has no white space at either end. *)
Theorem fetchSingleFeed_never_throws (name url : jsstring) (h : history) :
  ∃ (out : list NewsItem) (h' : history),
    fetchSingleFeed name url h = (Returned out, h') ∧
    Forall (fun item => source item = name ∧ extra item = None ∧
                        title item ≠ [] ∧ trimmed (title item) ∧ link item ≠ []) out ∧
    (rssFeed h url = None →
     out = [] ∧ h' = ConsoleWarn (RssFetchFailed name url) :: ParseURL url :: h) ∧
    (∀ feed, rssFeed h url = Some feed →
     sublist out (toNewsItem name <$> default [] feed) ∧ h' = ParseURL url :: h).
Proof.
  unfold fetchSingleFeed, tryCatch, ask, mbind, IO_bind, ioBind.
  destruct (rssFeed h url) as [feed|] eqn:Hfeed.
  - eexists _, _. split; [done|]. split; [|split; [done|]].
    + apply Forall_forall. intros item Hin.
      apply list_elem_of_In, filter_In in Hin as [Hin Hok].
      apply in_map_iff in Hin as (raw & <- & _).
      unfold hasTitleAndLink in Hok. apply andb_true_iff in Hok as [Ht Hl].
      cbn [title link source extra toNewsItem] in *. split_and!; try done.
      * by destruct (trim _).
      * apply trim_trimmed.
      * by destruct (default [] (feedLink raw)).
    + intros feed' [= <-]. split; [|done].
      rewrite List_filter_as_filter. apply sublist_filter.
  - eexists _, _. split; [done|]. split; [constructor|]. split; [done|]. done.
Qed.

Lemma datesValid_unique (l : list NewsItem) :
  datesValid l → datesValid (uniqueByLink ∅ l).
Proof.
  unfold datesValid. rewrite !Forall_forall. intros Hvalid item Hitem.
  apply Hvalid. destruct (uniqueByLink_spec ∅ l) as (Hsub & _).
  by apply (sublist_subseteq _ _ Hsub).
Qed.


Lemma precedes_cons {A} (l : list A) y a b : precedes l a b → precedes (y :: l) a b.
Proof. intros (l1 & l2 & l3 & ->). by exists (y :: l1), l2, l3. Qed.

Lemma precedes_head {A} (l : list A) a b : b ∈ l → precedes (a :: l) a b.
Proof. intros (l2 & l3 & ->)%list_elem_of_split. by exists [], l2, l3. Qed.

Lemma precedes_cons_inv {A} (l : list A) y a b :
  precedes (y :: l) a b → a = y ∧ b ∈ l ∨ precedes l a b.
Proof.
  intros (l1 & l2 & l3 & Heq). destruct l1 as [|z l1]; injection Heq as -> ->.
  - left. split; [done|]. apply elem_of_app. right. by left.
  - right. by exists l1, l2, l3.
Qed.

Lemma precedes_elem_of {A} (l : list A) a b : precedes l a b → a ∈ l ∧ b ∈ l.
Proof.
  intros (l1 & l2 & l3 & ->). split.
  - apply elem_of_app. right. by left.
  - apply elem_of_app. right. right. apply elem_of_app. right. by left.
Qed.

Lemma precedes_sublist {A} (l k : list A) a b :
  sublist l k → precedes l a b → precedes k a b.
Proof.
  induction 1 as [|x l k Hsub IH|x l k Hsub IH]; intros Hp.
  - done.
  - apply precedes_cons_inv in Hp as [[-> Hb]|Hp].
    + apply precedes_head. by apply (sublist_subseteq _ _ Hsub).
    + by apply precedes_cons, IH.
  - by apply precedes_cons, IH.
Qed.

(** An insertion moves the new element past strictly newer ones
    only. *)
Lemma insertSorted_precedes x l a b :
  datesValid (x :: l) →
  precedes (insertSorted byTimeDescending x l) a b →
  precedes (x :: l) a b ∨ (sortKey b < sortKey a)%Z.
Proof.
  induction l as [|y l IH]; intros Hvalid Hp; cbn [insertSorted] in Hp; [by left|].
  pose proof Hvalid as Hv. unfold datesValid in Hv.
  apply Forall_cons in Hv as [Hx Hv]. apply Forall_cons in Hv as [Hy Hl].
  rewrite sortCompare_valid in Hp by done.
  destruct (sortKey y - sortKey x <=? 0)%Z eqn:Hc; [by left|].
  apply Z.leb_gt in Hc.
  assert (datesValid (x :: l)) as Hvalid' by by constructor.
  apply precedes_cons_inv in Hp as [[-> Hb]|Hp].
  - rewrite insertSorted_perm in Hb. apply elem_of_cons in Hb as [->|Hb].
    + right. lia.
    + left. apply precedes_cons, precedes_head. done.
  - destruct (IH Hvalid' Hp) as [Hq|Hlt]; [|by right]. left.
    apply precedes_cons_inv in Hq as [[-> Hb]|Hq].
    + apply precedes_head. by right.
    + by do 2 apply precedes_cons.
Qed.

Lemma sort_precedes l a b :
  datesValid l →
  precedes (RssSource.sort byTimeDescending l) a b →
  precedes l a b ∨ (sortKey b < sortKey a)%Z.
Proof.
  induction l as [|x l IH]; intros Hvalid Hp; cbn [RssSource.sort foldr] in Hp.
  - by left.
  - pose proof Hvalid as Hv. unfold datesValid in Hv. apply Forall_cons in Hv as [Hx Hl].
    fold (RssSource.sort byTimeDescending l) in Hp.
    apply insertSorted_precedes in Hp as [Hp|Hlt]; [|by right|].
    + apply precedes_cons_inv in Hp as [[-> Hb]|Hp].
      * left. apply precedes_head. by rewrite sort_perm in Hb.
      * destruct (IH Hl Hp) as [Hq|Hlt]; [|by right]. left. by apply precedes_cons.
    + unfold datesValid. constructor; [done|]. by rewrite sort_perm.
Qed.

(** X15.  When no date is invalid, two items returned with the same
    publication time (an item without date counting as time 0) stand in
    the order they have in the feed. *)
Theorem fetchSingleRssSource_stable (name url : jsstring) (n : nat) (h : history) :
  let feed := feedList name (rssFeed h url) in
  datesValid feed →
  ∃ (out : list NewsItem) (h' : history),
    fetchSingleRssSource name url n h = (Returned out, h') ∧
    ∀ a b, precedes out a b → sortKey a = sortKey b → precedes feed a b.
Proof.
  intros feed Hvalid. destruct (fetchSingleFeed_spec name url h) as [h' Hfeed].
  unfold fetchSingleRssSource, mbind, IO_bind, ioBind. rewrite Hfeed. fold feed.
  eexists _, _. split; [done|]. intros a b Hp Hkey.
  apply (precedes_sublist _ _ _ _ (sublist_take _ n)) in Hp.
  apply sort_precedes in Hp as [Hp|Hlt]; [|lia|by apply datesValid_unique].
  destruct (uniqueByLink_spec ∅ feed) as (Hsub & _).
  by apply (precedes_sublist _ _ _ _ Hsub).
Qed.

End RssSourceMore.

(** ** webhooks: the content posted *)

Section WebhooksContent.

Lemma length_wpsTruncated : length wpsTruncated = 14%nat.
Proof. by vm_compute. Qed.

Lemma length_sliceTo n s : (0 ≤ n)%Z → (length (sliceTo n s) ≤ Z.to_nat n)%nat.
Proof.
  intros Hn. unfold sliceTo. rewrite (proj2 (Z.ltb_ge _ _)) by done.
  rewrite length_take. lia.
Qed.

(** X16.  The text [WpsTeamsWebhook.sendMarkdown] posts has at most
    5000 characters (UTF-16 units).  A text of at most 5000 characters is
    posted as it is; a longer one is cut to its first 4970 characters
    followed by the note of 14 characters, 4984 in all. *)
Theorem wpsContent_fits (text : jsstring) :
  (Z.of_nat (length (wpsContent text)) ≤ MAX_CONTENT_LENGTH)%Z ∧
  ((Z.of_nat (length text) ≤ MAX_CONTENT_LENGTH)%Z → wpsContent text = text) ∧
  ((MAX_CONTENT_LENGTH < Z.of_nat (length text))%Z →
   wpsContent text = take (Z.to_nat (MAX_CONTENT_LENGTH - 30)) text ++ wpsTruncated ∧
   Z.of_nat (length (wpsContent text)) = (MAX_CONTENT_LENGTH - 16)%Z).
Proof.
  unfold wpsContent, MAX_CONTENT_LENGTH.
  destruct (5000 <? Z.of_nat (length text))%Z eqn:Hlen.
  - apply Z.ltb_lt in Hlen. unfold sliceTo. change (5000 - 30 <? 0)%Z with false.
    rewrite length_app, length_take, length_wpsTruncated.
    split_and!; [lia|lia|]. intros _. split; [done|lia].
  - apply Z.ltb_ge in Hlen. split_and!; [done|done|lia].
Qed.

(** *** Lines *)

Lemma split_cons_inv sep s : ∃ line rest, split sep s = line :: rest.
Proof.
  induction s as [|c s (line & rest & IH)]; cbn [split]; [by eexists _, _|].
  case_bool_decide; [by eexists _, _|]. rewrite IH. by eexists _, _.
Qed.

Lemma join_cons_cons sep (p q : jsstring) rest :
  join sep (p :: q :: rest) = p ++ sep ++ join sep (q :: rest).
Proof. done. Qed.

Lemma join_cons sep (p : jsstring) rest :
  rest ≠ [] → join sep (p :: rest) = p ++ sep ++ join sep rest.
Proof. by destruct rest. Qed.

(** [s.split('\n').join('\n')] is [s]. *)
Lemma join_split s : join nl (split 0x0A s) = s.
Proof.
  induction s as [|c s IH]; [done|]. cbn [split].
  destruct (split_cons_inv 0x0A s) as (line & rest & Hs). rewrite Hs in *.
  case_bool_decide as Hc.
  - subst c. rewrite join_cons_cons, IH. done.
  - destruct rest as [|q rest].
    + cbn [join] in *. by rewrite IH.
    + rewrite join_cons_cons in *. cbn [app]. by rewrite IH.
Qed.

Lemma split_app_line sep line s :
  sep ∉ line →
  split sep (line ++ s)
  = match split sep s with
    | first :: rest => (line ++ first) :: rest
    | [] => [line]
    end.
Proof.
  induction line as [|c line IH]; intros Hno.
  - cbn [app]. by destruct (split_cons_inv sep s) as (first & rest & ->).
  - cbn [app split]. rewrite bool_decide_false by (intros ->; apply Hno; by left).
    rewrite IH by (intros ?; apply Hno; by right).
    by destruct (split_cons_inv sep s) as (first & rest & ->).
Qed.

Lemma split_line sep line : sep ∉ line → split sep line = [line].
Proof.
  intros Hno. rewrite <- (app_nil_r line) at 1. rewrite split_app_line by done.
  cbn [split]. by rewrite app_nil_r.
Qed.

(** [lines.join('\n').split('\n')] is [lines], for lines without a
    line feed. *)
Lemma split_join lines :
  lines ≠ [] → Forall (fun line => 0x0A ∉ line) lines →
  split 0x0A (join nl lines) = lines.
Proof.
  induction lines as [|line lines IH]; [done|]. intros _ [Hline Hall]%Forall_cons.
  destruct lines as [|q lines].
  - cbn [join]. by apply split_line.
  - rewrite join_cons_cons, split_app_line by done.
    change (nl ++ join nl (q :: lines)) with (0x0A :: join nl (q :: lines)).
    cbn [split]. rewrite bool_decide_true by done. rewrite IH by done.
    by rewrite app_nil_r.
Qed.

Lemma split_no_sep sep s : Forall (fun line => sep ∉ line) (split sep s).
Proof.
  induction s as [|c s IH]; cbn [split].
  - constructor; [by intros ?%elem_of_nil|constructor].
  - destruct (split_cons_inv sep s) as (line & rest & Hs). rewrite Hs in *.
    apply Forall_cons in IH as [Hline Hrest].
    case_bool_decide as Hc.
    + constructor; [by intros ?%elem_of_nil|]. by constructor.
    + constructor; [|done]. intros [->|?]%elem_of_cons; done.
Qed.

Lemma startsWith_cons_ne c d s p : c ≠ d → startsWith (d :: s) (c :: p) = false.
Proof. intros Hne. cbn [startsWith]. by rewrite bool_decide_false. Qed.

Lemma js_bold : js "**" = [0x2A; 0x2A].
Proof. by vm_compute. Qed.

Lemma font_head color : ∃ rest, font color = 0x3C :: rest.
Proof.
  unfold font. assert (js "<font color=" = 0x3C :: js "font color=") as -> by by vm_compute.
  by eexists.
Qed.

Lemma js_prefixes :
  js "## " = [0x23; 0x23; 0x20] ∧ js "### " = [0x23; 0x23; 0x23; 0x20] ∧
  js "> " = [0x3E; 0x20].
Proof. by vm_compute. Qed.

(** A converted line is not converted again. *)
Lemma convertLine_idempotent line : convertLine (convertLine line) = convertLine line.
Proof.
  destruct js_prefixes as (H2 & H3 & Hq).
  assert (∀ x, convertLine (js "**" ++ x) = js "**" ++ x) as Hbold.
  { intros x. unfold convertLine. rewrite js_bold, H2, H3, Hq. cbn [app].
    by rewrite !startsWith_cons_ne. }
  unfold convertLine at 2 3.
  destruct (startsWith line (js "## ")) eqn:E2; [apply Hbold|].
  destruct (startsWith line (js "### ")) eqn:E3; [apply Hbold|].
  destruct (startsWith line (js "> ")) eqn:Eq.
  - destruct (font_head "comment") as [rest ->]. unfold convertLine.
    rewrite H2, H3, Hq. cbn [app]. by rewrite !startsWith_cons_ne.
  - unfold convertLine. by rewrite E2, E3, Eq.
Qed.

Lemma elem_of_trimStart c s : c ∈ trimStart s → c ∈ s.
Proof.
  destruct (trimStart_suffix s) as [pre Hs]. intros Hc. rewrite Hs.
  apply elem_of_app. by right.
Qed.

Lemma elem_of_trim c s : c ∈ trim s → c ∈ s.
Proof.
  unfold trim. rewrite elem_of_reverse. intros Hc%elem_of_trimStart.
  rewrite elem_of_reverse in Hc. by apply elem_of_trimStart.
Qed.

Lemma convertLine_no_line_feed line : 0x0A ∉ line → 0x0A ∉ convertLine line.
Proof.
  intros Hno.
  assert (0x0A ∉ js "**") as Hb by (apply (bool_decide_unpack _); by vm_compute).
  assert (0x0A ∉ font "comment") as Hf by (apply (bool_decide_unpack _); by vm_compute).
  assert (0x0A ∉ js "</font>") as He by (apply (bool_decide_unpack _); by vm_compute).
  assert (∀ n, 0x0A ∉ drop n line) as Hd.
  { intros n Hin. apply Hno. by apply (sublist_subseteq _ _ (sublist_drop line n)). }
  unfold convertLine. repeat case_match; rewrite ?elem_of_app; try done.
  - intros [?|[?%elem_of_trim|?]]; [done|by eapply Hd|done].
  - intros [?|[?%elem_of_trim|?]]; [done|by eapply Hd|done].
  - intros [?|[?|?]]; [done|by eapply Hd|done].
Qed.

(** X17.  [convertToWecomMarkdown] works line by line: the lines of
    the result are the converted lines of the text, as many as before.
    A text whose lines are all left alone by the conversion is returned
    as it is, and converting a converted text changes nothing. *)
Theorem convertToWecomMarkdown_lines (text : jsstring) (lines : list jsstring) :
  (lines ≠ [] → Forall (fun line => 0x0A ∉ line) lines →
   convertToWecomMarkdown (join nl lines) = join nl (convertLine <$> lines)) ∧
  length (split 0x0A (convertToWecomMarkdown text)) = length (split 0x0A text) ∧
  convertToWecomMarkdown (convertToWecomMarkdown text) = convertToWecomMarkdown text ∧
  (Forall (fun line => convertLine line = line) (split 0x0A text) →
   convertToWecomMarkdown text = text).
Proof.
  pose proof convertLine_no_line_feed as Hfree.
  assert (split 0x0A (convertToWecomMarkdown text) = convertLine <$> split 0x0A text) as Hs.
  { unfold convertToWecomMarkdown. apply split_join.
    - destruct (split_cons_inv 0x0A text) as (line & rest & ->). done.
    - apply Forall_fmap. eapply Forall_impl; [apply split_no_sep|]. intros line. apply Hfree. }
  split_and!.
  - intros Hne Hall. unfold convertToWecomMarkdown. by rewrite split_join.
  - by rewrite Hs, length_fmap.
  - unfold convertToWecomMarkdown at 1. rewrite Hs. unfold convertToWecomMarkdown.
    f_equal. rewrite <- list_fmap_compose. apply list_fmap_ext. intros i line _.
    apply convertLine_idempotent.
  - intros Hsame. unfold convertToWecomMarkdown.
    rewrite <- (join_split text) at 2. f_equal.
    rewrite <- (list_fmap_id (split 0x0A text)) at 2.
    apply Forall_fmap_ext_1. done.
Qed.

(** *** Bytes *)

Lemma codePoints_cons h s :
  codePoints (h :: s)
  = match s with
    | l :: t =>
        if isHighSurrogate h && isLowSurrogate l
        then (0x10000 + (h - 0xD800) * 0x400 + (l - 0xDC00)) :: codePoints t
        else h :: codePoints s
    | [] => [h]
    end.
Proof. by destruct s. Qed.

Lemma encodedLength_cons_single h s :
  isHighSurrogate h = false → encodedLength (h :: s) = (utf8Size h + encodedLength s)%nat.
Proof.
  intros Hh. unfold encodedLength. rewrite codePoints_cons.
  destruct s as [|l t]; [done|]. by rewrite Hh.
Qed.

Lemma surrogate_sizes h l :
  isHighSurrogate h = true → isLowSurrogate l = true →
  utf8Size h = 3%nat ∧ utf8Size l = 3%nat ∧ isHighSurrogate l = false ∧
  utf8Size (0x10000 + (h - 0xD800) * 0x400 + (l - 0xDC00)) = 4%nat.
Proof.
  unfold isHighSurrogate, isLowSurrogate. rewrite !inRange_spec. intros Hh Hl.
  unfold utf8Size.
  repeat match goal with
  | |- context [?a <? ?b] => destruct (N.ltb_spec a b); try lia
  end.
  split_and!; try done. apply not_true_is_false. rewrite inRange_spec. lia.
Qed.

Lemma encodedLength_single h : encodedLength [h] = utf8Size h.
Proof. unfold encodedLength. cbn. lia. Qed.

Lemma encodedLength_pair h l t :
  isHighSurrogate h && isLowSurrogate l = true →
  encodedLength (h :: l :: t) = (4 + encodedLength t)%nat.
Proof.
  intros Hpair. unfold encodedLength. rewrite codePoints_cons, Hpair.
  apply andb_true_iff in Hpair as [Hh Hl].
  destruct (surrogate_sizes h l Hh Hl) as (_ & _ & _ & Sp).
  rewrite fmap_cons. cbn [sum_list sum_list_with]. unfold id. by rewrite Sp.
Qed.

Lemma encodedLength_unpaired h l t :
  isHighSurrogate h && isLowSurrogate l = false →
  encodedLength (h :: l :: t) = (utf8Size h + encodedLength (l :: t))%nat.
Proof.
  intros Hpair. unfold encodedLength. rewrite (codePoints_cons h), Hpair.
  by rewrite fmap_cons.
Qed.

(** Joining two strings can only pair a surrogate at the seam: the
    encoding does not grow. *)
Lemma encodedLength_app a b :
  (encodedLength (a ++ b) ≤ encodedLength a + encodedLength b)%nat.
Proof.
  remember (length a) as n eqn:Hn. revert a Hn.
  induction n as [n IH] using lt_wf_ind. intros a Hn.
  destruct a as [|h [|l t]].
  - done.
  - cbn [app]. rewrite encodedLength_single. destruct b as [|l b].
    + rewrite encodedLength_single. lia.
    + destruct (isHighSurrogate h && isLowSurrogate l) eqn:Hpair.
      * rewrite encodedLength_pair by done.
        apply andb_true_iff in Hpair as [Hh Hl].
        destruct (surrogate_sizes h l Hh Hl) as (Sh & Sl & Hl' & Sp).
        rewrite (encodedLength_cons_single l b Hl'). lia.
      * rewrite encodedLength_unpaired by done. lia.
  - cbn [app]. destruct (isHighSurrogate h && isLowSurrogate l) eqn:Hpair.
    + rewrite !encodedLength_pair by done.
      pose proof (IH (length t) ltac:(subst n; cbn [length]; lia) t eq_refl). lia.
    + rewrite !encodedLength_unpaired by done.
      pose proof (IH (length (l :: t)) ltac:(subst n; cbn [length]; lia) (l :: t) eq_refl)
        as Hrec.
      cbn [app] in Hrec. lia.
Qed.

Lemma sliceTo_back (content : jsstring) :
  sliceTo (-10) content = take (length content - 10) content.
Proof.
  unfold sliceTo. change (-10 <? 0)%Z with true. f_equal. lia.
Qed.

Lemma shortenLoop_spec rounds content :
  (length content ≤ rounds)%nat →
  (Z.of_nat (encodedLength (shortenLoop rounds content)) ≤ MAX_CONTENT_BYTES - 60)%Z ∧
  ∃ k, shortenLoop rounds content = take (length content - 10 * k) content.
Proof.
  revert content. induction rounds as [|rounds IH]; intros content Hlen.
  - destruct content; [|cbn [length] in Hlen; lia]. cbn [shortenLoop].
    change (encodedLength []) with 0%nat. unfold MAX_CONTENT_BYTES.
    split; [lia|]. by exists 0%nat.
  - cbn [shortenLoop].
    destruct (MAX_CONTENT_BYTES - 60 <? Z.of_nat (encodedLength content))%Z eqn:Hguard.
    + apply Z.ltb_lt in Hguard.
      assert (0 < length content)%nat.
      { destruct content; [|cbn [length]; lia].
        change (encodedLength []) with 0%nat in Hguard. unfold MAX_CONTENT_BYTES in Hguard. lia. }
      rewrite sliceTo_back.
      destruct (IH (take (length content - 10) content)) as [Hfit [k Hk]].
      { rewrite length_take. lia. }
      split; [done|]. exists (S k). rewrite Hk, take_take, length_take. f_equal. lia.
    + apply Z.ltb_ge in Hguard. split; [done|]. exists 0%nat.
      by rewrite Nat.mul_0_r, Nat.sub_0_r, firstn_all.
Qed.

Lemma shortenLoop_rounds n m content :
  (length content ≤ n)%nat → (length content ≤ m)%nat →
  shortenLoop n content = shortenLoop m content.
Proof.
  revert m content. induction n as [|n IH]; intros m content Hn Hm.
  - destruct content; [|cbn [length] in Hn; lia]. by destruct m.
  - destruct m as [|m].
    + destruct content; [done|cbn [length] in Hm; lia].
    + cbn [shortenLoop].
      destruct (MAX_CONTENT_BYTES - 60 <? Z.of_nat (encodedLength content))%Z eqn:Hguard;
        [|done].
      apply Z.ltb_lt in Hguard.
      assert (0 < length content)%nat.
      { destruct content; [|cbn [length]; lia].
        change (encodedLength []) with 0%nat in Hguard. unfold MAX_CONTENT_BYTES in Hguard. lia. }
      apply IH; rewrite sliceTo_back, length_take; lia.
Qed.

(** The equation of the loop of [sendMarkdown]. *)
Lemma shorten_unfold content :
  shorten content
  = if (MAX_CONTENT_BYTES - 60 <? Z.of_nat (encodedLength content))%Z
    then shorten (sliceTo (-10) content) else content.
Proof.
  unfold shorten. destruct content as [|c content]; [done|].
  cbn [length shortenLoop]. destruct (_ <? _)%Z; [|done].
  apply shortenLoop_rounds; rewrite sliceTo_back, length_take; cbn [length]; lia.
Qed.

Lemma encodedLength_wecomTruncated : encodedLength wecomTruncated = 55%nat.
Proof. by vm_compute. Qed.

(** X18.  The content [WecomWebhook.sendMarkdown] posts has at most
    4096 bytes in UTF-8.  A converted text of at most 4096 bytes is
    posted as it is; a longer one is cut from the end, ten characters at
    a time, to a prefix of at most 4036 bytes, followed by the note.  The
    loop that cuts ends. *)
Theorem wecomContent_fits (text : jsstring) :
  let converted := convertToWecomMarkdown text in
  (Z.of_nat (encodedLength (wecomContent text)) ≤ MAX_CONTENT_BYTES)%Z ∧
  ((Z.of_nat (encodedLength converted) ≤ MAX_CONTENT_BYTES)%Z →
   wecomContent text = converted) ∧
  ((MAX_CONTENT_BYTES < Z.of_nat (encodedLength converted))%Z →
   ∃ k, wecomContent text = take (length converted - 10 * k) converted ++ wecomTruncated ∧
        (Z.of_nat (encodedLength (take (length converted - 10 * k) converted))
         ≤ MAX_CONTENT_BYTES - 60)%Z).
Proof.
  intros converted. unfold wecomContent. fold converted.
  destruct (MAX_CONTENT_BYTES <? Z.of_nat (encodedLength converted))%Z eqn:Hlen.
  - apply Z.ltb_lt in Hlen.
    destruct (shortenLoop_spec (length converted) converted) as [Hfit [k Hk]]; [done|].
    fold (shorten converted) in Hfit, Hk.
    pose proof (encodedLength_app (shorten converted) wecomTruncated) as Happ.
    rewrite encodedLength_wecomTruncated in Happ. unfold MAX_CONTENT_BYTES in *.
    split_and!; [lia|lia|]. intros _. exists k. by rewrite <- Hk.
  - apply Z.ltb_ge in Hlen. split_and!; [done|done|lia].
Qed.

End WebhooksContent.

(** ** dispatcher.ts: the events of a run *)

Section Emits.
Context `{Engine} `{World}.
Context (P : event → Prop).

Lemma emits_ret {A} (R : A → Prop) (a : A) : R a → emits P R (mret a).
Proof. intros HR h. exists []. split_and!; [done|done|]. by intros a' [= <-]. Qed.

Lemma emits_throw {A} (R : A → Prop) (e : exn) : emits P R (throw e).
Proof. intros h. exists []. split_and!; [done|done|]. by intros a [=]. Qed.

Lemma emits_emit (R : unit → Prop) (e : event) : P e → R () → emits P R (emit e).
Proof.
  intros HP HR h. exists [e]. split_and!; [done|by constructor|]. by intros [] _.
Qed.

Lemma emits_ask {A} (R : A → Prop) (e : event) (answer : history → A) :
  P e → (∀ h, R (answer h)) → emits P R (ask e answer).
Proof.
  intros HP HR h. exists [e]. split_and!; [done|by constructor|]. by intros a [= <-].
Qed.

Lemma emits_bind {A B} (R1 : A → Prop) (R : B → Prop) (m : IO A) (f : A → IO B) :
  emits P R1 m → (∀ a, R1 a → emits P R (f a)) → emits P R (m ≫= f).
Proof.
  intros Hm Hf h. destruct (Hm h) as (ext1 & Hh1 & HP1 & HR1).
  unfold mbind, IO_bind, ioBind. destruct (m h) as [[a|e] h1]; cbn [fst snd] in *.
  - destruct (Hf a (HR1 a eq_refl) h1) as (ext2 & Hh2 & HP2 & HR2).
    exists (ext2 ++ ext1). subst h1. split_and!; [by rewrite Hh2, app_assoc| |done].
    by apply Forall_app.
  - exists ext1. split_and!; [done|done|]. by intros b [=].
Qed.

Lemma emits_bind_any {A B} (R : B → Prop) (m : IO A) (f : A → IO B) :
  emits P (fun _ => True) m → (∀ a, emits P R (f a)) → emits P R (m ≫= f).
Proof. intros Hm Hf. eapply emits_bind; [exact Hm|]. intros a _. apply Hf. Qed.

Lemma emits_tryCatch {A} (R : A → Prop) (body : IO A) (handler : exn → IO A) :
  emits P R body → (∀ e, emits P R (handler e)) → emits P R (tryCatch body handler).
Proof.
  intros Hm Hf h. destruct (Hm h) as (ext1 & Hh1 & HP1 & HR1).
  unfold tryCatch. destruct (body h) as [[a|e] h1]; cbn [fst snd] in *.
  - exists ext1. by split_and!.
  - destruct (Hf e h1) as (ext2 & Hh2 & HP2 & HR2).
    exists (ext2 ++ ext1). subst h1. split_and!; [by rewrite Hh2, app_assoc| |done].
    by apply Forall_app.
Qed.

Lemma emits_forEach {S A} (I : S → Prop) (body : S → A → IO S) (l : list A) (s : S) :
  (∀ s x, x ∈ l → I s → emits P I (body s x)) → I s → emits P I (forEach body s l).
Proof.
  revert s. induction l as [|x l IH]; intros s Hbody Hs; cbn [forEach].
  - by apply emits_ret.
  - eapply emits_bind; [apply Hbody; [by left|done]|]. intros s' Hs'. apply IH; [|done].
    intros s0 y Hy. apply Hbody. by right.
Qed.

Lemma emits_weaken {A} (P' : event → Prop) (R R' : A → Prop) (m : IO A) :
  (∀ e, P' e → P e) → (∀ a, R a → R' a) → emits P' R m → emits P R' m.
Proof.
  intros HP HR Hm h. destruct (Hm h) as (ext & Hh & HPs & HRs).
  exists ext. split_and!; [done| |by intros a ?%HRs%HR].
  eapply Forall_impl; [exact HPs|done].
Qed.

End Emits.

Ltac emits_step :=
  lazymatch goal with
  | |- emits _ _ (mret _) => apply emits_ret
  | |- emits _ _ (throw _) => apply emits_throw
  | |- emits _ _ (emit _) => apply emits_emit
  | |- emits _ _ (consoleLog _) => apply emits_emit
  | |- emits _ _ (consoleWarn _) => apply emits_emit
  | |- emits _ _ (sleep _) => apply emits_emit
  | |- emits _ _ (ask _ _) => apply emits_ask
  | |- emits _ _ (tryCatch _ _) => apply emits_tryCatch; [|intros ?]
  | |- emits _ _ (_ ≫= _) => apply emits_bind_any; [|intros ?]
  | |- emits _ _ (if ?b then _ else _) => destruct b eqn:?
  | |- emits _ _ (match ?x with _ => _ end) => destruct x eqn:?
  end.

Section TranslatorEvents.
Context `{Engine} `{World}.

Lemma translateText_emits text :
  emits (fun e => isTranslatorEvent e = true) (fun _ => True) (translateText text).
Proof.
  unfold translateText, translatePrimary, translateFallback. repeat emits_step; done.
Qed.

Lemma tryBlock_emits isGithub st item :
  emits (fun e => isTranslatorEvent e = true) (fun _ => True) (tryBlock isGithub st item).
Proof.
  unfold tryBlock, throttle.
  repeat first [apply translateText_emits | emits_step]; done.
Qed.

Lemma loopBody_emits isGithub st item :
  emits (fun e => isTranslatorEvent e = true) (fun _ => True) (loopBody isGithub st item).
Proof.
  unfold loopBody.
  repeat first [apply tryBlock_emits | emits_step]; done.
Qed.

Lemma emits_value {A} P (R : A → Prop) (m : IO A) :
  emits P (fun _ => True) m → (∀ h a, (m h).1 = Returned a → R a) → emits P R m.
Proof.
  intros Hm Hv h. destruct (Hm h) as (ext & Hh & HP & _). exists ext.
  split_and!; [done|done|]. intros a Ha. by eapply Hv.
Qed.

Lemma translateLoop_emits isGithub l st :
  breakerInv st →
  emits (fun e => isTranslatorEvent e = true)
    (fun st' => link <$> results st' = (link <$> results st) ++ (link <$> l))
    (translateLoop isGithub st l).
Proof.
  intros Hinv. apply emits_value.
  - unfold translateLoop. apply emits_forEach; [|done]. intros s x _ _.
    apply loopBody_emits.
  - intros h st' Hrun.
    destruct (translateLoop_spec isGithub l st h Hinv)
      as (st1 & h1 & Hloop & _ & outs & Hres & Hall).
    rewrite Hloop in Hrun. injection Hrun as <-.
    rewrite Hres, fmap_app. f_equal. clear Hres Hloop.
    induction Hall as [|item out l outs Hd _ IH]; [done|].
    rewrite !fmap_cons. f_equal; [by apply delivered_link in Hd|done].
Qed.

Lemma translateTitles_emits l isGithub :
  emits (fun e => isTranslatorEvent e = true)
    (fun out => link <$> out = link <$> l ∧ length out = length l)
    (translateTitles l isGithub).
Proof.
  unfold translateTitles.
  eapply emits_bind; [apply (translateLoop_emits isGithub l initialState initial_inv)|].
  cbn [initialState results fmap list_fmap app]. intros st Hst.
  assert (length (results st) = length l) as Hlen.
  { by rewrite <- (length_fmap link (results st)), Hst, length_fmap. }
  repeat emits_step; done.
Qed.

End TranslatorEvents.

Section ProducerEvents.
Context `{Engine} `{World}.

Lemma fetchSingleRssSource_emits P name url n :
  P (ParseURL url) → P (ConsoleWarn (RssFetchFailed name url)) →
  emits P (fun _ => True) (fetchSingleRssSource name url n).
Proof.
  intros Hp Hw. unfold fetchSingleRssSource, fetchSingleFeed. repeat emits_step; done.
Qed.

Lemma join_snoc sep (parts : list jsstring) (p : jsstring) :
  parts ≠ [] → join sep (parts ++ [p]) = join sep parts ++ sep ++ p.
Proof.
  induction parts as [|q parts IH]; [done|]. intros _.
  destruct parts as [|q' parts]; [done|].
  change (join sep ((q :: q' :: parts) ++ [p]))
    with (q ++ sep ++ join sep ((q' :: parts) ++ [p])).
  rewrite IH by done. change (join sep (q :: q' :: parts))
    with (q ++ sep ++ join sep (q' :: parts)).
  by rewrite <- !app_assoc.
Qed.

Lemma formatGithubMarkdown_spec name l h :
  formatGithubMarkdown name l h =
  match l with
  | [] => (Returned (js "## " ++ name ++ nl ++ nl ++ js "暂无 Trending 数据。"), h)
  | _ :: _ =>
      (Returned
         (join nl ([js "## " ++ name; []] ++ imap githubLine l
                   ++ [[]; js "> 来源：GitHub Trending";
                       js "> 更新时间：" ++ timeText (clockParts h)])),
       FormatToParts :: h)
  end.
Proof. unfold formatGithubMarkdown. by destruct l. Qed.

Lemma formatGithubMarkdown_emits name l :
  l ≠ [] → emits (fun e => e = FormatToParts) carriesTime (formatGithubMarkdown name l).
Proof.
  intros Hl h. rewrite formatGithubMarkdown_spec.
  destruct l as [|item rest] eqn:El; [done|]. rewrite <- El. clear El Hl.
  exists [FormatToParts]. split_and!; [done|by constructor|].
  set (lines := imap githubLine l).
  set (time := timeText (clockParts h)).
  set (source := js "> 来源：GitHub Trending").
  set (label := js "> 更新时间：").
  set (heading := js "## " ++ name).
  cbn [fst]. intros msg Hmsg.
  assert (msg = join nl (([heading; []] ++ lines ++ [[]; source]) ++ [label ++ time])) as ->.
  { assert (Inj (=) (=) (@Returned jsstring)) by (by intros ?? [=]).
    apply (inj Returned). rewrite <- Hmsg. by rewrite <- !app_assoc. }
  rewrite join_snoc by done. by eexists _, h.
Qed.

Lemma nonEmptyGroups_all groups :
  Forall (fun g => items g ≠ []) groups → nonEmptyGroups groups = groups.
Proof.
  unfold nonEmptyGroups. induction 1 as [|g groups Hg _ IH]; [done|].
  cbn [List.filter]. rewrite IH. by destruct (items g).
Qed.

Lemma formatNewsMessages_emits name groups maxS maxC :
  groups ≠ [] → Forall (fun g => items g ≠ []) groups →
  emits (fun e => e = FormatToParts) (fun msgs => Forall carriesTime msgs)
    (formatNewsMessages name groups maxS maxC).
Proof.
  intros Hne Hall h. rewrite formatNewsMessages_spec, nonEmptyGroups_all by done.
  destruct groups as [|g rest] eqn:Eg; [done|]. rewrite <- Eg in *. clear Eg.
  exists [FormatToParts]. split_and!; [done|by constructor|]. cbn [fst].
  destruct (splitMessages_batches name (footerOf (timeText (clockParts h))) maxS maxC
              groups Hne) as (batches & _ & _ & ->).
  intros msgs [= <-]. apply Forall_imap. intros i batch _.
  destruct (render_endsWithFooter name (timeText (clockParts h)) i batch) as [body ->].
  exists (body ++ nl), h. by rewrite <- !app_assoc.
Qed.

End ProducerEvents.

Section DispatchEvents.
Context `{Engine} `{World}.
Context (config : AppConfig) (localFilter : LocalFilter).

(** The events of the phase of a category before its messages are
    sent. *)
Local Abbreviation phase category := (fun e => quiet config e ∧ ownFetch category e).

Lemma translator_phase category e :
  shouldTranslate config = true →
  isGithubCategory category || existsb isRss (sources category) = true →
  isTranslatorEvent e = true → phase category e.
Proof.
  intros Hon Hcat He. unfold quiet. destruct e as [| | |n|n| | | | |]; try done;
    destruct n; done.
Qed.

Lemma console_phase category e :
  isTranslatorEvent e = false →
  match e with
  | ConsoleWarn (WebhookNotFound _) => False
  | ConsoleLog _ | ConsoleWarn _ | FormatToParts => True
  | _ => False
  end →
  phase category e.
Proof.
  intros He Hkind. unfold quiet. rewrite He.
  destruct e as [| | |n|n| | | | |]; try done; destruct n; done.
Qed.

Lemma fetchSource_emits category s :
  s ∈ sources category → isGithubCategory category = false →
  emits (phase category) (fun _ => True) (fetchSource category s).
Proof.
  intros Hs Hgh. unfold quiet.
  destruct s as [name url| | | |]; cbn [fetchSource]; unfold fetchHot.
  - apply emits_bind_any; [|intros ?; by apply emits_ret].
    apply fetchSingleRssSource_emits; [|done]. split_and!; [done|done|done|].
    split; [done|by exists name].
  - by apply emits_ret.
  - apply emits_bind_any; [|intros ?; by apply emits_ret].
    apply emits_ask; [|done]. split_and!; try done.
    split_and!; [done|done|]. eexists. by split; [exact Hs|].
  - apply emits_bind_any; [|intros ?; by apply emits_ret].
    apply emits_ask; [|done]. split_and!; try done.
    split_and!; [done|done|]. eexists. by split; [exact Hs|].
  - apply emits_bind_any; [|intros ?; by apply emits_ret].
    apply emits_ask; [|done]. split_and!; try done.
    split_and!; [done|done|]. eexists. by split; [exact Hs|].
Qed.

Lemma sourceStep_emits category st s :
  s ∈ sources category → isGithubCategory category = false →
  Forall (fun g => items g ≠ []) st.1 →
  emits (phase category) (fun st' => Forall (fun g => items g ≠ []) st'.1)
    (sourceStep config localFilter category st s).
Proof.
  intros Hs Hgh Hst. unfold sourceStep.
  apply emits_bind_any; [by apply fetchSource_emits|]. intros [sourceName fetched].
  destruct (length fetched =? 0)%nat; [by apply emits_ret|].
  destruct (length (Deduplicator.applyKeywordFilter fetched localFilter) =? 0)%nat;
    [by apply emits_ret|].
  destruct (Deduplicator.filter st.2 _ _) as [unique seen'].
  apply emits_bind_any; [apply emits_emit; [by apply console_phase|done]|]. intros _.
  destruct (length unique =? 0)%nat eqn:Hlen; [by apply emits_ret|].
  apply Nat.eqb_neq in Hlen.
  eapply (emits_bind _ (fun out => length out = length unique)).
  - destruct (shouldTranslate config && isRss s) eqn:Hon.
    + apply andb_true_iff in Hon as [Hon Hrss].
      eapply emits_weaken; [| |apply translateTitles_emits]; [|by intros ? [_ ?]].
      intros e. apply translator_phase; [done|]. rewrite Hgh. cbn [orb].
      apply existsb_exists. exists s. split; [by apply list_elem_of_In|done].
    + by apply emits_ret.
  - intros out Hout. apply emits_ret. cbn [fst]. apply Forall_app. split; [done|].
    constructor; [|done]. cbn [items]. intros ->. cbn [length] in Hout. lia.
Qed.

Lemma newsMessages_emits category :
  isGithubCategory category = false →
  emits (phase category) (fun r => ∀ msgs, r = Some msgs → Forall carriesTime msgs)
    (newsMessages config localFilter category).
Proof.
  intros Hgh. unfold newsMessages.
  eapply (emits_bind _ (fun st => Forall (fun g => items g ≠ []) st.1)).
  - apply emits_forEach; [|done]. intros st s Hs Hst. by apply sourceStep_emits.
  - intros [groups seen] Hgroups. cbn [fst] in Hgroups.
    destruct (length groups =? 0)%nat eqn:Hlen.
    + apply emits_bind_any; [apply emits_emit; [by apply console_phase|done]|].
      intros _. by apply emits_ret.
    + apply Nat.eqb_neq in Hlen.
      eapply (emits_bind _ (fun msgs => Forall carriesTime msgs)).
      * eapply emits_weaken; [| |apply formatNewsMessages_emits; [|done]];
          [intros e ->; by apply console_phase|done|by intros ->].
      * intros msgs Hmsgs. apply emits_ret. by intros ? [= <-].
Qed.

Lemma githubMessages_emits category :
  isGithubCategory category = true →
  emits (phase category) (fun r => ∀ msgs, r = Some msgs → Forall carriesTime msgs)
    (githubMessages config localFilter category).
Proof.
  intros Hgh. unfold githubMessages.
  apply emits_bind_any.
  { unfold isGithubCategory in Hgh. apply existsb_exists in Hgh as (s & Hs & Hgs).
    destruct (List.find isGithubSource (sources category)) as [found|] eqn:Hfind.
    - pose proof (find_some _ _ Hfind) as [_ Hfound].
      destruct found as [| name lang since | | |]; try done.
      cbn [fetchGithubTrending]. apply emits_bind_any.
      { unfold buildTrendingUrl. destruct (_ && _); [apply emits_throw|by apply emits_ret]. }
      intros _. apply emits_ask; [|done]. unfold quiet.
      split_and!; [done|done|done|]. split; [done|by exists name].
    - by rewrite (find_none _ _ Hfind s Hs) in Hgs. }
  intros fetched.
  destruct (length (Deduplicator.applyKeywordFilter fetched localFilter) =? 0)%nat eqn:Hlen.
  { apply emits_bind_any; [apply emits_emit; [by apply console_phase|done]|].
    intros _. by apply emits_ret. }
  apply Nat.eqb_neq in Hlen.
  apply emits_bind_any; [apply emits_emit; [by apply console_phase|done]|]. intros _.
  set (l := Deduplicator.applyKeywordFilter fetched localFilter) in *.
  eapply (emits_bind _ (fun out => length out = length l)).
  - destruct (shouldTranslate config) eqn:Hon.
    + eapply emits_weaken; [| |apply translateTitles_emits]; [|by intros ? [_ ?]].
      intros e. apply translator_phase; [done|by rewrite Hgh].
    + by apply emits_ret.
  - intros out Hout.
    eapply (emits_bind _ carriesTime).
    + eapply emits_weaken; [| |apply formatGithubMarkdown_emits];
        [intros e ->; by apply console_phase|done|].
      intros ->. cbn [length] in Hout. lia.
    + intros msg Hmsg. apply emits_ret. intros ? [= <-]. by constructor.
Qed.

Lemma filter_links_NoDup (seen : list Deduplicator.SeenEntry) l threshold :
  NoDup (Deduplicator.seenLink <$> seen) →
  NoDup (Deduplicator.seenLink <$> (Deduplicator.filter seen l threshold).2).
Proof.
  intros Hseen. induction l as [|x l IH] using rev_ind; [done|].
  rewrite filter_app. cbn [snd]. rewrite filter_one.
  destruct (duplicateOf_dec threshold (Deduplicator.filter seen l threshold).2 x)
    as [Hdup|Hfresh].
  - by rewrite step_duplicate.
  - rewrite step_fresh by done. cbn [snd]. rewrite fmap_app. apply NoDup_app.
    split; [done|]. split; [|apply NoDup_singleton].
    intros lnk Hin ->%list_elem_of_singleton. apply Hfresh.
    apply list_elem_of_fmap in Hin as (s & Hlink & Hs). exists s. split; [done|]. by left.
Qed.

(** The links of the groups built so far are those the deduplicator
    of the category has seen, each once. *)
Lemma sourceStep_links category st s :
  (link <$> concat (items <$> st.1) = Deduplicator.seenLink <$> st.2 ∧
   NoDup (Deduplicator.seenLink <$> st.2)) →
  emits (fun _ => True)
    (fun st' => link <$> concat (items <$> st'.1) = Deduplicator.seenLink <$> st'.2 ∧
                NoDup (Deduplicator.seenLink <$> st'.2))
    (sourceStep config localFilter category st s).
Proof.
  intros [Hlinks Hnodup]. unfold sourceStep.
  apply emits_bind_any.
  { destruct s; cbn [fetchSource]; unfold fetchHot;
      first [apply emits_bind_any;
             [by apply fetchSingleRssSource_emits|intros ?; by apply emits_ret]
            |repeat emits_step; done]. }
  intros [sourceName fetched].
  destruct (length fetched =? 0)%nat; [by apply emits_ret|].
  destruct (length (Deduplicator.applyKeywordFilter fetched localFilter) =? 0)%nat;
    [by apply emits_ret|].
  pose proof (filter_state Deduplicator.defaultThreshold st.2
                (Deduplicator.applyKeywordFilter fetched localFilter)) as [Hstate _].
  pose proof (filter_links_NoDup st.2
                (Deduplicator.applyKeywordFilter fetched localFilter)
                Deduplicator.defaultThreshold Hnodup) as Hnodup'.
  destruct (Deduplicator.filter st.2 _ _) as [unique seen']. cbn [fst snd] in *.
  apply emits_bind_any; [by apply emits_emit|]. intros _.
  destruct (length unique =? 0)%nat eqn:Hlen.
  { apply emits_ret. cbn [fst snd]. split; [|done].
    apply Nat.eqb_eq in Hlen. destruct unique; [|done].
    by rewrite Hstate, app_nil_r. }
  eapply (emits_bind _ (fun out => link <$> out = link <$> unique)).
  - destruct (shouldTranslate config && isRss s).
    + eapply emits_weaken; [| |apply translateTitles_emits]; [done|by intros ? [? _]].
    + by apply emits_ret.
  - intros out Hout. apply emits_ret. cbn [fst snd items]. split; [|done].
    rewrite fmap_app, concat_app, fmap_app, Hlinks, Hstate, fmap_app. f_equal.
    cbn [fmap list_fmap concat items]. rewrite app_nil_r, Hout.
    rewrite <- list_fmap_compose. done.
Qed.

(** X20.  The loop of [dispatch] over the sources of a category ends,
    and the items it has gathered in the groups have pairwise distinct
    links: the sources of a category share one deduplicator, and the
    translation leaves the links as they are. *)
Theorem category_links_distinct (category : CategoryConfig) (h : history) :
  ∃ (groups : list SourceGroup) (seen : list Deduplicator.SeenEntry) (h' : history),
    forEach (sourceStep config localFilter category) ([], []) (sources category) h
    = (Returned (groups, seen), h') ∧
    NoDup (link <$> concat (items <$> groups)).
Proof.
  destruct (forEach_total (sourceStep config localFilter category)
              (sourceStep_total config localFilter category)
              (sources category) ([], []) h) as ([groups seen] & h' & Hrun).
  exists groups, seen, h'. split; [done|].
  assert (emits (fun _ => True)
            (fun st => link <$> concat (items <$> st.1) = Deduplicator.seenLink <$> st.2 ∧
                       NoDup (Deduplicator.seenLink <$> st.2))
            (forEach (sourceStep config localFilter category) ([], []) (sources category)))
    as Hemits.
  { apply emits_forEach; [|split; [done|apply NoDup_nil_2]].
    intros st s _ Hst. by apply sourceStep_links. }
  destruct (Hemits h) as (ext & _ & _ & Hres). rewrite Hrun in Hres.
  destruct (Hres _ eq_refl) as [Hlinks Hnodup]. cbn [fst snd] in *. by rewrite Hlinks.
Qed.

Lemma bind_thrown {A B} (m : IO A) (f : A → IO B) h e h' :
  m h = (Thrown e, h') → (m ≫= f) h = (Thrown e, h').
Proof. intros Hm. unfold mbind, IO_bind, ioBind. by rewrite Hm. Qed.

(** The events of one category: those of the fetch phase, then the
    delivery of the messages, each of which carries the time. *)
Lemma categoryStep_events webhookAdapters categoryId h :
  ∃ (before : list event) (msgs ids : list jsstring),
    (categoryStep config localFilter webhookAdapters () categoryId h).2
    = reverse (deliveryEvents webhookAdapters msgs ids) ++ before ++ h ∧
    Forall (quiet config) before ∧
    (∀ category, categories config !! categoryId = Some category →
                 Forall (ownFetch category) before) ∧
    Forall carriesTime msgs ∧
    (ids = [] ∨ ∃ category, categories config !! categoryId = Some category ∧
                            ids = categoryWebhooks category).
Proof.
  unfold categoryStep.
  destruct (categories config !! categoryId) as [category|] eqn:Hcat.
  2:{ destruct (inheritedName categoryId) as [name|].
      - exists [ConsoleLog (Fetching name)], [], [].
        split_and!; [done| |done|done|by left]. constructor; [|done]. by split.
      - exists [ConsoleWarn (UnknownCategory categoryId)], [], [].
        split_and!; [done| |done|done|by left]. constructor; [|done]. by split. }
  assert (phase category (ConsoleLog (Fetching (categoryName category)))) as Hfetching
    by by apply console_phase.
  unfold consoleLog at 1. erewrite bind_returned by reflexivity.
  set (h0 := ConsoleLog (Fetching (categoryName category)) :: h).
  set (produce := if isGithubCategory category
                  then githubMessages config localFilter category
                  else newsMessages config localFilter category).
  assert (emits (phase category)
            (fun r => ∀ msgs, r = Some msgs → Forall carriesTime msgs) produce)
    as Hproduce.
  { subst produce. destruct (isGithubCategory category) eqn:Hgh;
      [by apply githubMessages_emits|by apply newsMessages_emits]. }
  destruct (Hproduce h0) as (ext & Hext & Hphase & Hres).
  assert (Forall (phase category) (ext ++ [ConsoleLog (Fetching (categoryName category))]))
    as Hbefore by (apply Forall_app; split; [done|by constructor]).
  assert (∀ before, Forall (phase category) before →
            Forall (quiet config) before ∧
            ∀ category', Some category = Some category' → Forall (ownFetch category') before)
    as Hsplit.
  { intros before Hall. split.
    - eapply Forall_impl; [exact Hall|]. by intros e [? ?].
    - intros ? [= <-]. eapply Forall_impl; [exact Hall|]. by intros e [? ?]. }
  destruct (produce h0) as [[produced|e] h1] eqn:Hrun;
    cbn [fst snd] in Hext, Hres; subst h1.
  2:{ erewrite bind_thrown by exact Hrun.
      exists (ext ++ [ConsoleLog (Fetching (categoryName category))]), [], [].
      split_and!; [by rewrite <- app_assoc|by apply Hsplit|by apply Hsplit|done|by left]. }
  erewrite bind_returned by exact Hrun.
  destruct produced as [msgs|].
  2:{ exists (ext ++ [ConsoleLog (Fetching (categoryName category))]), [], [].
      split_and!; [by rewrite <- app_assoc|by apply Hsplit|by apply Hsplit|done|by left]. }
  assert (Forall carriesTime msgs) as Hmsgs by by apply (Hres (Some msgs)).
  destruct (1 <? length msgs)%nat.
  - unfold consoleLog. erewrite bind_returned by reflexivity. rewrite delivery_spec.
    exists (ConsoleLog (SplitInto (length msgs)) :: ext
            ++ [ConsoleLog (Fetching (categoryName category))]), msgs,
      (categoryWebhooks category).
    assert (Forall (phase category)
              (ConsoleLog (SplitInto (length msgs)) :: ext
               ++ [ConsoleLog (Fetching (categoryName category))])) as Hall.
    { constructor; [by apply console_phase|done]. }
    split_and!; [|by apply Hsplit|by apply Hsplit|done|right; by exists category].
    cbn [snd app]. by rewrite <- app_assoc.
  - erewrite bind_returned by reflexivity. rewrite delivery_spec.
    exists (ext ++ [ConsoleLog (Fetching (categoryName category))]), msgs,
      (categoryWebhooks category).
    split_and!; [|by apply Hsplit|by apply Hsplit|done|right; by exists category].
    cbn [snd]. by rewrite <- app_assoc.
Qed.

Lemma paced_app a b : paced a → paced b → paced (a ++ b).
Proof.
  intros Ha Hb i adapter text Hi.
  destruct (decide (i < length a)%nat) as [Hlt|Hge].
  - rewrite lookup_app_l in Hi by done. apply Ha in Hi.
    rewrite lookup_app_l; [done|]. by apply lookup_lt_Some in Hi.
  - rewrite lookup_app_r in Hi by lia. apply Hb in Hi.
    rewrite lookup_app_r by lia. by replace (S i - length a)%nat with (S (i - length a)) by lia.
Qed.

Lemma paced_no_send l :
  Forall (fun e => ∀ adapter text, e ≠ SendMarkdown adapter text) l → paced l.
Proof.
  intros Hall i adapter text Hi. apply list_elem_of_lookup_2 in Hi.
  rewrite Forall_forall in Hall. by destruct (Hall _ Hi adapter text).
Qed.

Lemma paced_flat_map {A} (f : A → list event) (l : list A) :
  (∀ x, paced (f x)) → paced (flat_map f l).
Proof.
  intros Hf. induction l as [|x l IH]; cbn [flat_map]; [by intros i ? ? ?|].
  by apply paced_app.
Qed.

Lemma paced_delivery webhookAdapters msgs ids :
  paced (deliveryEvents webhookAdapters msgs ids).
Proof.
  apply paced_flat_map. intros webhookId.
  destruct (webhookAdapters !! webhookId) as [adapter|].
  - apply paced_flat_map. intros msg [|[|i]] adapter' text; cbn; by intros [=].
  - apply paced_no_send. by constructor.
Qed.

Lemma delivery_dispatchEvent webhookAdapters msgs ids :
  map_Forall (fun _ adapter => configuredAdapter config adapter) webhookAdapters →
  Forall carriesTime msgs →
  Forall (dispatchEvent config) (deliveryEvents webhookAdapters msgs ids).
Proof.
  intros Hadapters Hmsgs. unfold deliveryEvents, sendEvents.
  apply Forall_flat_map, Forall_forall. intros webhookId _.
  destruct (webhookAdapters !! webhookId) as [adapter|] eqn:Hlookup.
  - apply Forall_flat_map. eapply Forall_impl; [exact Hmsgs|]. intros msg Hmsg.
    constructor; [|constructor; [|constructor]].
    + split; [done|]. intros ? ? [= <- <-]. split; [|done]. by eapply Hadapters.
    + split; [done|]. by intros ? ? [=].
  - constructor; [|constructor]. split; [done|]. by intros ? ? [=].
Qed.

Lemma quiet_dispatchEvent e : quiet config e → dispatchEvent config e.
Proof. intros (Htr & Hsend & _). split; [done|]. intros adapter text ->. by destruct (Hsend adapter text). Qed.

(** The loop over the categories. *)
Lemma runCategories_events webhookAdapters ids h :
  map_Forall (fun _ adapter => configuredAdapter config adapter) webhookAdapters →
  ∃ ext, (runCategories config localFilter webhookAdapters ids h).2 = ext ++ h ∧
         Forall (dispatchEvent config) ext ∧ paced (reverse ext).
Proof.
  intros Hadapters. unfold runCategories. revert h.
  induction ids as [|categoryId ids IH]; intros h.
  - exists []. split_and!; [done|done|]. by intros i ? ? ?.
  - cbn [forEach].
    destruct (categoryStep_events webhookAdapters categoryId h)
      as (before & msgs & ids' & Hstep & Hquiet & _ & Hmsgs & _).
    assert (Forall (dispatchEvent config)
              (reverse (deliveryEvents webhookAdapters msgs ids') ++ before)) as Hstepall.
    { apply Forall_app. split.
      - apply Forall_reverse. by apply delivery_dispatchEvent.
      - eapply Forall_impl; [exact Hquiet|]. apply quiet_dispatchEvent. }
    assert (paced (reverse before ++ deliveryEvents webhookAdapters msgs ids')) as Hsteppaced.
    { apply paced_app; [|apply paced_delivery].
      apply paced_no_send, Forall_reverse. eapply Forall_impl; [exact Hquiet|].
      by intros e (_ & ? & _). }
    destruct (categoryStep config localFilter webhookAdapters () categoryId h)
      as [[[]|e] h1] eqn:Hrun; cbn [snd] in Hstep; subst h1.
    + erewrite bind_returned by exact Hrun.
      destruct (IH (reverse (deliveryEvents webhookAdapters msgs ids') ++ before ++ h))
        as (ext & Hext & Hall & Hpaced).
      exists (ext ++ reverse (deliveryEvents webhookAdapters msgs ids') ++ before).
      split_and!.
      * rewrite Hext. by rewrite <- !app_assoc.
      * apply Forall_app. by split.
      * rewrite !reverse_app, reverse_involutive. by apply paced_app.
    + erewrite bind_thrown by exact Hrun.
      exists (reverse (deliveryEvents webhookAdapters msgs ids') ++ before).
      split_and!; [by rewrite <- app_assoc|done|].
      by rewrite reverse_app, reverse_involutive.
Qed.

Lemma createWebhookAdapter_emits name cfg :
  (name, cfg) ∈ webhooks config →
  emits (fun _ => False) (configuredAdapter config) (createWebhookAdapter name cfg).
Proof.
  intros Hin. unfold createWebhookAdapter.
  repeat case_bool_decide; [apply emits_ret..|apply emits_throw];
    exists name, cfg; (split; [done|]); [by left|by right].
Qed.

Lemma createAdapters_emits :
  emits (fun _ => False)
    (map_Forall (fun _ adapter => configuredAdapter config adapter))
    (createAdapters (webhooks config)).
Proof.
  unfold createAdapters. apply emits_forEach; [|by apply map_Forall_empty].
  intros webhookAdapters [name cfg] Hin Hall. cbn [fst snd].
  eapply emits_bind; [by apply createWebhookAdapter_emits|].
  intros adapter Hadapter. apply emits_ret. by apply map_Forall_insert_2.
Qed.

(** The events of a run. *)
Lemma dispatch_events categoryIds h :
  ∃ ext, (dispatch config categoryIds localFilter h).2 = ext ++ h ∧
         Forall (dispatchEvent config) ext ∧ paced (reverse ext).
Proof.
  unfold dispatch.
  destruct (createAdapters_emits h) as (ext0 & Hext0 & Hnone & Hadapters).
  destruct ext0 as [|e ext0]; [|by apply Forall_cons in Hnone as [[] _]].
  destruct (createAdapters (webhooks config) h) as [[webhookAdapters|e] h0] eqn:Hcreate;
    cbn [fst snd] in *; subst h0.
  2:{ erewrite bind_thrown by exact Hcreate. exists []. split_and!; [done|done|].
      by intros i ? ? ?. }
  erewrite bind_returned by exact Hcreate.
  destruct (runCategories_events webhookAdapters categoryIds h (Hadapters _ eq_refl))
    as (ext & Hext & Hall & Hpaced).
  destruct (runCategories config localFilter webhookAdapters categoryIds h)
    as [[[]|e] h1] eqn:Hrun; cbn [snd] in Hext; subst h1; unfold runCategories in Hrun.
  2:{ erewrite bind_thrown by exact Hrun. by exists ext. }
  erewrite bind_returned by exact Hrun.
  exists (ConsoleLog AllDone :: ext). split_and!; [done| |].
  - constructor; [|done]. split; [done|]. by intros ? ? [=].
  - rewrite reverse_cons. apply paced_app; [done|]. apply paced_no_send. by constructor.
Qed.

(** X21.  In a run of [dispatch], every call of [sendMarkdown] is
    followed at once by the pause of 1000 ms, whether the send succeeded
    or failed. *)
Theorem dispatch_paces_sends (categoryIds : list jsstring) (h : history) :
  ∃ ext, (dispatch config categoryIds localFilter h).2 = ext ++ h ∧
         paced (reverse ext).
Proof.
  destruct (dispatch_events categoryIds h) as (ext & Hext & _ & Hpaced). by exists ext.
Qed.

(** X22.  With settings.translate set to false, a run of [dispatch]
    does nothing of the translator: no request to a provider, no pause
    of 300 ms, no line of [translateTitles] on the console. *)
Theorem dispatch_translation_disabled (categoryIds : list jsstring) (h : history) :
  settings config ≫= translate = Some false →
  ∃ ext, (dispatch config categoryIds localFilter h).2 = ext ++ h ∧
         Forall (fun e => isTranslatorEvent e = false) ext.
Proof.
  intros Hoff. destruct (dispatch_events categoryIds h) as (ext & Hext & Hall & _).
  exists ext. split; [done|]. eapply Forall_impl; [exact Hall|]. intros e [Htr _].
  destruct (isTranslatorEvent e); [|done]. specialize (Htr eq_refl).
  unfold shouldTranslate in Htr. by rewrite Hoff in Htr.
Qed.

(** X23.  Whatever a run of [dispatch] sends, it sends through the
    adapter made for an entry of config.webhooks (its name, its url and
    the class of its type), and the text sent ends with the line of the
    update time. *)
Theorem dispatch_sends_dated_messages (categoryIds : list jsstring) (h : history) :
  ∃ ext, (dispatch config categoryIds localFilter h).2 = ext ++ h ∧
         ∀ adapter text, SendMarkdown adapter text ∈ ext →
                         configuredAdapter config adapter ∧ carriesTime text.
Proof.
  destruct (dispatch_events categoryIds h) as (ext & Hext & Hall & _).
  exists ext. split; [done|]. intros adapter text Hin.
  rewrite Forall_forall in Hall. destruct (Hall _ Hin) as [_ Hsend]. by apply Hsend.
Qed.

(** X24.  While it processes a category, [dispatch] fetches only what
    the category lists.  If the category has no GitHub source: the URLs
    of its RSS sources, and the hot boards that are among its sources,
    with its count.  If it has one: GitHub Trending with the language,
    the period and the count of its first GitHub source.  It asks for
    translations only if the category has a GitHub source or an RSS
    source. *)
Theorem categoryStep_own_sources (webhookAdapters : gmap jsstring WebhookAdapter)
    (categoryId : jsstring) (category : CategoryConfig) (h : history) :
  categories config !! categoryId = Some category →
  ∃ ext, (categoryStep config localFilter webhookAdapters () categoryId h).2 = ext ++ h ∧
         Forall (ownFetch category) ext.
Proof.
  intros Hcat.
  destruct (categoryStep_events webhookAdapters categoryId h)
    as (before & msgs & ids & Hstep & _ & Hown & _).
  exists (reverse (deliveryEvents webhookAdapters msgs ids) ++ before).
  split; [by rewrite <- app_assoc|]. apply Forall_app. split; [|by apply Hown].
  apply Forall_reverse. unfold deliveryEvents, sendEvents.
  apply Forall_flat_map, Forall_forall. intros webhookId _.
  destruct (webhookAdapters !! webhookId).
  - apply Forall_flat_map, Forall_forall. intros msg _. by repeat constructor.
  - by repeat constructor.
Qed.

End DispatchEvents.

(** ** formatter.ts and webhooks/wps-teams.ts together *)

Section FormatterAndWebhooks.
Context `{Engine} `{World}.

Lemma wpsContent_short text :
  (Z.of_nat (length text) ≤ MAX_CONTENT_LENGTH)%Z → wpsContent text = text.
Proof.
  intros Hlen. unfold wpsContent. by rewrite (proj2 (Z.ltb_ge _ _)).
Qed.

(** X19.  With the default limits of the formatter and a category name
    of at most 525 characters, every message of [formatNewsMessages]
    that holds more than one section passes the WPS Teams adapter as it
    is: the budget of the formatter lies within the limit of the
    adapter. *)
Theorem wps_sends_formatted_message_whole (categoryName : jsstring)
    (groups : list SourceGroup) (h : history) :
  (length categoryName ≤ 525)%nat →
  ∃ (msgs : list jsstring) (h' : history),
    formatNewsMessages categoryName groups defaultMaxSourcesPerMsg defaultMaxChars h
    = (Returned msgs, h') ∧
    Forall
      (fun msg =>
         singleSection categoryName (footerOf (timeText (clockParts h)))
           (nonEmptyGroups groups) msg ∨
         wpsContent msg = msg)
      msgs.
Proof.
  intros Hname. rewrite formatNewsMessages_spec.
  destruct (nonEmptyGroups groups) as [|g0 l0] eqn:El.
  - eexists _, _. split; [done|]. constructor; [|done]. right.
    apply wpsContent_short. unfold noData, MAX_CONTENT_LENGTH.
    assert (length (js "## ") = 3%nat) as H3 by by vm_compute.
    assert (length (js "暂无新闻数据。") = 7%nat) as H7 by by vm_compute.
    rewrite !length_app, H3, H7. cbn [length nl]. lia.
  - rewrite <- El. assert (nonEmptyGroups groups ≠ []) as Hne by by rewrite El.
    set (footer := footerOf _).
    destruct (splitMessages_budget categoryName footer defaultMaxSourcesPerMsg
                defaultMaxChars (nonEmptyGroups groups) Hne)
      as (batches & -> & Hb & Hnb & Hfrom).
    eexists _, _. split; [done|]. apply Forall_imap. intros i batch Hbatch.
    pose proof (proj1 (Forall_forall _ _) Hb batch (list_elem_of_lookup_2 _ _ _ Hbatch)) as Hw.
    pose proof (proj1 (Forall_forall _ _) Hnb batch (list_elem_of_lookup_2 _ _ _ Hbatch)) as Hn.
    destruct batch as [|s [|s' batch]]; [done| |].
    + left. assert (s ∈ concat batches) as Hs.
      { apply elem_of_concat. exists [s]. split; [by eapply list_elem_of_lookup_2|].
        by apply list_elem_of_singleton. }
      destruct (proj1 (Forall_forall _ _) Hfrom s Hs) as (g & Hg & ->). by exists i, g.
    + right. apply wpsContent_short.
      pose proof (render_within categoryName footer defaultMaxChars i (s :: s' :: batch)
                    ltac:(cbn [length]; lia) Hw) as Hlen.
      unfold MAX_CONTENT_LENGTH, defaultMaxChars in *. lia.
Qed.

End FormatterAndWebhooks.

(** ** config/loader.ts *)

Section LoaderFacts.
Variable inherited : jsstring → bool.

Lemma hasWebhook_spec config webhookId :
  hasWebhook inherited config webhookId = true ↔ resolves inherited config webhookId.
Proof.
  unfold hasWebhook, resolves. rewrite orb_true_iff, existsb_exists. split.
  - intros [(entry & Hin & Heq)|Hinh]; [left|by right].
    apply bool_decide_eq_true in Heq as <-.
    apply list_elem_of_fmap. exists entry. split; [done|]. by apply list_elem_of_In.
  - intros [Hin|Hinh]; [left|by right].
    apply list_elem_of_fmap in Hin as (entry & -> & Hin). exists entry.
    split; [by apply list_elem_of_In|]. by apply bool_decide_eq_true.
Qed.

Lemma find_unresolved config ids :
  match List.find (fun webhookId => negb (hasWebhook inherited config webhookId)) ids with
  | Some webhookId => webhookId ∈ ids ∧ ¬ resolves inherited config webhookId
  | None => Forall (resolves inherited config) ids
  end.
Proof.
  induction ids as [|w ids IH]; cbn [List.find]; [done|].
  destruct (hasWebhook inherited config w) eqn:Hw; cbn [negb].
  - apply hasWebhook_spec in Hw.
    destruct (List.find _ ids); [|by constructor].
    destruct IH as [Hin Hun]. split; [by right|done].
  - split; [by left|]. intros Hres. apply hasWebhook_spec in Hres. congruence.
Qed.

Lemma checkCategory_None config entry :
  checkCategory inherited config entry = None ↔ wellFormed inherited config entry.2.
Proof.
  unfold checkCategory, wellFormed.
  pose proof (find_unresolved config (categoryWebhooks entry.2)) as Hfind.
  destruct (List.find _ (categoryWebhooks entry.2)) as [w|].
  - destruct Hfind as [Hin Hun]. split; [done|]. intros (Hall & _).
    rewrite Forall_forall in Hall. by destruct Hun; apply Hall.
  - destruct (sources entry.2) as [|s l]; cbn [length Nat.eqb].
    + split; [done|]. by intros (_ & ? & _).
    + destruct (count entry.2 <? 1)%nat eqn:Hcount.
      * apply Nat.ltb_lt in Hcount. split; [done|]. intros (_ & _ & ?). lia.
      * apply Nat.ltb_ge in Hcount. done.
Qed.

Lemma checkCategories_None config entries :
  checkCategories inherited config entries = None ↔
  Forall (fun entry => wellFormed inherited config entry.2) entries.
Proof.
  induction entries as [|entry entries IH]; cbn [checkCategories]; [done|].
  rewrite Forall_cons, <- IH, <- checkCategory_None.
  destruct (checkCategory inherited config entry) as [e|].
  - split; [done|]. by intros [? _].
  - split; [by split|]. by intros [_ ?].
Qed.

Lemma checkCategories_first config pre entry post :
  Forall (fun entry => wellFormed inherited config entry.2) pre →
  checkCategory inherited config entry ≠ None →
  checkCategories inherited config (pre ++ entry :: post)
  = checkCategory inherited config entry.
Proof.
  induction pre as [|first pre IH]; intros Hpre Hbad; cbn [app checkCategories].
  - by destruct (checkCategory inherited config entry).
  - apply Forall_cons in Hpre as [Hfirst Hpre]. apply checkCategory_None in Hfirst.
    rewrite Hfirst. by apply IH.
Qed.

Lemma validateConfig_wellFormed config entries :
  validateConfig inherited config entries = None →
  Forall (fun entry => wellFormed inherited config entry.2) entries.
Proof.
  unfold validateConfig. destruct (length (webhooks config) =? 0)%nat; [done|].
  destruct (length entries =? 0)%nat; [done|]. apply checkCategories_None.
Qed.

(** X25.  [validateConfig] accepts a configuration exactly when it has
    a webhook and a category, and every category has a source, a count
    of at least 1, and only webhook names for which config.webhooks has
    a property: the name of a configured webhook, or a name every object
    inherits. *)
Theorem validateConfig_accepts (config : AppConfig)
    (entries : list (jsstring * CategoryConfig)) :
  validateConfig inherited config entries = None ↔
  webhooks config ≠ [] ∧ entries ≠ [] ∧
  Forall (fun entry => wellFormed inherited config entry.2) entries.
Proof.
  unfold validateConfig.
  destruct (webhooks config) as [|w ws]; cbn [length Nat.eqb].
  { split; [done|]. by intros [? _]. }
  destruct entries as [|entry entries]; cbn [length Nat.eqb].
  { split; [done|]. by intros (_ & ? & _). }
  rewrite checkCategories_None. split; [intros ?; by split_and!|]. by intros (_ & _ & ?).
Qed.

(** X26.  [validateConfig] reports the first category of the file that
    is not well formed, and of its faults the first in this order: a
    webhook name that does not resolve, no source, a count below 1. *)
Theorem validateConfig_first_error (config : AppConfig)
    (pre post : list (jsstring * CategoryConfig)) (categoryId : jsstring)
    (category : CategoryConfig) :
  webhooks config ≠ [] →
  Forall (fun entry => wellFormed inherited config entry.2) pre →
  ¬ wellFormed inherited config category →
  (∃ webhookId, webhookId ∈ categoryWebhooks category ∧
     ¬ resolves inherited config webhookId ∧
     validateConfig inherited config (pre ++ (categoryId, category) :: post)
     = Some (UnknownWebhook categoryId webhookId)) ∨
  (Forall (resolves inherited config) (categoryWebhooks category) ∧
   sources category = [] ∧
   validateConfig inherited config (pre ++ (categoryId, category) :: post)
   = Some (NoSources categoryId)) ∨
  (Forall (resolves inherited config) (categoryWebhooks category) ∧
   sources category ≠ [] ∧ count category = 0%nat ∧
   validateConfig inherited config (pre ++ (categoryId, category) :: post)
   = Some (BadCount categoryId)).
Proof.
  intros Hhooks Hpre Hbad.
  assert (validateConfig inherited config (pre ++ (categoryId, category) :: post)
          = checkCategory inherited config (categoryId, category)) as ->.
  { unfold validateConfig. destruct (webhooks config); [done|]. cbn [length Nat.eqb].
    rewrite length_app. cbn [length]. replace (_ =? 0)%nat with false
      by (symmetry; apply Nat.eqb_neq; lia).
    apply checkCategories_first; [done|]. by rewrite checkCategory_None. }
  unfold checkCategory. cbn [fst snd].
  pose proof (find_unresolved config (categoryWebhooks category)) as Hfind.
  destruct (List.find _ (categoryWebhooks category)) as [w|].
  { left. exists w. by destruct Hfind. }
  right. destruct (sources category) as [|s l] eqn:Hsources; cbn [length Nat.eqb].
  { by left. }
  right. destruct (count category <? 1)%nat eqn:Hcount.
  - apply Nat.ltb_lt in Hcount. split_and!; [done|done|lia|done].
  - apply Nat.ltb_ge in Hcount. destruct Hbad. unfold wellFormed. by rewrite Hsources.
Qed.

End LoaderFacts.

Section ValidatedDispatch.
Context `{Engine} `{World}.
Context (config : AppConfig) (localFilter : LocalFilter).

(** The adapters made: one under each configured name. *)
Lemma createAdapters_names entries :
  ∀ (acc : gmap jsstring WebhookAdapter) h adapters h',
    forEach
      (fun (webhookAdapters : gmap jsstring WebhookAdapter) entry =>
         adapter ← createWebhookAdapter (fst entry) (snd entry);
         mret (<[fst entry := adapter]> webhookAdapters))
      acc entries h = (Returned adapters, h') →
    ∀ webhookId, is_Some (acc !! webhookId) ∨ webhookId ∈ (fst <$> entries) →
                 is_Some (adapters !! webhookId).
Proof.
  induction entries as [|[name cfg] entries IH]; intros acc h adapters h' Hrun w Hw.
  - injection Hrun as <- _. destruct Hw as [?|Hin]; [done|]. by apply elem_of_nil in Hin.
  - cbn [forEach fst snd] in Hrun. unfold createWebhookAdapter in Hrun.
    assert (∀ adapter,
              forEach
                (fun (webhookAdapters : gmap jsstring WebhookAdapter) entry =>
                   adapter ← createWebhookAdapter (fst entry) (snd entry);
                   mret (<[fst entry := adapter]> webhookAdapters))
                (<[name := adapter]> acc) entries h = (Returned adapters, h') →
              is_Some (adapters !! w)) as Hnext.
    { intros adapter Hrest. eapply IH; [exact Hrest|].
      destruct Hw as [Hacc|Hin].
      - left. destruct (decide (name = w)) as [->|Hne].
        + rewrite lookup_insert_eq. by eexists.
        + by rewrite lookup_insert_ne.
      - rewrite fmap_cons in Hin. cbn [fst] in Hin.
        apply elem_of_cons in Hin as [->|Hin]; [left|by right].
        rewrite lookup_insert_eq. by eexists. }
    repeat case_bool_decide.
    + eapply Hnext. exact Hrun.
    + eapply Hnext. exact Hrun.
    + discriminate Hrun.
Qed.

Lemma delivery_resolved (webhookAdapters : gmap jsstring WebhookAdapter) msgs ids :
  Forall (fun webhookId => is_Some (webhookAdapters !! webhookId)) ids →
  Forall (fun e => ∀ webhookId, e ≠ ConsoleWarn (WebhookNotFound webhookId))
    (deliveryEvents webhookAdapters msgs ids).
Proof.
  intros Hids. unfold deliveryEvents, sendEvents. apply Forall_flat_map.
  eapply Forall_impl; [exact Hids|]. intros webhookId [adapter ->].
  apply Forall_flat_map, Forall_forall. intros msg _. by repeat constructor.
Qed.

Lemma runCategories_resolved (webhookAdapters : gmap jsstring WebhookAdapter) ids h :
  (∀ categoryId category, categories config !! categoryId = Some category →
     Forall (fun webhookId => is_Some (webhookAdapters !! webhookId))
       (categoryWebhooks category)) →
  ∃ ext, (runCategories config localFilter webhookAdapters ids h).2 = ext ++ h ∧
         Forall (fun e => ∀ webhookId, e ≠ ConsoleWarn (WebhookNotFound webhookId)) ext.
Proof.
  intros Hall. unfold runCategories. revert h.
  induction ids as [|categoryId ids IH]; intros h.
  - by exists [].
  - cbn [forEach].
    destruct (categoryStep_events config localFilter webhookAdapters categoryId h)
      as (before & msgs & ids' & Hstep & Hquiet & _ & _ & Hids).
    assert (Forall (fun e => ∀ webhookId, e ≠ ConsoleWarn (WebhookNotFound webhookId))
              (reverse (deliveryEvents webhookAdapters msgs ids') ++ before)) as Hstepall.
    { apply Forall_app. split.
      - apply Forall_reverse, delivery_resolved.
        destruct Hids as [->|(category & Hcat & ->)]; [done|]. by eapply Hall.
      - eapply Forall_impl; [exact Hquiet|]. by intros e (_ & _ & ?). }
    destruct (categoryStep config localFilter webhookAdapters () categoryId h)
      as [[[]|e] h1] eqn:Hrun; cbn [snd] in Hstep; subst h1.
    + erewrite bind_returned by exact Hrun.
      destruct (IH (reverse (deliveryEvents webhookAdapters msgs ids') ++ before ++ h))
        as (ext & Hext & Hnone).
      exists (ext ++ reverse (deliveryEvents webhookAdapters msgs ids') ++ before).
      split; [rewrite Hext; by rewrite <- !app_assoc|].
      apply Forall_app. by split.
    + erewrite bind_thrown by exact Hrun.
      exists (reverse (deliveryEvents webhookAdapters msgs ids') ++ before).
      split; [by rewrite <- app_assoc|done].
Qed.

End ValidatedDispatch.

Section Validated.
Context `{Engine} `{World}.
Variable inherited : jsstring → bool.

(** X27.  After [validateConfig] has accepted the configuration, a run
    of [dispatch] never warns that a webhook is missing, provided no
    category names a property every object inherits as its webhook. *)
Theorem validated_dispatch_finds_webhooks (config : AppConfig)
    (entries : list (jsstring * CategoryConfig)) (localFilter : LocalFilter)
    (categoryIds : list jsstring) (h : history) :
  validateConfig inherited config entries = None →
  (∀ categoryId category, categories config !! categoryId = Some category →
                          (categoryId, category) ∈ entries) →
  (∀ entry webhookId, entry ∈ entries → webhookId ∈ categoryWebhooks entry.2 →
                      inherited webhookId = false) →
  ∃ ext, (dispatch config categoryIds localFilter h).2 = ext ++ h ∧
         ∀ webhookId, ConsoleWarn (WebhookNotFound webhookId) ∉ ext.
Proof.
  intros Hvalid Hentries Hown.
  apply (validateConfig_wellFormed inherited) in Hvalid as Hwell.
  unfold dispatch.
  destruct (createAdapters_emits config h) as (ext0 & Hext0 & Hnone & _).
  destruct ext0 as [|e ext0]; [|by apply Forall_cons in Hnone as [[] _]].
  destruct (createAdapters (webhooks config) h) as [[webhookAdapters|e] h0] eqn:Hcreate;
    cbn [fst snd] in *; subst h0.
  2:{ erewrite bind_thrown by exact Hcreate. exists []. split; [done|].
      intros w Hin. by apply elem_of_nil in Hin. }
  erewrite bind_returned by exact Hcreate.
  destruct (runCategories_resolved config localFilter webhookAdapters categoryIds h)
    as (ext & Hext & Hall).
  { intros categoryId category Hcat. apply Hentries in Hcat.
    rewrite Forall_forall in Hwell. destruct (Hwell _ Hcat) as (Hres & _).
    cbn [snd] in Hres. rewrite Forall_forall in Hres. apply Forall_forall.
    intros w Hw. eapply createAdapters_names; [exact Hcreate|]. right.
    destruct (Hres _ Hw) as [Hin|Hinh]; [done|].
    by rewrite (Hown _ _ Hcat Hw) in Hinh. }
  rewrite Forall_forall in Hall.
  destruct (runCategories config localFilter webhookAdapters categoryIds h)
    as [[[]|e] h1] eqn:Hrun; cbn [snd] in Hext; subst h1; unfold runCategories in Hrun.
  2:{ erewrite bind_thrown by exact Hrun. exists ext. split; [done|].
      intros w Hin. by apply (Hall _ Hin w). }
  erewrite bind_returned by exact Hrun.
  exists (ConsoleLog AllDone :: ext). split; [done|].
  intros w Hin. apply elem_of_cons in Hin as [[=]|Hin].
  by apply (Hall _ Hin w).
Qed.

End Validated.

Section EnvFacts.
Variable env : jsstring → option jsstring.

Lemma js_open : js "${" = [0x24; 0x7B].
Proof. by vm_compute. Qed.

Lemma js_close : js "}" = [0x7D].
Proof. by vm_compute. Qed.

Lemma js_hash : js "#" = [0x23].
Proof. by vm_compute. Qed.

Lemma untilBrace_spec name rest :
  0x7D ∉ name → untilBrace (name ++ 0x7D :: rest) = name.
Proof.
  induction name as [|c name IH]; intros Hno; cbn [app untilBrace].
  - by rewrite bool_decide_true.
  - apply not_elem_of_cons in Hno as [Hc Hno]. rewrite bool_decide_false by done.
    by rewrite IH.
Qed.

Lemma untilBrace_inv s :
  (0x7D ∉ untilBrace s) ∧
  (drop (length (untilBrace s)) s = [] ∨
   ∃ rest, s = untilBrace s ++ 0x7D :: rest).
Proof.
  induction s as [|c s [Hno Hrest]]; cbn [untilBrace].
  - split; [apply not_elem_of_nil|by left].
  - case_bool_decide as Hc.
    + subst c. split; [apply not_elem_of_nil|]. right. by exists s.
    + split; [by apply not_elem_of_cons|]. cbn [length drop].
      destruct Hrest as [?|[rest Hs]]; [by left|right].
      exists rest. cbn [app]. by rewrite <- Hs.
Qed.

Lemma placeholderAt_Some s name matched :
  placeholderAt s = Some (name, matched) →
  name ≠ [] ∧ (0x7D ∉ name) ∧ matched = (length name + 3)%nat ∧
  ∃ rest, s = js "${" ++ name ++ js "}" ++ rest.
Proof.
  unfold placeholderAt. destruct (startsWith s (js "${")) eqn:Hstart; [|done].
  apply startsWith_spec in Hstart as [body ->]. rewrite js_open, js_close.
  cbn [app drop]. cbv zeta. rewrite !drop_0.
  destruct (untilBrace_inv body) as [Hno Hrest].
  destruct (untilBrace body) as [|c captured] eqn:Hcap; [done|].
  destruct (drop (length (c :: captured)) body) as [|d rest'] eqn:Hdrop; [done|].
  intros [= <- <-]. split_and!; [done|done|done|].
  destruct Hrest as [?|[rest Hbody]]; [done|]. exists rest. by rewrite Hbody at 1.
Qed.

Lemma placeholderAt_intro name rest :
  name ≠ [] → 0x7D ∉ name →
  placeholderAt (js "${" ++ name ++ js "}" ++ rest) = Some (name, (length name + 3)%nat).
Proof.
  intros Hne Hno. unfold placeholderAt.
  replace (startsWith _ _) with true by (symmetry; apply startsWith_spec; by eexists).
  rewrite js_open, js_close. cbn [app drop]. cbv zeta. rewrite !drop_0.
  rewrite untilBrace_spec by done.
  destruct name as [|c name]; [done|]. cbv beta iota. by rewrite drop_app_length.
Qed.

Lemma placeholderAt_plain c s : c ≠ 0x24 → placeholderAt (c :: s) = None.
Proof.
  intros Hc. destruct (placeholderAt (c :: s)) as [[name matched]|] eqn:Hat; [|done].
  apply placeholderAt_Some in Hat as (_ & _ & _ & rest & Hs).
  rewrite js_open in Hs. by injection Hs as -> _.
Qed.

Lemma replaceFrom_skip s : ∀ skip, replaceFrom env skip s = replaceFrom env 0 (drop skip s).
Proof.
  induction s as [|c s IH]; intros [|skip]; try done. cbn [replaceFrom drop]. apply IH.
Qed.

Lemma replaceFrom_0 c s :
  replaceFrom env 0 (c :: s)
  = match placeholderAt (c :: s) with
    | Some (varName, matched) =>
        match env (trim varName) with
        | None => inl (UndefinedVariable varName)
        | Some value =>
            match replaceFrom env (matched - 1) s with
            | inl e => inl e
            | inr rest => inr (value ++ rest)
            end
        end
    | None =>
        match replaceFrom env 0 s with
        | inl e => inl e
        | inr rest => inr (c :: rest)
        end
    end.
Proof. done. Qed.

Lemma replaceFrom_plain s : 0x24 ∉ s → replaceFrom env 0 s = inr s.
Proof.
  induction s as [|c s IH]; [done|]. intros [Hc Hs]%not_elem_of_cons.
  cbn [replaceFrom]. rewrite placeholderAt_plain by done. by rewrite IH.
Qed.

Lemma replaceFrom_placeholder pre name post :
  0x24 ∉ pre → name ≠ [] → 0x7D ∉ name →
  replaceFrom env 0 (pre ++ js "${" ++ name ++ js "}" ++ post)
  = match env (trim name) with
    | None => inl (UndefinedVariable name)
    | Some value =>
        match replaceFrom env 0 post with
        | inl e => inl e
        | inr rest => inr (pre ++ value ++ rest)
        end
    end.
Proof.
  intros Hpre Hne Hno. induction pre as [|c pre IH].
  - cbn [app]. pose proof (placeholderAt_intro name post Hne Hno) as Hat.
    remember (js "${" ++ name ++ js "}" ++ post) as s eqn:Hs.
    rewrite js_open, js_close in Hs. cbn [app] in Hs. subst s.
    assert (replaceFrom env (length name + 3 - 1) (0x7B :: name ++ 0x7D :: post)
            = replaceFrom env 0 post) as Hskip.
    { rewrite replaceFrom_skip.
      replace (length name + 3 - 1)%nat with (S (length name + 1)) by lia.
      cbn [drop]. rewrite drop_app_ge by lia.
      by replace (length name + 1 - length name)%nat with 1%nat by lia. }
    rewrite replaceFrom_0, Hat. destruct (env (trim name)) as [value|]; [|done].
    by rewrite Hskip.
  - apply not_elem_of_cons in Hpre as [Hc Hpre]. cbn [app replaceFrom].
    rewrite placeholderAt_plain by done. rewrite (IH Hpre).
    destruct (env (trim name)); [|done]. by destruct (replaceFrom env 0 post).
Qed.

Lemma replaceFrom_error s : ∀ skip e,
  replaceFrom env skip s = inl e →
  ∃ name, e = UndefinedVariable name ∧ env (trim name) = None ∧ name ≠ [] ∧
          occursIn (js "${" ++ name ++ js "}") s.
Proof.
  induction s as [|c s IH]; intros skip e; [done|]. cbn [replaceFrom].
  assert (∀ name, occursIn (js "${" ++ name ++ js "}") s →
                  occursIn (js "${" ++ name ++ js "}") (c :: s)) as Hcons.
  { intros name (pre & post & ->). by exists (c :: pre), post. }
  destruct skip as [|skip].
  2:{ intros (name & ? & ? & ? & ?)%IH. exists name. by split_and!; [..|apply Hcons]. }
  destruct (placeholderAt (c :: s)) as [[name matched]|] eqn:Hat.
  - apply placeholderAt_Some in Hat as (Hne & Hno & -> & rest & Hs).
    destruct (env (trim name)) as [value|] eqn:Henv.
    + destruct (replaceFrom env _ s) as [e'|out] eqn:Hrest; [|done].
      intros [= <-]. apply IH in Hrest as (name' & ? & ? & ? & ?).
      exists name'. by split_and!; [..|apply Hcons].
    + intros [= <-]. exists name. split_and!; [done..|].
      exists [], rest. rewrite Hs. cbn [app]. by rewrite <- !app_assoc.
  - destruct (replaceFrom env 0 s) as [e'|out] eqn:Hrest; [|done].
    intros [= <-]. apply IH in Hrest as (name' & ? & ? & ? & ?).
    exists name'. by split_and!; [..|apply Hcons].
Qed.

Lemma join_elem_of (lines : list jsstring) line :
  line ∈ lines → ∃ pre post, join nl lines = pre ++ line ++ post.
Proof.
  induction lines as [|first lines IH]; [by intros ?%elem_of_nil|].
  destruct lines as [|second lines].
  - intros ->%list_elem_of_singleton. exists [], []. cbn [join app]. by rewrite app_nil_r.
  - rewrite join_cons_cons. intros [->|Hin]%elem_of_cons.
    + by exists [], (nl ++ join nl (second :: lines)).
    + destruct (IH Hin) as (pre & post & ->). exists (first ++ nl ++ pre), post.
      by rewrite <- !app_assoc.
Qed.

Lemma resolveLines_error lines e :
  resolveLines env lines = inl e →
  ∃ line, line ∈ lines ∧ replaceFrom env 0 line = inl e.
Proof.
  induction lines as [|line lines IH]; [done|]. cbn [resolveLines]. unfold resolveLine at 1.
  destruct (startsWith (trimStart line) (js "#")).
  - destruct (resolveLines env lines) as [e'|]; [|done]. intros [= <-].
    destruct (IH eq_refl) as (l & ? & ?). exists l. split; [by right|done].
  - destruct (replaceFrom env 0 line) as [e'|out] eqn:Hline.
    + intros [= <-]. exists line. split; [by left|done].
    + destruct (resolveLines env lines) as [e'|]; [|done]. intros [= <-].
      destruct (IH eq_refl) as (l & ? & ?). exists l. split; [by right|done].
Qed.

Lemma resolveLines_plain lines :
  Forall (fun line => startsWith (trimStart line) (js "#") = true ∨ 0x24 ∉ line) lines →
  resolveLines env lines = inr lines.
Proof.
  induction 1 as [|line lines Hline Hall IH]; [done|]. cbn [resolveLines]. rewrite IH.
  unfold resolveLine. destruct (startsWith (trimStart line) (js "#")); [done|].
  destruct Hline as [?|Hno]; [done|]. by rewrite replaceFrom_plain.
Qed.

(** X28.  [resolveEnvVars] returns the text as it is when each of its
    lines is a comment (its first character after white space is #) or
    holds no dollar sign.  The placeholders of a comment line are not
    looked up, so an undefined variable there is no error. *)
Theorem resolveEnvVars_plain (text : jsstring) :
  Forall (fun line => startsWith (trimStart line) (js "#") = true ∨ 0x24 ∉ line)
    (split 0x0A text) →
  resolveEnvVars env text = inr text.
Proof.
  intros Hall. unfold resolveEnvVars. rewrite resolveLines_plain by done.
  by rewrite join_split.
Qed.

(** X29.  In a line that is not a comment, the first placeholder is
    replaced by the value of the variable whose name is the text between
    the braces, trimmed; the value is put in as it is and is not searched
    for placeholders; the rest of the line is resolved in the same way.
    When the variable is undefined the error names the text between the
    braces as written. *)
Theorem resolveEnvVars_substitutes (pre name post : jsstring) :
  0x24 ∉ pre → name ≠ [] → 0x7D ∉ name →
  0x0A ∉ pre ++ js "${" ++ name ++ js "}" ++ post →
  startsWith (trimStart (pre ++ js "${" ++ name ++ js "}" ++ post)) (js "#") = false →
  resolveEnvVars env (pre ++ js "${" ++ name ++ js "}" ++ post)
  = match env (trim name) with
    | None => inl (UndefinedVariable name)
    | Some value =>
        match replaceFrom env 0 post with
        | inl e => inl e
        | inr rest => inr (pre ++ value ++ rest)
        end
    end.
Proof.
  intros Hpre Hne Hno Hnl Hcomment. unfold resolveEnvVars.
  rewrite split_line by done. cbn [resolveLines]. unfold resolveLine.
  rewrite Hcomment, replaceFrom_placeholder by done.
  destruct (env (trim name)); [|done]. by destruct (replaceFrom env 0 post).
Qed.

(** X30.  When [resolveEnvVars] throws, the error names a placeholder
    that occurs in the text and whose variable is undefined.  So with
    every variable defined [resolveEnvVars] returns. *)
Theorem resolveEnvVars_error (text : jsstring) :
  (∀ e, resolveEnvVars env text = inl e →
        ∃ name, e = UndefinedVariable name ∧ env (trim name) = None ∧ name ≠ [] ∧
                occursIn (js "${" ++ name ++ js "}") text) ∧
  ((∀ name, is_Some (env name)) → ∃ out, resolveEnvVars env text = inr out).
Proof.
  assert (∀ e, resolveEnvVars env text = inl e →
        ∃ name, e = UndefinedVariable name ∧ env (trim name) = None ∧ name ≠ [] ∧
                occursIn (js "${" ++ name ++ js "}") text) as Herr.
  { intros e. unfold resolveEnvVars.
    destruct (resolveLines env (split 0x0A text)) as [e'|] eqn:Hlines; [|done].
    intros [= <-]. apply resolveLines_error in Hlines as (line & Hin & Hline).
    apply replaceFrom_error in Hline as (name & ? & ? & ? & (pre & post & Hocc)).
    exists name. split_and!; [done..|].
    destruct (join_elem_of _ _ Hin) as (before & after & Htext).
    rewrite join_split in Htext. exists (before ++ pre), (post ++ after).
    rewrite Htext, Hocc. by rewrite <- !app_assoc. }
  split; [done|]. intros Hdefined.
  destruct (resolveEnvVars env text) as [e|out] eqn:Hrun; [|by exists out].
  destruct (Herr e eq_refl) as (name & _ & Hnone & _).
  destruct (Hdefined (trim name)) as [value Hsome]. congruence.
Qed.

End EnvFacts.

(** ** The properties at concrete inputs *)

Lemma applyKeywordFilter_spec_witness :
  blockedKeywords Instances.noFilter = [] ∧
  Deduplicator.applyKeywordFilter [Instances.news "Title" "https://a"] Instances.noFilter
  = [Instances.news "Title" "https://a"].
Proof.
  split; [reflexivity|].
  exact (proj1 (proj2 (proj2 (applyKeywordFilter_spec
                                [Instances.news "Title" "https://a"] Instances.noFilter)))
           eq_refl).
Defined.

Example applyKeywordFilter_run :
  Deduplicator.applyKeywordFilter
    [Instances.news "Buy spam now" "https://a"; Instances.news "Weather" "https://b";
     Instances.news "SPAM in capitals" "https://c"]
    Samples.spamFilter
  = [Instances.news "Weather" "https://b"; Instances.news "SPAM in capitals" "https://c"].
Proof. by vm_compute. Qed.

Lemma dedup_filter_distinct_witness :
  NoDup (link <$> (@Deduplicator.filter Instances.asciiEngine []
                     [Instances.news "OpenAI releases GPT-5 model update" "https://a";
                      Instances.news "Something else entirely" "https://a"]
                     Deduplicator.defaultThreshold).1).
Proof.
  exact (proj1 (@dedup_filter_distinct Instances.asciiEngine []
                  [Instances.news "OpenAI releases GPT-5 model update" "https://a";
                   Instances.news "Something else entirely" "https://a"]
                  Deduplicator.defaultThreshold)).
Defined.

Lemma dedup_filter_rerun_witness :
  [Instances.news "Alpha beta" "https://a"] ⊆
    [Instances.news "Alpha beta" "https://a"; Instances.news "Gamma delta" "https://b"] ∧
  @Deduplicator.filter Instances.asciiEngine
    (@Deduplicator.filter Instances.asciiEngine []
       [Instances.news "Alpha beta" "https://a"; Instances.news "Gamma delta" "https://b"]
       Deduplicator.defaultThreshold).2
    [Instances.news "Alpha beta" "https://a"] Deduplicator.defaultThreshold
  = ([], (@Deduplicator.filter Instances.asciiEngine []
            [Instances.news "Alpha beta" "https://a"; Instances.news "Gamma delta" "https://b"]
            Deduplicator.defaultThreshold).2).
Proof.
  assert ([Instances.news "Alpha beta" "https://a"] ⊆
            [Instances.news "Alpha beta" "https://a"; Instances.news "Gamma delta" "https://b"])
    as Hsub.
  { intros item Hitem. apply list_elem_of_singleton in Hitem. rewrite Hitem. by left. }
  split; [exact Hsub|].
  exact (@dedup_filter_rerun Instances.asciiEngine [] _ _ Deduplicator.defaultThreshold Hsub).
Defined.

Lemma dedup_tokenless_title_witness :
  @Deduplicator.extractTokens Instances.asciiEngine (title (Instances.news "42" "https://a")) = ∅ ∧
  (0 < 1 # 2)%Q ∧
  @Deduplicator.filter Instances.asciiEngine
    [@Deduplicator.entryOf Instances.asciiEngine (Instances.news "42" "https://a")]
    [Instances.news "42" "https://b"] (1 # 2)
  = ([Instances.news "42" "https://b"],
     [@Deduplicator.entryOf Instances.asciiEngine (Instances.news "42" "https://a");
      @Deduplicator.entryOf Instances.asciiEngine (Instances.news "42" "https://b")]).
Proof.
  assert (@Deduplicator.extractTokens Instances.asciiEngine
            (title (Instances.news "42" "https://a")) = ∅) as Hempty by by vm_compute.
  assert (0 < 1 # 2)%Q as Hpos by reflexivity.
  split; [exact Hempty|]. split; [exact Hpos|].
  apply (proj2 (proj2 (@dedup_tokenless_title Instances.asciiEngine []
                         (Instances.news "42" "https://a") (Instances.news "42" "https://b")
                         (1 # 2) Hempty Hpos))).
  by vm_compute.
Defined.

Lemma translateTitles_untouched_witness :
  Forall (fun item => @target Instances.asciiEngine false item = None)
    [Instances.news "中国人工智能产业规模破万亿" "https://a"] ∧
  @translateTitles Instances.asciiEngine Samples.translating
    [Instances.news "中国人工智能产业规模破万亿" "https://a"] false []
  = (Returned [Instances.news "中国人工智能产业规模破万亿" "https://a"], []).
Proof.
  assert (Forall (fun item => @target Instances.asciiEngine false item = None)
            [Instances.news "中国人工智能产业规模破万亿" "https://a"]) as Hall.
  { constructor; [by vm_compute|constructor]. }
  split; [exact Hall|].
  exact (@translateTitles_untouched Instances.asciiEngine Samples.translating _ false [] Hall).
Defined.

Lemma translateTitles_providers_down_witness :
  (∀ h0 text, @yield Instances.offline h0 text = None) ∧
  ∃ h', @translateTitles Instances.asciiEngine Instances.offline
          [Instances.news "Alpha beta" "https://a"; Instances.news "Gamma delta" "https://b";
           Instances.news "Epsilon zeta" "https://c"] false []
        = (Returned [Instances.news "Alpha beta" "https://a";
                     Instances.news "Gamma delta" "https://b";
                     Instances.news "Epsilon zeta" "https://c"], h') ∧
        (length (providerCalls h') ≤ length (providerCalls []) + 2 * MAX_CONSECUTIVE_FAILURES)%nat.
Proof.
  assert (∀ h0 text, @yield Instances.offline h0 text = None) as Hdown by reflexivity.
  split; [exact Hdown|].
  exact (@translateTitles_providers_down Instances.asciiEngine Instances.offline _ false []
           Hdown).
Defined.

Lemma formatNewsMessages_budget_witness :
  nonEmptyGroups [Instances.group "A" "t1" "l1"; Instances.group "B" "t2" "l2"] ≠ [] ∧
  ∃ msgs : list jsstring,
    @formatNewsMessages Instances.offline (js "Foo")
      [Instances.group "A" "t1" "l1"; Instances.group "B" "t2" "l2"] 3 4500 []
    = (Returned msgs, [FormatToParts]) ∧
    Forall
      (fun msg =>
         singleSection (js "Foo")
           (footerOf (timeText (@clockParts Instances.offline [])))
           (nonEmptyGroups [Instances.group "A" "t1" "l1"; Instances.group "B" "t2" "l2"]) msg ∨
         (Z.of_nat (length msg) ≤ 4500 + Z.of_nat (length (js "Foo")) - 25)%Z)
      msgs.
Proof.
  assert (nonEmptyGroups [Instances.group "A" "t1" "l1"; Instances.group "B" "t2" "l2"] ≠ [])
    as Hne by by vm_compute.
  split; [exact Hne|].
  exact (@formatNewsMessages_budget Instances.offline (js "Foo") _ 3 4500 [] Hne).
Defined.

Lemma formatNewsMessages_one_section_each_witness :
  (0 ≤ 1 ∨ 4500 < Z.of_nat (length (footerOf (timeText (@clockParts Instances.offline []))))
               + 34)%Z ∧
  nonEmptyGroups [Instances.group "A" "t1" "l1"; Instances.group "B" "t2" "l2"] ≠ [] ∧
  @formatNewsMessages Instances.offline (js "Foo")
    [Instances.group "A" "t1" "l1"; Instances.group "B" "t2" "l2"] 0 4500 []
  = (Returned
       (imap (fun i g => render (js "Foo")
                           (footerOf (timeText (@clockParts Instances.offline []))) i
                           [formatSourceSection g])
          (nonEmptyGroups [Instances.group "A" "t1" "l1"; Instances.group "B" "t2" "l2"])),
     [FormatToParts]).
Proof.
  assert (0 ≤ 1 ∨ 4500 < Z.of_nat (length (footerOf (timeText (@clockParts Instances.offline []))))
                       + 34)%Z as Hlimit by (left; lia).
  assert (nonEmptyGroups [Instances.group "A" "t1" "l1"; Instances.group "B" "t2" "l2"] ≠ [])
    as Hne by by vm_compute.
  split; [exact Hlimit|]. split; [exact Hne|].
  exact (@formatNewsMessages_one_section_each Instances.offline (js "Foo") _ 0 4500 []
           Hlimit Hne).
Defined.

Lemma fetchSingleFeed_never_throws_witness :
  @rssFeed Instances.offline [] (js "https://feed") = None ∧
  ∃ out h',
    @fetchSingleFeed Instances.asciiEngine Instances.offline (js "feed") (js "https://feed") []
    = (Returned out, h') ∧
    out = [] ∧
    h' = [ConsoleWarn (RssFetchFailed (js "feed") (js "https://feed"));
          ParseURL (js "https://feed")].
Proof.
  split; [reflexivity|].
  destruct (@fetchSingleFeed_never_throws Instances.asciiEngine Instances.offline
              (js "feed") (js "https://feed") []) as (out & h' & Hrun & _ & Hfail & _).
  exists out, h'. split; [exact Hrun|]. exact (Hfail eq_refl).
Defined.


Lemma fetchSingleRssSource_stable_witness :
  datesValid (@feedList Instances.asciiEngine (js "feed")
                (@rssFeed (Instances.withFeed Instances.sampleFeed) [] (js "https://feed"))) ∧
  ∃ out,
    (@fetchSingleRssSource Instances.asciiEngine (Instances.withFeed Instances.sampleFeed)
       (js "feed") (js "https://feed") 3 []).1 = Returned out ∧
    ∀ a b, precedes out a b → sortKey a = sortKey b →
           precedes (@feedList Instances.asciiEngine (js "feed")
                       (@rssFeed (Instances.withFeed Instances.sampleFeed) []
                          (js "https://feed"))) a b.
Proof.
  assert (datesValid (@feedList Instances.asciiEngine (js "feed")
            (@rssFeed (Instances.withFeed Instances.sampleFeed) [] (js "https://feed"))))
    as Hvalid.
  { vm_compute. repeat constructor; discriminate. }
  split; [exact Hvalid|].
  destruct (@fetchSingleRssSource_stable Instances.asciiEngine
              (Instances.withFeed Instances.sampleFeed) (js "feed") (js "https://feed") 3 []
              Hvalid) as (out & h' & Hrun & Hstable).
  exists out. split; [by rewrite Hrun|exact Hstable].
Defined.

Lemma wpsContent_fits_witness :
  (MAX_CONTENT_LENGTH < Z.of_nat (length Samples.longLatin))%Z ∧
  wpsContent Samples.longLatin
  = take (Z.to_nat (MAX_CONTENT_LENGTH - 30)) Samples.longLatin ++ wpsTruncated ∧
  Z.of_nat (length (wpsContent Samples.longLatin)) = (MAX_CONTENT_LENGTH - 16)%Z.
Proof.
  assert (MAX_CONTENT_LENGTH < Z.of_nat (length Samples.longLatin))%Z as Hlong
    by by vm_compute.
  split; [exact Hlong|].
  exact (proj2 (proj2 (wpsContent_fits Samples.longLatin)) Hlong).
Defined.

Lemma convertToWecomMarkdown_lines_witness :
  [js "## Tech"; js "1. [Title](https://a)"; js "> note"] ≠ [] ∧
  Forall (fun line => 0x0A ∉ line) [js "## Tech"; js "1. [Title](https://a)"; js "> note"] ∧
  convertToWecomMarkdown (join nl [js "## Tech"; js "1. [Title](https://a)"; js "> note"])
  = join nl (convertLine <$> [js "## Tech"; js "1. [Title](https://a)"; js "> note"]).
Proof.
  assert ([js "## Tech"; js "1. [Title](https://a)"; js "> note"] ≠ []) as Hne by done.
  assert (Forall (fun line => 0x0A ∉ line)
            [js "## Tech"; js "1. [Title](https://a)"; js "> note"]) as Hall.
  { repeat constructor; apply (bool_decide_unpack _); by vm_compute. }
  split; [exact Hne|]. split; [exact Hall|].
  exact (proj1 (convertToWecomMarkdown_lines [] _) Hne Hall).
Defined.

Example convertToWecomMarkdown_run :
  convertToWecomMarkdown
    (js "## Tech" ++ nl ++ js "### feed" ++ nl ++ nl ++ js "1. [Title](https://a)"
     ++ nl ++ nl ++ js "> 更新时间：2026-11-02 09:05")
  = js "**Tech**" ++ nl ++ js "**feed**" ++ nl ++ nl ++ js "1. [Title](https://a)"
    ++ nl ++ nl ++ font "comment" ++ js "更新时间：2026-11-02 09:05</font>".
Proof. by vm_compute. Qed.

Lemma wecomContent_fits_witness :
  (MAX_CONTENT_BYTES
   < Z.of_nat (encodedLength (convertToWecomMarkdown (Samples.longChinese))))%Z ∧
  ∃ k,
    wecomContent (Samples.longChinese)
    = take (length (convertToWecomMarkdown (Samples.longChinese)) - 10 * k)
        (convertToWecomMarkdown (Samples.longChinese)) ++ wecomTruncated ∧
    (Z.of_nat (encodedLength
                 (take (length (convertToWecomMarkdown (Samples.longChinese)) - 10 * k)
                    (convertToWecomMarkdown (Samples.longChinese))))
     ≤ MAX_CONTENT_BYTES - 60)%Z.
Proof.
  assert (MAX_CONTENT_BYTES
          < Z.of_nat (encodedLength (convertToWecomMarkdown (Samples.longChinese))))%Z
    as Hlong by by vm_compute.
  split; [exact Hlong|].
  exact (proj2 (proj2 (wecomContent_fits (Samples.longChinese))) Hlong).
Defined.

Example wecomContent_run :
  length (wecomContent (Samples.longChinese)) = (1340 + length wecomTruncated)%nat ∧
  encodedLength (wecomContent (Samples.longChinese)) = 4075%nat.
Proof. by vm_compute. Qed.

Lemma wps_sends_formatted_message_whole_witness :
  (length (js "Foo") ≤ 525)%nat ∧
  ∃ msgs h',
    @formatNewsMessages Instances.offline (js "Foo")
      [Instances.group "A" "t1" "l1"; Instances.group "B" "t2" "l2"]
      defaultMaxSourcesPerMsg defaultMaxChars []
    = (Returned msgs, h') ∧
    Forall
      (fun msg =>
         singleSection (js "Foo")
           (footerOf (timeText (@clockParts Instances.offline [])))
           (nonEmptyGroups [Instances.group "A" "t1" "l1"; Instances.group "B" "t2" "l2"]) msg ∨
         wpsContent msg = msg)
      msgs.
Proof.
  assert (length (js "Foo") ≤ 525)%nat as Hname by (vm_compute; lia).
  split; [exact Hname|].
  exact (@wps_sends_formatted_message_whole Instances.offline (js "Foo") _ [] Hname).
Defined.

Lemma dispatch_translation_disabled_witness :
  settings Instances.sampleConfig ≫= translate = Some false ∧
  ∃ ext,
    (@dispatch Instances.asciiEngine Samples.translating Instances.sampleConfig [js "tech"]
       Instances.noFilter []).2 = ext ++ [] ∧
    Forall (fun e => isTranslatorEvent e = false) ext.
Proof.
  split; [reflexivity|].
  exact (@dispatch_translation_disabled Instances.asciiEngine Samples.translating
           Instances.sampleConfig Instances.noFilter [js "tech"] [] eq_refl).
Defined.

Lemma dispatch_sends_dated_messages_witness :
  ∃ ext,
    (@dispatch Instances.asciiEngine Samples.translating Instances.sampleConfig [js "tech"]
       Instances.noFilter []).2 = ext ++ [] ∧
    ∀ adapter text, SendMarkdown adapter text ∈ ext →
                    configuredAdapter Instances.sampleConfig adapter ∧
                    @carriesTime Samples.translating text.
Proof.
  exact (@dispatch_sends_dated_messages Instances.asciiEngine Samples.translating
           Instances.sampleConfig Instances.noFilter [js "tech"] []).
Defined.

Lemma categoryStep_own_sources_witness :
  categories Instances.sampleConfig !! js "tech" = Some Instances.techCategory ∧
  ∃ ext,
    (@categoryStep Instances.asciiEngine Samples.translating Instances.sampleConfig
       Instances.noFilter ∅ () (js "tech") []).2 = ext ++ [] ∧
    Forall (ownFetch Instances.techCategory) ext.
Proof.
  assert (categories Instances.sampleConfig !! js "tech" = Some Instances.techCategory)
    as Hcat by by vm_compute.
  split; [exact Hcat|].
  exact (@categoryStep_own_sources Instances.asciiEngine Samples.translating
           Instances.sampleConfig Instances.noFilter ∅ (js "tech") Instances.techCategory []
           Hcat).
Defined.

(** A board that is not among the sources of the category is not its
    own. *)
Example ownFetch_foreign_board :
  ¬ ownFetch Instances.techCategory (FetchHot ToutiaoHot 5).
Proof.
  intros (_ & _ & s & Hs & Hboard). apply list_elem_of_singleton in Hs as ->. done.
Qed.

Lemma validateConfig_first_error_witness :
  validateConfig LoaderSamples.objectPrototype Instances.sampleConfig
    ([(js "ops", LoaderSamples.opsCategory)] ++ (js "tech", Instances.techCategory) :: [])
  = Some (UnknownWebhook (js "tech") (js "missing")).
Proof.
  assert (webhooks Instances.sampleConfig ≠ []) as Hhooks by done.
  assert (Forall (fun entry => wellFormed LoaderSamples.objectPrototype
                                 Instances.sampleConfig entry.2)
            [(js "ops", LoaderSamples.opsCategory)]) as Hpre.
  { by repeat constructor. }
  assert (¬ wellFormed LoaderSamples.objectPrototype Instances.sampleConfig
              Instances.techCategory) as Hbad.
  { intros [Hall _]. apply Forall_cons in Hall as [_ Hall].
    apply Forall_cons in Hall as [[Hin|Hinh] _].
    - revert Hin. apply (bool_decide_unpack _). by vm_compute.
    - by vm_compute in Hinh. }
  destruct (validateConfig_first_error LoaderSamples.objectPrototype
              Instances.sampleConfig [(js "ops", LoaderSamples.opsCategory)] []
              (js "tech") Instances.techCategory Hhooks Hpre Hbad)
    as [(w & _ & _ & Hrun)|[(_ & _ & Hrun)|(_ & _ & _ & Hrun)]];
    rewrite Hrun; by vm_compute.
Defined.

Example validateConfig_inherited_name :
  validateConfig LoaderSamples.objectPrototype Instances.sampleConfig
    [(js "tech", LoaderSamples.methodCategory)] = None.
Proof. by vm_compute. Qed.

Lemma validated_dispatch_finds_webhooks_witness :
  validateConfig LoaderSamples.objectPrototype LoaderSamples.validConfig
    [(js "tech", LoaderSamples.opsCategory)] = None ∧
  ∃ ext,
    (@dispatch Instances.asciiEngine Samples.translating LoaderSamples.validConfig
       [js "tech"] Instances.noFilter []).2 = ext ++ [] ∧
    ∀ webhookId, ConsoleWarn (WebhookNotFound webhookId) ∉ ext.
Proof.
  assert (validateConfig LoaderSamples.objectPrototype LoaderSamples.validConfig
            [(js "tech", LoaderSamples.opsCategory)] = None) as Hvalid by by vm_compute.
  split; [exact Hvalid|].
  apply (@validated_dispatch_finds_webhooks Instances.asciiEngine Samples.translating
           LoaderSamples.objectPrototype LoaderSamples.validConfig
           [(js "tech", LoaderSamples.opsCategory)] Instances.noFilter [js "tech"] []
           Hvalid).
  - intros categoryId category Hcat.
    unfold LoaderSamples.validConfig in Hcat. cbn [categories] in Hcat.
    apply lookup_singleton_Some in Hcat as [<- <-]. by left.
  - intros entry webhookId Hentry Hid. apply list_elem_of_singleton in Hentry as ->.
    apply list_elem_of_singleton in Hid as ->. by vm_compute.
Defined.

Lemma resolveEnvVars_plain_witness :
  resolveEnvVars (fun _ => None) (js "# url: ${HOOK}" ++ nl ++ js "name: news")
  = inr (js "# url: ${HOOK}" ++ nl ++ js "name: news").
Proof.
  apply resolveEnvVars_plain.
  replace (split 0x0A (js "# url: ${HOOK}" ++ nl ++ js "name: news"))
    with [js "# url: ${HOOK}"; js "name: news"] by by vm_compute.
  constructor; [left; by vm_compute|].
  constructor; [right; apply (bool_decide_unpack _); by vm_compute|constructor].
Defined.

Lemma resolveEnvVars_substitutes_witness :
  resolveEnvVars LoaderSamples.hookEnv (js "url: " ++ js "${" ++ js " HOOK " ++ js "}" ++ js "/send")
  = inr (js "url: https://hook/${KEY}/send").
Proof.
  assert (0x24 ∉ js "url: ") as Hpre by (apply (bool_decide_unpack _); by vm_compute).
  assert (js " HOOK " ≠ []) as Hne by done.
  assert (0x7D ∉ js " HOOK ") as Hno by (apply (bool_decide_unpack _); by vm_compute).
  assert (0x0A ∉ js "url: " ++ js "${" ++ js " HOOK " ++ js "}" ++ js "/send") as Hnl
    by (apply (bool_decide_unpack _); by vm_compute).
  assert (startsWith (trimStart (js "url: " ++ js "${" ++ js " HOOK " ++ js "}" ++ js "/send"))
            (js "#") = false) as Hcomment by by vm_compute.
  rewrite (resolveEnvVars_substitutes LoaderSamples.hookEnv (js "url: ") (js " HOOK ")
             (js "/send") Hpre Hne Hno Hnl Hcomment).
  by vm_compute.
Defined.

Example resolveEnvVars_undefined :
  resolveEnvVars LoaderSamples.hookEnv
    (js "# ${COMMENTED}" ++ nl ++ js "a: ${HOOK}" ++ nl ++ js "b: ${ KEY }${HOOK}")
  = inl (UndefinedVariable (js " KEY ")).
Proof. by vm_compute. Qed.
